(** * apx-lens: the tool-calling loop of the browser assistant

    A shallow embedding of the parts of [background.js] and of the content
    script that the specification makes promises about: the deep truncation
    of tool results, the context compression, the retrying model call with
    backend fallback, the approval gate, the round loop with its repeat
    detection, the unwrapping of search-engine redirects and the strategy
    ladder of the text extraction. *)

From Stdlib Require Import ZArith Ascii String.
From stdpp Require Import gmap strings list fin_maps pretty.

Set Warnings "-register-all,-clear-no-such-hyp,-abstract-large-number".

(** ** JavaScript strings

    A JavaScript string is a sequence of UTF-16 code units and [s.length]
    counts them.  Text whose length the program inspects is a list of code
    units; names that are only compared (tool names, object keys, model
    identifiers) stay Rocq strings. *)

Module Js.

Definition jsstring : Type := list N.

(** The code units of an ASCII literal. *)
Definition lit (s : string) : jsstring :=
  map N_of_ascii (list_ascii_of_string s).

(** U+2026, the horizontal ellipsis the markers start with. *)
Definition ellipsis : jsstring := [8230%N].

(** [String(n)] and [`${n}`] for a natural number [n]. *)
Definition dec (n : nat) : jsstring := lit (pretty n).

(** [s.slice(0, n)] for a natural number [n]. *)
Definition slice0 {A} (n : nat) (s : list A) : list A := take n s.

End Js.

Import Js.

(** ** Deep truncation of tool results ([truncateDeep])

    The argument of [truncateDeep] is an arbitrary JavaScript value.  Objects
    and arrays have identity (the function keeps a [WeakSet] of the ones it
    has entered), so they live in a heap and a value refers to them by
    location; this is what lets a value be cyclic or share a sub-object.
    The result is built from fresh arrays and objects only, each used once:
    it is a tree. *)

Module Truncate.

Definition loc : Type := nat.

(** The values [trunc] distinguishes: [v == null], then [typeof v]. Symbols
    and bigints, which alone reach the closing [String(v)], do not occur in
    data that crossed a message channel and are left out. *)
Inductive value : Type :=
  | VUndefined
  | VNull
  | VStr (s : jsstring)
  | VNum (n : Z)
  | VBool (b : bool)
  | VFunction
  | VRef (l : loc).

(** An array, or an object as the list of its own enumerable string-keyed
    properties in [Object.keys] order (the keys distinct, none of them
    [__proto__], which an assignment would not store). *)
Inductive object : Type :=
  | OArr (items : list value)
  | OObj (props : list (string * value)).

Abbreviation heap := (gmap loc object).

Inductive tree : Type :=
  | TUndefined
  | TNull
  | TStr (s : jsstring)
  | TNum (n : Z)
  | TBool (b : bool)
  | TArr (items : list tree)
  | TObj (props : list (string * tree)).

(** The options object [{ maxChars, maxArray, maxKeys }]. *)
Record limits : Type := Limits {
  maxChars : nat;
  maxArray : nat;
  maxKeys : nat
}.

(** The defaults of the parameter list. *)
Definition defaultLimits : limits := Limits 1500 50 50.

(** The limits [makeFunctionResponseParts] passes. *)
Definition responseLimits : limits := Limits 2000 30 30.

(** The three markers and the two placeholders. *)
Definition charsMarker (n : nat) : jsstring :=
  ellipsis ++ lit " [truncated " ++ dec n ++ lit " chars]".

Definition itemsMarker (n : nat) : jsstring :=
  ellipsis ++ lit " [" ++ dec n ++ lit " more items truncated]".

Definition keysMarker (n : nat) : jsstring :=
  ellipsis ++ lit " [" ++ dec n ++ lit " more keys truncated]".

Definition circular : jsstring := lit "[circular]".
Definition functionPlaceholder : jsstring := lit "[function]".
Definition truncatedKey : string := "__truncated__".

(** [out[k] = x] on an object given as its property list: an existing key
    keeps its place and takes the new value, a new key goes last. *)
Fixpoint setProp {A} (k : string) (x : A) (out : list (string * A))
  : list (string * A) :=
  match out with
  | [] => [(k, x)]
  | (k', y) :: rest =>
      if String.eqb k' k then (k', x) :: rest else (k', y) :: setProp k x rest
  end.

(** The string case of [trunc]. *)
Definition truncString (lim : limits) (s : jsstring) : jsstring :=
  if maxChars lim <? length s
  then slice0 (maxChars lim) s ++ charsMarker (length s - maxChars lim)
  else s.

(** What follows the recursive calls in the array and the object case. *)
Definition closeArray (lim : limits) (len : nat) (out : list tree) : list tree :=
  if maxArray lim <? len
  then out ++ [TStr (itemsMarker (len - maxArray lim))]
  else out.

Definition closeObject (lim : limits) (len : nat) (out : list (string * tree))
  : list (string * tree) :=
  if maxKeys lim <? len
  then setProp truncatedKey (TStr (keysMarker (len - maxKeys lim))) out
  else out.

Section Trunc.

Context (lim : limits) (stack : nat) (h : heap).

(** [xs.map(f)] for an [f] that reads and extends the [seen] set: the
    elements are visited from left to right. *)
Fixpoint mapSeen {A B} (f : gset loc → A → option (B * gset loc))
    (seen : gset loc) (xs : list A) : option (list B * gset loc) :=
  match xs with
  | [] => Some ([], seen)
  | x :: rest =>
      match f seen x with
      | None => None
      | Some (y, seen1) =>
          match mapSeen f seen1 rest with
          | None => None
          | Some (ys, seen2) => Some (y :: ys, seen2)
          end
      end
  end.

(** [trunc] on the value of a property, the key kept. *)
Definition onProp (f : gset loc → value → option (tree * gset loc))
    (sn : gset loc) (kv : string * value)
  : option ((string * tree) * gset loc) :=
  match f sn kv.2 with
  | None => None
  | Some (t, sn') => Some ((kv.1, t), sn')
  end.

(** The inner function [trunc], with the [WeakSet] threaded through.  The
    source calls itself once per level of nesting, and [fuel] is the number
    of calls that may be nested: a call that is one too many gives [None]
    (so does a reference to nothing). *)
Fixpoint trunc (fuel : nat) (seen : gset loc) (v : value)
  : option (tree * gset loc) :=
  match fuel with
  | O => None
  | S fuel' =>
      match v with
      | VUndefined => Some (TUndefined, seen)
      | VNull => Some (TNull, seen)
      | VStr s => Some (TStr (truncString lim s), seen)
      | VNum n => Some (TNum n, seen)
      | VBool b => Some (TBool b, seen)
      | VFunction => Some (TStr functionPlaceholder, seen)
      | VRef l =>
          if decide (l ∈ seen) then Some (TStr circular, seen)
          else
            match h !! l with
            | None => None
            | Some (OArr items) =>
                match mapSeen (trunc fuel') ({[l]} ∪ seen)
                        (slice0 (maxArray lim) items) with
                | None => None
                | Some (out, seen') =>
                    Some (TArr (closeArray lim (length items) out), seen')
                end
            | Some (OObj props) =>
                match mapSeen (onProp (trunc fuel')) ({[l]} ∪ seen)
                        (slice0 (maxKeys lim) props) with
                | None => None
                | Some (out, seen') =>
                    Some (TObj (closeObject lim (length props) out), seen')
                end
            end
      end
  end.

(** [truncateDeep(value, lim)]: a fresh [seen] set.  The recursion of
    [trunc] has no bound of its own; the engine's call stack has room for
    [stack] nested calls of it, and the call that is one too many throws a
    [RangeError] that nothing here catches.  [None] is that exception. *)
Definition truncateDeep (v : value) : option tree :=
  fst <$> trunc stack ∅ v.

End Trunc.

(** *** The result as a JavaScript value

    [truncateDeep] can only be applied to its own result once that result is
    a value again.  [alloc] builds the tree the way the function built it:
    one new array or object per node, children before their parent. *)

Definition allocList {A B} (f : A → heap * loc → B * (heap * loc)) :=
  fix go (ts : list A) (σ : heap * loc) : list B * (heap * loc) :=
    match ts with
    | [] => ([], σ)
    | t :: rest =>
        let '(x, σ1) := f t σ in
        let '(xs, σ2) := go rest σ1 in
        (x :: xs, σ2)
    end.

Fixpoint alloc (t : tree) (σ : heap * loc) : value * (heap * loc) :=
  match t with
  | TUndefined => (VUndefined, σ)
  | TNull => (VNull, σ)
  | TStr s => (VStr s, σ)
  | TNum n => (VNum n, σ)
  | TBool b => (VBool b, σ)
  | TArr items =>
      let '(xs, (h, n)) := allocList alloc items σ in
      (VRef n, (<[n := OArr xs]> h, S n))
  | TObj props =>
      let '(kvs, (h, n)) :=
        allocList (λ kv σ, let '(x, σ') := alloc kv.2 σ in ((kv.1, x), σ'))
          props σ in
      (VRef n, (<[n := OObj kvs]> h, S n))
  end.

(** A heap whose locations all lie below the next one to be used. *)
Definition fresh (σ : heap * loc) : Prop := ∀ l, l ∈ dom σ.1 → l < σ.2.

(** The calls of [trunc] that are nested, at most, while a tree is
    traversed: one for a leaf, one more than for its items or properties
    for an array or object. *)
Fixpoint nesting (t : tree) : nat :=
  match t with
  | TArr items => S (foldr (λ x d, nesting x `max` d) 0 items)
  | TObj props => S (foldr (λ kv d, nesting kv.2 `max` d) 0 props)
  | _ => 1
  end.

(** What allocating [a] and then truncating the allocated value does, for
    an allocator [fa], a truncation [ft], the tree function [fp] and the
    nesting [dp]. *)
Definition allocSpec {A B C} (fa : A → heap * loc → B * (heap * loc))
    (ft : heap → nat → gset loc → B → option (C * gset loc))
    (fp : A → C) (dp : A → nat) (a : A) : Prop :=
  ∀ h n b h1 n1,
    fa a (h, n) = (b, (h1, n1)) → fresh (h, n) →
    n ≤ n1 ∧ h ⊆ h1 ∧ fresh (h1, n1) ∧
    ∀ h2 seen fuel,
      h1 ⊆ h2 → (∀ l, n ≤ l < n1 → l ∉ seen) → dp a ≤ fuel →
      ∃ seen', ft h2 fuel seen b = Some (fp a, seen') ∧ seen ⊆ seen' ∧
               ∀ l, l ∈ seen' → l ∈ seen ∨ n ≤ l < n1.

(** [truncateDeep(truncateDeep(v))]. *)
Definition truncateTwice (lim : limits) (stack : nat) (h : heap) (v : value)
  : option tree :=
  match truncateDeep lim stack h v with
  | None => None
  | Some t =>
      let '(v', (h', _)) := alloc t (∅, 0) in
      truncateDeep lim stack h' v'
  end.

(** What [trunc] computes on a value without functions in which no array or
    object is reached twice, read as a tree ([truncateDeep_alloc] below). *)
Fixpoint truncTree (lim : limits) (t : tree) : tree :=
  match t with
  | TStr s => TStr (truncString lim s)
  | TArr items =>
      TArr (closeArray lim (length items)
              (slice0 (maxArray lim) (map (truncTree lim) items)))
  | TObj props =>
      TObj (closeObject lim (length props)
              (slice0 (maxKeys lim)
                 (map (λ kv, (kv.1, truncTree lim kv.2)) props)))
  | _ => t
  end.

(** *** The bounds

    [within]: every string has at most [maxChars] code units, every array at
    most [maxArray] items, every object at most [maxKeys] keys. *)
Fixpoint within (lim : limits) (t : tree) : bool :=
  match t with
  | TStr s => bool_decide (length s ≤ maxChars lim)
  | TArr items =>
      bool_decide (length items ≤ maxArray lim) && forallb (within lim) items
  | TObj props =>
      bool_decide (length props ≤ maxKeys lim)
      && forallb (λ kv, within lim kv.2) props
  | _ => true
  end.

(** The strings [trunc] produces: kept whole, cut to [maxChars] code units
    with the count of the cut ones appended, or a placeholder. *)
Inductive stringBounded (lim : limits) : jsstring → Prop :=
  | sb_kept s : length s ≤ maxChars lim → stringBounded lim s
  | sb_cut s k :
      length s = maxChars lim → 0 < k →
      stringBounded lim (s ++ charsMarker k)
  | sb_circular : stringBounded lim circular
  | sb_function : stringBounded lim functionPlaceholder.

(** [bounded]: the limits hold for what was kept; where something was cut,
    the marker comes on top (after the kept characters, as one more item,
    under the key [__truncated__]). *)
Inductive bounded (lim : limits) : tree → Prop :=
  | b_undefined : bounded lim TUndefined
  | b_null : bounded lim TNull
  | b_num n : bounded lim (TNum n)
  | b_bool b : bounded lim (TBool b)
  | b_str s : stringBounded lim s → bounded lim (TStr s)
  | b_arr items :
      length items ≤ maxArray lim → Forall (bounded lim) items →
      bounded lim (TArr items)
  | b_arr_cut items k :
      length items = maxArray lim → 0 < k → Forall (bounded lim) items →
      bounded lim (TArr (items ++ [TStr (itemsMarker k)]))
  | b_obj props :
      length props ≤ maxKeys lim → Forall (λ kv, bounded lim kv.2) props →
      bounded lim (TObj props)
  | b_obj_cut props k :
      length props = maxKeys lim → 0 < k →
      Forall (λ kv, bounded lim kv.2) props →
      bounded lim (TObj (setProp truncatedKey (TStr (keysMarker k)) props)).

(** [out[k]] on a property list. *)
Fixpoint getProp {A} (k : string) (out : list (string * A)) : option A :=
  match out with
  | [] => None
  | (k', y) :: rest => if String.eqb k' k then Some y else getProp k rest
  end.

(** *** The result against the argument

    What the result of a call holds of its argument, in the words of the
    specification: which characters, items and keys are kept, where the
    markers are and what they count, and what becomes of functions and of
    arrays and objects met again. *)

(** A string: kept whole, or its first [maxChars] code units and the
    marker with the count of the others. *)
Definition cutString (lim : limits) (s s' : jsstring) : Prop :=
  if maxChars lim <? length s
  then s' = take (maxChars lim) s ++ charsMarker (length s - maxChars lim)
  else s' = s.

(** An array of [len] items, [kept] being the results of the items kept:
    the marker is one more item, the last. *)
Definition cutItems (lim : limits) (len : nat) (kept out : list tree) : Prop :=
  if maxArray lim <? len
  then out = kept ++ [TStr (itemsMarker (len - maxArray lim))]
  else out = kept.

(** An object of [len] properties: the marker is the value under
    [__truncated__], whatever was there, and the other properties are those
    kept, in their order. *)
Definition cutProps (lim : limits) (len : nat)
    (kept out : list (string * tree)) : Prop :=
  if maxKeys lim <? len
  then getProp truncatedKey out = Some (TStr (keysMarker (len - maxKeys lim))) ∧
       filter (λ kv, kv.1 ≠ truncatedKey) out
       = filter (λ kv, kv.1 ≠ truncatedKey) kept
  else out = kept.

(** [R] from left to right along two lists, each step starting from the
    state the one before ended in. *)
Inductive threaded {A B S : Type} (R : S → A → B → S → Prop)
  : S → list A → list B → S → Prop :=
  | threaded_nil s : threaded R s [] [] s
  | threaded_cons s x y s1 xs ys s2 :
      R s x y s1 → threaded R s1 xs ys s2 →
      threaded R s (x :: xs) (y :: ys) s2.

(** The traversal.  [visit lim h seen v t seen']: with the arrays and
    objects of [seen] entered before, the value [v] becomes [t], and
    [seen'] are those entered afterwards.  A function becomes
    ["[function]"].  An array or object entered before becomes
    ["[circular]"]; one met for the first time is entered: it joins the
    set, its first [maxArray] items (the values of its first [maxKeys]
    properties) are visited from left to right, and the result is an array
    (an object under the same keys) of what they became, with the marker if
    something was left out. *)
Inductive visit (lim : limits) (h : heap)
  : gset loc → value → tree → gset loc → Prop :=
  | visit_undefined seen : visit lim h seen VUndefined TUndefined seen
  | visit_null seen : visit lim h seen VNull TNull seen
  | visit_num seen n : visit lim h seen (VNum n) (TNum n) seen
  | visit_bool seen b : visit lim h seen (VBool b) (TBool b) seen
  | visit_str seen s s' :
      cutString lim s s' → visit lim h seen (VStr s) (TStr s') seen
  | visit_function seen :
      visit lim h seen VFunction (TStr functionPlaceholder) seen
  | visit_again seen l :
      l ∈ seen → visit lim h seen (VRef l) (TStr circular) seen
  | visit_array seen l items kept out seen' :
      l ∉ seen → h !! l = Some (OArr items) →
      threaded (visit lim h) ({[l]} ∪ seen) (take (maxArray lim) items)
        kept seen' →
      cutItems lim (length items) kept out →
      visit lim h seen (VRef l) (TArr out) seen'
  | visit_object seen l props kept out seen' :
      l ∉ seen → h !! l = Some (OObj props) →
      threaded (visit lim h) ({[l]} ∪ seen) (take (maxKeys lim) props).*2
        kept seen' →
      cutProps lim (length props) (zip (take (maxKeys lim) props).*1 kept)
        out →
      visit lim h seen (VRef l) (TObj out) seen'.

(** *** Well-formed arguments: every reference leads to an array or object. *)
Definition closedValue (h : heap) (v : value) : Prop :=
  match v with
  | VRef l => l ∈ dom h
  | _ => True
  end.

Definition closedObject (h : heap) (o : object) : Prop :=
  match o with
  | OArr items => Forall (closedValue h) items
  | OObj props => Forall (λ kv, closedValue h kv.2) props
  end.

Definition closedHeap (h : heap) : Prop :=
  map_Forall (λ _ o, closedObject h o) h.

(** *** Sample arguments *)

(** An array of 31 numbers, one more than [responseLimits] keeps. *)
Definition longArrayHeap : heap := {[ 0 := OArr (replicate 31 (VNum 7)) ]}.

(** A string of 1501 code units, one more than [defaultLimits] keeps. *)
Definition longString : jsstring := replicate 1501 97%N.

(** [a = ["abcdef", a, o, f, o, 3]] with [o = { k: a }] and [f] a function:
    a cycle through [a], and [o] shared. *)
Definition cyclicHeap : heap :=
  {[ 1 := OArr [VStr (lit "abcdef"); VRef 1; VRef 2; VFunction; VRef 2; VNum 3];
     2 := OObj [("k", VRef 1)] ]}.

(** [n + 1] arrays, one inside the other: the array at [k + 1] holds the
    one at [k], and the one at [0] is empty. *)
Fixpoint chain (n : nat) : heap :=
  match n with
  | O => {[ 0 := OArr [] ]}
  | S k => <[S k := OArr [VRef k]]> (chain k)
  end.

(** A call stack with room for a hundred nested calls. *)
Definition roomyStack : nat := 100.

Definition smallLimits : limits := Limits 3 5 2.
Definition roomyLimits : limits := Limits 30 10 5.

(** What [truncateDeep] makes of [a] under the two limits. *)
Definition smallResult : tree :=
  TArr [TStr (lit "abc" ++ charsMarker 3); TStr circular;
        TObj [("k", TStr circular)]; TStr functionPlaceholder; TStr circular;
        TStr (itemsMarker 1)].

Definition roomyResult : tree :=
  TArr [TStr (lit "abcdef"); TStr circular; TObj [("k", TStr circular)];
        TStr functionPlaceholder; TStr circular; TNum 3].

End Truncate.

(** ** The session driver ([generateWithToolsLoop] and what it calls)

    The driver talks to the outside: it fetches from the generation backend,
    sleeps, asks the side panel for approval and runs tools.  The outside is
    a [world] that answers the n-th request of each kind; a computation
    threads the counts of the requests made and returns the events it
    caused, in order. *)

Module Driver.

Import Truncate.

(** *** Conversation contents *)

Inductive role : Type := User | Model.

(** [functionCall.args] as it arrives: a string still to be parsed, or a
    value. *)
Inductive rawArgs : Type :=
  | ArgsString (s : string)
  | ArgsValue (v : tree).

(** A part of a content: [{ text }], [{ functionCall: { name, args } }] or
    [{ functionResponse: { name, response } }]. *)
Inductive part : Type :=
  | PText (text : jsstring)
  | PFunctionCall (name : string) (args : rawArgs)
  | PFunctionResponse (name : string) (response : tree).

(** An entry of [contents], [{ role, parts }].  A candidate of a response
    is given by its content, which is what the driver reads of it and what
    it pushes ([candidate.content || candidate]). *)
Record content : Type := Content {
  c_role : role;
  c_parts : list part
}.

(** A chat message of the side panel, [{ role, content }], with
    [role === 'assistant'] as a flag. *)
Record message : Type := Message {
  m_assistant : bool;
  m_content : jsstring
}.

(** A requested tool call, [{ name, args }]. *)
Record call : Type := Call {
  name : string;
  args : tree
}.

(** *** The outside *)

(** What [resp.json()] gives.  It rejects when the body is not JSON.
    Otherwise it resolves with a value: [null]; another value that counts
    as false ([false], [0] or the empty string), on which, unlike on
    [null], reading [.candidates] does not throw; or any other value, of
    which the driver reads the candidates ([json.candidates], none where
    there is no such array). *)
Inductive body : Type :=
  | NotJson
  | JsonNull
  | JsonFalsy
  | Json (cands : list content).

(** A response: its status, its body read as text and its body read as
    JSON. *)
Record response : Type := Response {
  status : Z;
  bodyText : jsstring;
  jsonBody : body
}.

(** [json.candidates] of a body that was read. *)
Definition candidates (r : response) : list content :=
  match jsonBody r with
  | Json cands => cands
  | _ => []
  end.

(** [fetch] resolves with a response or rejects (a network error). *)
Inductive fetched : Type :=
  | Responded (r : response)
  | NetworkError.

(** What comes back to an approval request within the wait. *)
Inductive reply : Type :=
  | Approved
  | Declined
  | TimedOut.

(** What [executeTool] resolves with: the result, and the tab it reports
    as [newTabId] or [switchedTabId], if any. *)
Record toolOutcome : Type := ToolOutcome {
  result : tree;
  movedToTab : option nat
}.

(** The n-th fetch, the n-th [Math.random() * 100], the n-th approval
    request and the n-th tool run. *)
Record world : Type := World {
  net : nat → fetched;
  jitter : nat → Z;
  approval : nat → reply;
  toolRun : nat → toolOutcome
}.

(** What the platform's JSON functions do is not the driver's business. *)
Record platform : Type := Platform {
  JSON_stringify : list call → string;
  JSON_parse : string → option tree
}.

(** The fields of [STATE] the driver reads. *)
Record settings : Type := Settings {
  model : string;
  autoApprove : bool;
  maxToolRounds : Z
}.

(** What the driver does to the outside: a [generateContent] request to a
    backend, with or without the tool declarations; a sleep; a
    [STREAM_UPDATE] notice; a [REQUEST_TOOL_APPROVAL] message; a
    [TOOL_STATUS_UPDATE] message; a tool run, with the round it happens
    in. *)
Inductive event : Type :=
  | EFetch (mdl : string) (withTools : bool) (contents : list content)
  | ESleep (ms : Z)
  | EStream (text : string)
  | EApprovalRequest (calls : list call)
  | EToolStatus (tool : string)
  | ETool (round : nat) (tool : string) (arguments : tree) (tab : nat).

Record counters : Type := Counters {
  fetches : nat;
  sleeps : nat;
  approvals : nat;
  toolRuns : nat
}.

(** A computation: from the requests made so far to a result, the requests
    made after it and the events it caused. *)
Definition M (A : Type) : Type := counters → A * counters * list event.

Definition ret {A} (a : A) : M A := λ c, (a, c, []).

Definition bind {A B} (m : M A) (k : A → M B) : M B :=
  λ c, let '(a, c1, e1) := m c in
       let '(b, c2, e2) := k a c1 in
       (b, c2, e1 ++ e2).

Notation "'let*' x ':=' m 'in' k" := (bind m (λ x, k))
  (at level 10, x pattern, m at level 100, k at level 200, only parsing).
Notation "'run' m 'in' k" := (bind m (λ _, k))
  (at level 10, m at level 100, k at level 200, only parsing).

Definition emit (e : event) : M unit := λ c, (tt, c, [e]).

(** How a session ends: it returns [{ text, raw: { model, ... } }] or
    [{ error }], or its promise rejects ([Thrown]: an exception that
    nothing in [generateWithToolsLoop] catches). *)
Inductive failure : Type :=
  | ApiError (status : Z) (text : jsstring)
  | AllModelsFailed
  | UserDeclined
  | RoundsExceeded.

Inductive outcome : Type :=
  | Answer (text : jsstring) (mdl : string)
  | Failure (error : failure)
  | Thrown.

(** The [error] strings of the source. *)
Definition failureMessage (f : failure) : jsstring :=
  match f with
  | ApiError st text =>
      lit "API error " ++ lit (pretty st) ++ lit ": " ++ text
  | AllModelsFailed =>
      lit "All model attempts failed (500 or network). Please retry shortly."
  | UserDeclined => lit "User declined requested actions."
  | RoundsExceeded => lit "Tool loop exceeded max rounds"
  end.

(** *** Pure helpers *)

Definition sumList (l : list nat) : nat := foldr Nat.add 0 l.

(** [typeof p.text === 'string' ? p.text.length : 0]. *)
Definition partChars (p : part) : nat :=
  match p with
  | PText text => length text
  | _ => 0
  end.

Definition estimateContentChars (contents : list content) : nat :=
  sumList (map (λ c, sumList (map partChars (c_parts c))) contents).

(** The loop of [trimContents], from the newest message down: the message
    goes in front of the kept ones, and comes off again, ending the loop,
    if that is too much. *)
Fixpoint trimLoop (maxChars : nat) (older kept : list content) : list content :=
  match older with
  | [] => kept
  | c :: rest =>
      if maxChars <? estimateContentChars (c :: kept) then kept
      else trimLoop maxChars rest (c :: kept)
  end.

Definition trimContents (contents : list content) (maxChars : nat)
  : list content :=
  if estimateContentChars contents <=? maxChars then contents
  else trimLoop maxChars (reverse contents) [].

(** [l.join(sep)]. *)
Definition join (sep : jsstring) (l : list jsstring) : jsstring :=
  match l with
  | [] => []
  | x :: rest => x ++ concat (map (λ y, sep ++ y) rest)
  end.

Definition roleUpper (r : role) : jsstring :=
  match r with
  | User => lit "USER"
  | Model => lit "MODEL"
  end.

(** [parts.map(p => p.text).filter(Boolean)]. *)
Definition partTexts (parts : list part) : list jsstring :=
  omap (λ p, match p with
             | PText ((_ :: _) as text) => Some text
             | _ => None
             end) parts.

Definition newline : jsstring := [10%N].

(** The history as [summarizeHistoryText] flattens it. *)
Definition historyText (headContents : list content) : jsstring :=
  join (newline ++ newline)
    (map (λ c, roleUpper (c_role c) ++ lit ": "
               ++ join newline (partTexts (c_parts c)))
       headContents).

Definition summarizerPrompt : jsstring :=
  lit "You are a concise conversation summarizer. Summarize the following chat history into <= 10 bullet points, preserving key decisions, URLs, and user preferences. Avoid repetition. Max 1200 characters.".

Definition summaryEntry (summary : jsstring) : content :=
  Content User
    [PText (lit "Conversation summary (compressed):" ++ newline ++ summary)].

Definition stopInstruction : content :=
  Content User
    [PText (lit "Stop calling tools. Provide the final answer concisely based on the gathered data.")].

Definition buildContentsFromMessages (messages : list message) : list content :=
  map (λ m, Content (if m_assistant m then Model else User)
              [PText (m_content m)]) messages.

(** [extractTextFromCandidate]. *)
Definition extractTextFromCandidate (candidate : option content) : jsstring :=
  match candidate with
  | None => []
  | Some c => concat (partTexts (c_parts c))
  end.

(** The values JavaScript takes for false ([args || {}]). *)
Definition falsy (v : tree) : bool :=
  match v with
  | TUndefined | TNull | TBool false | TNum 0 | TStr [] => true
  | _ => false
  end.

Definition workflowTools : list string :=
  ["searchWeb"; "getSearchResults"; "clickSearchResultByDomain";
   "extractText"; "waitForSelector"].

Definition isLegitimateWorkflow (calls : list call) : bool :=
  existsb (λ c, bool_decide (name c ∈ workflowTools)) calls.

Definition repeatThreshold (calls : list call) : nat :=
  if isLegitimateWorkflow calls then 4 else 2.

(** [Array.from(new Set(l))]: the first occurrence of each element. *)
Fixpoint uniq (l : list string) : list string :=
  match l with
  | [] => []
  | x :: rest => x :: filter (λ y, y ≠ x) (uniq rest)
  end.

(** [resp.ok]. *)
Definition ok (r : response) : bool :=
  (200 <=? status r)%Z && (status r <=? 299)%Z.

(** [[500, 503, 504].includes(status)]. *)
Definition retryable (st : Z) : bool :=
  bool_decide (st ∈ [500; 503; 504]%Z).

(** A tool result arrives over a message channel, as a tree, nested far
    less deeply than the call stack has room for; on such a tree
    [truncateDeep] is [truncTree] ([truncateDeep_alloc]). *)
Definition makeFunctionResponseParts (results : list (string * tree))
  : list part :=
  map (λ nr, PFunctionResponse nr.1 (truncTree responseLimits nr.2)) results.

(** The two notices of a forced ending. *)
Definition forcedNotice : event :=
  EStream "Detected repeated tool plan; forcing a final answer without tools...".

Definition exhaustedNotice : event :=
  EStream "Reached max tool rounds; producing a final answer without tools...".

(** *** Requests *)

Section Session.

Context (W : world) (P : platform) (S0 : settings).

Definition fetch (mdl : string) (withTools : bool) (contents : list content)
  : M fetched :=
  λ c, (net W (fetches c),
        Counters (S (fetches c)) (sleeps c) (approvals c) (toolRuns c),
        [EFetch mdl withTools contents]).

(** [await new Promise(r => setTimeout(r, base + Math.random() * 100))]. *)
Definition sleepJittered (base : Z) : M unit :=
  λ c, (tt,
        Counters (fetches c) (S (sleeps c)) (approvals c) (toolRuns c),
        [ESleep (base + jitter W (sleeps c))]).

(** The [while (attempt <= retries)] loop of [fetchWithRetry] with [left]
    iterations to go, and what follows it.  [NetworkError] as a result is
    the rejection the callers catch. *)
Fixpoint retryLoop (mdl : string) (withTools : bool) (contents : list content)
    (baseDelay : Z) (left attempt : nat) (lastErr : bool) : M fetched :=
  match left with
  | O =>
      if lastErr then ret NetworkError
      else fetch mdl withTools contents
  | S left' =>
      let* r := fetch mdl withTools contents in
      match r with
      | Responded resp =>
          if ok resp then ret r
          else if retryable (status resp) then
            run sleepJittered (baseDelay * 2 ^ Z.of_nat attempt) in
            retryLoop mdl withTools contents baseDelay left' (S attempt) lastErr
          else ret r
      | NetworkError =>
          run sleepJittered (baseDelay * 2 ^ Z.of_nat attempt) in
          retryLoop mdl withTools contents baseDelay left' (S attempt) true
      end
  end.

Definition fetchWithRetry (mdl : string) (withTools : bool)
    (contents : list content) (retries : nat) (baseDelay : Z) : M fetched :=
  retryLoop mdl withTools contents baseDelay (S retries) 0 false.

(** [n] rounds of a fetch and the sleep that follows its failure, the
    first with exponent [from] and jitter number [sl]. *)
Fixpoint backoffEvents (mdl : string) (withTools : bool)
    (contents : list content) (baseDelay : Z) (from sl n : nat) : list event :=
  match n with
  | O => []
  | S n' =>
      EFetch mdl withTools contents
      :: ESleep (baseDelay * 2 ^ Z.of_nat from + jitter W sl)
      :: backoffEvents mdl withTools contents baseDelay (S from) (S sl) n'
  end.

(** The failures [fetchWithRetry] retries. *)
Definition transientFailure (f : fetched) : bool :=
  match f with
  | NetworkError => true
  | Responded resp => negb (ok resp) && retryable (status resp)
  end.

Definition fetchedOk (f : fetched) : bool :=
  match f with
  | NetworkError => false
  | Responded resp => ok resp
  end.

(** An answer the driver can use: an ok response whose body is JSON and
    counts as true. *)
Definition usable (f : fetched) : bool :=
  match f with
  | NetworkError => false
  | Responded resp =>
      ok resp && match jsonBody resp with
                 | Json _ => true
                 | _ => false
                 end
  end.

(** An ok response whose body is JSON and counts as false. *)
Definition blank (f : fetched) : bool :=
  match f with
  | NetworkError => false
  | Responded resp =>
      ok resp && match jsonBody resp with
                 | JsonNull | JsonFalsy => true
                 | _ => false
                 end
  end.

(** What one [fetchWithRetry] does: [n] transient failures, each followed
    by its sleep, and then either one more fetch, whose result is the
    result, or the rejection.  When all [left] iterations failed, the one
    more fetch is made if none of the failures was a network error (none
    before them either: [lastErr]), and the call is rejected without it if
    one was. *)
Definition retried (mdl : string) (withTools : bool) (contents : list content)
    (baseDelay : Z) (left attempt : nat) (lastErr : bool) (c : counters)
    (out : fetched * counters * list event) : Prop :=
  ∃ n, n ≤ left ∧
    (∀ i, i < n → transientFailure (net W (fetches c + i)) = true) ∧
    sleeps out.1.2 = sleeps c + n ∧
    approvals out.1.2 = approvals c ∧ toolRuns out.1.2 = toolRuns c ∧
    ((fetches out.1.2 = fetches c + n + 1 ∧
      out.1.1 = net W (fetches c + n) ∧
      out.2 = backoffEvents mdl withTools contents baseDelay attempt (sleeps c) n
              ++ [EFetch mdl withTools contents] ∧
      (n < left → transientFailure out.1.1 = false) ∧
      (n = left →
       lastErr = false ∧ ∀ i, i < n → net W (fetches c + i) ≠ NetworkError))
     ∨
     (n = left ∧ fetches out.1.2 = fetches c + n ∧
      out.1.1 = NetworkError ∧
      out.2 = backoffEvents mdl withTools contents baseDelay attempt (sleeps c) n ∧
      (lastErr = true ∨ ∃ i, i < n ∧ net W (fetches c + i) = NetworkError))).

(** [STATE.model || 'gemini-2.0-flash']. *)
Definition preferred : string :=
  if String.eqb (model S0) "" then "gemini-2.0-flash" else model S0.

Definition fallbackList : list string :=
  uniq [preferred; "gemini-2.5-flash"; "gemini-1.5-flash"].

(** [generateContentOnce] as [summarizeHistoryText] calls it; [None] is a
    rejection: of the request, of [resp.json()], or the [TypeError] of
    [json.candidates] on [null]. *)
Definition generateContentOnce (system text : jsstring) : M (option jsstring) :=
  let contents :=
    [Content User [PText (lit "SYSTEM:" ++ system)];
     Content User [PText text]] in
  let* r := fetchWithRetry preferred false contents 2 600 in
  match r with
  | NetworkError => ret None
  | Responded resp =>
      if ok resp then
        match jsonBody resp with
        | NotJson | JsonNull => ret None
        | JsonFalsy => ret (Some [])
        | Json cands =>
            ret (Some match cands with
                      | Content _ (PText text :: _) :: _ => text
                      | _ => []
                      end)
        end
      else ret (Some [])
  end.

Definition summarizeHistoryText (headContents : list content) : M jsstring :=
  let* res := generateContentOnce summarizerPrompt (historyText headContents) in
  match res with
  | Some text => ret (slice0 1200 text)
  | None => ret (lit "Summary unavailable due to error.")
  end.

(** The [while (tailCount > 2)] loop of [compressIfNeeded] and the hard
    trim after it. *)
Fixpoint compressLoop (contents : list content) (maxChars : nat)
    (tailCount : nat) : M (list content) :=
  match tailCount with
  | S (S ((S _) as next)) =>
      let head := take (length contents - tailCount) contents in
      let tail := drop (length contents - tailCount) contents in
      let* summary := summarizeHistoryText head in
      let newContents := summaryEntry summary :: tail in
      if estimateContentChars newContents <=? maxChars then ret newContents
      else compressLoop contents maxChars next
  | _ => ret (trimContents contents maxChars)
  end.

Definition compressIfNeeded (contents : list content) (maxChars : nat)
  : M (list content) :=
  if estimateContentChars contents <=? maxChars then ret contents
  else compressLoop contents maxChars (length contents `min` 8).

(** What [compressLoop] returns: a labelled summary of at most 1200 code
    units before the last [k] messages, within budget, or the hard trim. *)
Definition compressed (contents : list content) (maxChars : nat)
    (out : list content) : Prop :=
  (∃ summary k,
     2 < k ≤ length contents `min` 8 ∧ length summary ≤ 1200 ∧
     out = summaryEntry summary :: drop (length contents - k) contents)
  ∨ out = trimContents contents maxChars.

(** *** One round *)

Definition parseArgs (raw : rawArgs) : tree :=
  match raw with
  | ArgsString s => default (TObj []) (JSON_parse P s)
  | ArgsValue v => if falsy v then TObj [] else v
  end.

Definition getFunctionCallsFromCandidate (candidate : option content)
  : list call :=
  match candidate with
  | None => []
  | Some c =>
      omap (λ p, match p with
                 | PFunctionCall n raw => Some (Call n (parseArgs raw))
                 | _ => None
                 end) (c_parts c)
  end.

Definition callSignature (calls : list call) : string := JSON_stringify P calls.

(** The calls a fetch was answered with. *)
Definition planOf (f : fetched) : list call :=
  match f with
  | NetworkError => []
  | Responded resp => getFunctionCallsFromCandidate (head (candidates resp))
  end.

(** A model that requests tool calls whenever it is asked: every fetch is
    answered ok, with a candidate that holds a call. *)
Definition requestsTools : Prop :=
  ∀ i, fetchedOk (net W i) = true ∧ planOf (net W i) ≠ [].

(** No two answers hold the same plan. *)
Definition freshPlans : Prop :=
  ∀ i j, i < j →
         callSignature (planOf (net W i)) ≠ callSignature (planOf (net W j)).

(** The model call of a round: the backends in order.  The loop ends with
    the body of an ok response: its candidates ([Got]), a body that counts
    as false ([Blank]), or the exception of [resp.json()], which is thrown
    outside every [try] ([Unreadable]); it ends with the API error of a
    failing response that is not a 500 ([Rejected]); or it comes to the end
    of the list ([NoneLeft]). *)
Inductive modelReply : Type :=
  | Got (json : list content) (usedModel : string)
  | Blank
  | Unreadable
  | Rejected (status : Z) (text : jsstring)
  | NoneLeft.

Fixpoint callModel (contents : list content) (models : list string)
  : M modelReply :=
  match models with
  | [] => ret NoneLeft
  | mdl :: rest =>
      let* r := fetchWithRetry mdl true contents 2 700 in
      match r with
      | NetworkError =>
          run emit (EStream ("Network error on " +:+ mdl
                            +:+ "; trying a fallback model...")) in
          callModel contents rest
      | Responded resp =>
          if ok resp then
            ret match jsonBody resp with
                | NotJson => Unreadable
                | JsonNull | JsonFalsy => Blank
                | Json cands => Got cands mdl
                end
          else if (status resp =? 500)%Z then
            run emit (EStream ("Model " +:+ mdl
                  +:+ " returned 500 INTERNAL; retrying with a fallback model...")) in
            callModel contents rest
          else ret (Rejected (status resp) (bodyText resp))
      end
  end.

(** The call without tool declarations that both forced endings make.
    Here [resp.json()] is inside the [try]: a body that is not JSON sends
    the loop on to the next backend, like a failure.  A body that counts as
    false ends the loop, and the test [if (finalJson)] that follows finds
    no answer. *)
Fixpoint callFinal (contents : list content) (models : list string)
  : M (option (list content * string)) :=
  match models with
  | [] => ret None
  | mdl :: rest =>
      let* r := fetchWithRetry mdl false contents 1 500 in
      match r with
      | NetworkError => callFinal contents rest
      | Responded resp =>
          if ok resp then
            match jsonBody resp with
            | NotJson => callFinal contents rest
            | JsonNull | JsonFalsy => ret None
            | Json cands => ret (Some (cands, mdl))
            end
          else callFinal contents rest
      end
  end.

Definition requestToolApproval (calls : list call) : M bool :=
  if autoApprove S0 then ret true
  else
    λ c, (match approval W (approvals c) with
          | Approved => true
          | Declined | TimedOut => false
          end,
          Counters (fetches c) (sleeps c) (S (approvals c)) (toolRuns c),
          [EApprovalRequest calls]).

Definition executeTool (round : nat) (cl : call) (tab : nat) : M toolOutcome :=
  λ c, (toolRun W (toolRuns c),
        Counters (fetches c) (sleeps c) (approvals c) (S (toolRuns c)),
        [ETool round (name cl) (args cl) tab]).

(** The [for (const call of calls)] loop: the results in order and the
    current tab at the end. *)
Fixpoint executeCalls (round : nat) (calls : list call) (tab : nat)
  : M (list (string * tree) * nat) :=
  match calls with
  | [] => ret ([], tab)
  | cl :: rest =>
      run emit (EToolStatus (name cl)) in
      let* out := executeTool round cl tab in
      let tab' := default tab (movedToTab out) in
      let* (results, tabEnd) := executeCalls round rest tab' in
      ret ((name cl, result out) :: results, tabEnd)
  end.

(** The variables the loop carries from round to round. *)
Record loopState : Type := LoopState {
  contents : list content;
  currentTabId : nat;
  lastCallSignature : option string;
  repeatCount : nat
}.

(** The repeat counter and the remembered signature after a round that
    requested [calls]. *)
Definition detectRepeat (calls : list call) (ls : loopState)
  : nat * option string :=
  if negb (bool_decide (calls = []))
     && bool_decide (lastCallSignature ls = Some (callSignature calls))
  then (S (repeatCount ls), lastCallSignature ls)
  else (0, Some (callSignature calls)).

(** [candidate.content || candidate], where a candidate is there. *)
Definition candidateContent (candidate : option content) : content :=
  default (Content Model []) candidate.

(** Approval, execution and folding: the end of a round that goes on. *)
Definition executeRound (round : nat) (candidate : option content)
    (calls : list call) (contents : list content) (tab : nat)
    (counter : nat) (sig : option string) : M (outcome + loopState) :=
  let* approved := requestToolApproval calls in
  if negb approved then ret (inl (Failure UserDeclined))
  else
    let* (results, tab') := executeCalls round calls tab in
    ret (inr (LoopState
                (contents ++ [candidateContent candidate;
                              Content User (makeFunctionResponseParts results)])
                tab' sig counter)).

(** A round from the reply of the model on. *)
Definition afterModel (round : nat) (json : list content) (usedModel : string)
    (contents : list content) (ls : loopState) : M (outcome + loopState) :=
  let candidate := head json in
  let calls := getFunctionCallsFromCandidate candidate in
  let '(counter, sig) := detectRepeat calls ls in
  let* forced :=
    if repeatThreshold calls <=? counter then
      run emit forcedNotice in
      let contents' := contents ++ [candidateContent candidate; stopInstruction] in
      let* final := callFinal contents' fallbackList in
      ret (contents', final)
    else ret (contents, None) in
  match forced with
  | (_, Some (finalJson, finalModel)) =>
      ret (inl (Answer (extractTextFromCandidate (head finalJson)) finalModel))
  | (contents', None) =>
      match calls with
      | [] => ret (inl (Answer (extractTextFromCandidate candidate) usedModel))
      | _ :: _ =>
          executeRound round candidate calls contents' (currentTabId ls)
            counter sig
      end
  end.

Definition roundBody (round : nat) (ls : loopState) : M (outcome + loopState) :=
  let* contents := compressIfNeeded (contents ls) 10000 in
  let* reply := callModel contents fallbackList in
  match reply with
  | NoneLeft | Blank => ret (inl (Failure AllModelsFailed))
  | Unreadable => ret (inl Thrown)
  | Rejected st text => ret (inl (Failure (ApiError st text)))
  | Got json usedModel => afterModel round json usedModel contents ls
  end.

(** [for (let round = 0; round < maxRounds; round++)] with [left] rounds to
    go: the result of the round that returned, or the state the loop was
    left with. *)
Fixpoint rounds (left round : nat) (ls : loopState) : M (outcome + loopState) :=
  match left with
  | O => ret (inr ls)
  | S left' =>
      let* r := roundBody round ls in
      match r with
      | inl res => ret (inl res)
      | inr ls' => rounds left' (S round) ls'
      end
  end.

(** What follows the loop. *)
Definition afterRounds (ls : loopState) : M outcome :=
  run emit exhaustedNotice in
  let* final := callFinal (contents ls) fallbackList in
  match final with
  | Some (finalJson, finalModel) =>
      ret (Answer (extractTextFromCandidate (head finalJson)) finalModel)
  | None => ret (Failure RoundsExceeded)
  end.

(** [config.maxToolRounds] when [config] has a number there, else
    [STATE.maxToolRounds]; the options page stores an integer. *)
Definition maxRoundsOf (configRounds : option Z) : Z :=
  default (maxToolRounds S0) configRounds.

(** [generateWithToolsLoop({ messages, system, config }, tabId)].  The loop
    [for (let round = 0; round < maxRounds; round++)] makes
    [Z.to_nat maxRounds] rounds unless one of them returns. *)
Definition generateWithToolsLoop (messages : list message)
    (configRounds : option Z) (tabId : nat) : M outcome :=
  let* r := rounds (Z.to_nat (maxRoundsOf configRounds)) 0
              (LoopState (buildContentsFromMessages messages) tabId None 0) in
  match r with
  | inl res => ret res
  | inr ls => afterRounds ls
  end.

End Session.

(** *** Classes of events *)

(** Whatever happened before, every event of [m] satisfies [Q]. *)
Definition emitsOnly {A} (Q : event → Prop) (m : M A) : Prop :=
  ∀ c, Forall Q (m c).2.

(** A fetch of [contents] from one of [models], or a sleep. *)
Definition netEvent (models : list string) (withTools : bool)
    (contents : list content) (e : event) : Prop :=
  (∃ mdl, mdl ∈ models ∧ e = EFetch mdl withTools contents)
  ∨ ∃ ms, e = ESleep ms.

(** A fetch, a sleep or a status line for the side panel. *)
Definition talkEvent (e : event) : Prop :=
  match e with
  | EFetch _ _ _ | ESleep _ | EStream _ => True
  | _ => False
  end.

(** What the end of round [round] emits: the approval request, and, for
    each call, its status line and its run. *)
Definition roundEvent (round : nat) (e : event) : Prop :=
  match e with
  | EApprovalRequest _ | EToolStatus _ => True
  | ETool r _ _ _ => r = round
  | _ => False
  end.

(** The backend of a fetch. *)
Definition fetchedModel (e : event) : option string :=
  match e with
  | EFetch mdl _ _ => Some mdl
  | _ => None
  end.

(** The rounds in which a tool ran. *)
Definition toolRound (e : event) : option nat :=
  match e with
  | ETool round _ _ _ => Some round
  | _ => None
  end.

Definition toolRoundsOf (events : list event) : list nat :=
  remove_dups (omap toolRound events).

(** *** Sample sessions *)

(** [STATE] as the file initialises it. *)
Definition initialState : settings := Settings "gemini-2.5-flash-lite" true 8.

Definition samplePlatform : platform :=
  Platform (λ calls, String.concat "," (map name calls)) (λ _, None).

Definition noCounts : counters := Counters 0 0 0 0.

(** Every backend answers 503 to every request. *)
Definition busyWorld : world :=
  World (λ _, Responded (Response 503 (lit "busy") NotJson)) (λ _, 0%Z)
    (λ _, Declined) (λ _, ToolOutcome TNull None).

(** No request gets through. *)
Definition offlineWorld : world :=
  World (λ _, NetworkError) (λ _, 0%Z) (λ _, Declined)
    (λ _, ToolOutcome TNull None).

(** The preferred backend answers 500 four times; the request after
    those is answered with the text "done". *)
Definition recoveringWorld : world :=
  World (λ i, if i <? 4
              then Responded (Response 500 (lit "INTERNAL") NotJson)
              else Responded
                     (Response 200 [] (Json [Content Model [PText (lit "done")]])))
    (λ _, 0%Z) (λ _, Declined) (λ _, ToolOutcome TNull None).

(** The model asks for the same click in every round, and nobody answers
    the approval request. *)
Definition clickReply : fetched :=
  Responded (Response 200 []
               (Json [Content Model
                        [PFunctionCall "clickSelector" (ArgsValue (TObj []))]])).

Definition unattendedWorld : world :=
  World (λ _, clickReply) (λ _, 0%Z) (λ _, TimedOut)
    (λ _, ToolOutcome TNull None).

(** The model asks for the same click three times; after that every
    request is answered 500. *)
Definition stubbornWorld : world :=
  World (λ i, if i <? 3 then clickReply
              else Responded (Response 500 (lit "INTERNAL") NotJson))
    (λ _, 0%Z) (λ _, Approved) (λ _, ToolOutcome TNull None).

(** The model asks for a click, the click is run, and what follows is
    answered ok with the body [null]. *)
Definition blankFinalWorld : world :=
  World (λ i, match i with
              | O => clickReply
              | S _ => Responded (Response 200 (lit "null") JsonNull)
              end)
    (λ _, 0%Z) (λ _, Approved) (λ _, ToolOutcome TNull None).

(** The model asks for another tool every time, the [i]-th time for the
    tool of the name [i]. *)
Definition planWorld : world :=
  World (λ i, Responded
                (Response 200 []
                   (Json [Content Model
                            [PFunctionCall (pretty i) (ArgsValue (TObj []))]])))
    (λ _, 0%Z) (λ _, Approved) (λ _, ToolOutcome TNull None).

(** Three messages of six code units each. *)
Definition sampleContents : list content :=
  [Content User [PText (lit "first.")];
   Content Model [PText (lit "second")];
   Content User [PText (lit "third.")]].

End Driver.

(** ** Unwrapping search-engine redirects ([decodeGoogleRedirect]) *)

Module Redirect.

(** What the function reads of [new URL(href, location.href)]: the host
    name, the path and the query as [searchParams] holds it, that is, with
    names and values already percent-decoded. *)
Record url : Type := Url {
  hostname : string;
  pathname : string;
  searchParams : list (string * string)
}.

(** [s.includes(sub)] and [s.startsWith(sub)]. *)
Fixpoint includes (s sub : string) : bool :=
  String.prefix sub s
  || match s with
     | EmptyString => false
     | String _ s' => includes s' sub
     end.

Definition startsWith (s sub : string) : bool := String.prefix sub s.

(** [u.searchParams.get(key)] where it is used as a condition: the first
    value under [key], unless there is none or it is empty. *)
Fixpoint getParam (params : list (string * string)) (key : string)
  : option string :=
  match params with
  | [] => None
  | (k, v) :: rest => if String.eqb k key then Some v else getParam rest key
  end.

Definition truthyParam (u : url) (key : string) : option string :=
  match getParam (searchParams u) key with
  | Some v => if String.eqb v "" then None else Some v
  | None => None
  end.

(** [for (const key of keys) { const v = ...; if (v) return v; }]. *)
Fixpoint firstParam (u : url) (keys : list string) : option string :=
  match keys with
  | [] => None
  | key :: rest =>
      match truthyParam u key with
      | Some v => Some v
      | None => firstParam u rest
      end
  end.

Definition isGoogleRedirect (u : url) : bool :=
  (includes (hostname u) "google." || String.eqb (hostname u) "www.google.com")
  && String.eqb (pathname u) "/url".

Definition isBingRedirect (u : url) : bool :=
  includes (hostname u) "bing.com"
  && (String.eqb (pathname u) "/aclk" || String.eqb (pathname u) "/ck/a").

Definition isDuckDuckGoRedirect (u : url) : bool :=
  includes (hostname u) "duckduckgo.com" && startsWith (pathname u) "/l".

Section Decode.

(** The platform: [new URL(href, location.href)] and [decodeURIComponent],
    [None] where they throw. *)
Context (parseURL : string → option url)
        (decodeURIComponent : string → option string).

Definition decodeGoogleRedirect (href : string) : string :=
  match parseURL href with
  | None => href
  | Some u =>
      match (if isGoogleRedirect u then firstParam u ["q"; "url"; "u"]
             else None) with
      | Some v => v
      | None =>
          match (if isBingRedirect u then truthyParam u "u" else None) with
          | Some v => v
          | None =>
              match (if isDuckDuckGoRedirect u then truthyParam u "uddg"
                     else None) with
              | Some v => default href (decodeURIComponent v)
              | None => href
              end
          end
      end
  end.

(** The destination a redirect carries, as the query holds it. *)
Definition destination (u : url) : option string :=
  if isGoogleRedirect u then firstParam u ["q"; "url"; "u"]
  else if isBingRedirect u then truthyParam u "u"
  else if isDuckDuckGoRedirect u then truthyParam u "uddg"
  else None.

End Decode.

(** *** A sample: a DuckDuckGo link to [https://example.com/a%20b] *)

Definition hexValue (a : ascii) : option nat :=
  let n := nat_of_ascii a in
  if (48 <=? n) && (n <=? 57) then Some (n - 48)
  else if (65 <=? n) && (n <=? 70) then Some (n - 55)
  else if (97 <=? n) && (n <=? 102) then Some (n - 87)
  else None.

(** [decodeURIComponent] on strings whose escapes are below [%80]: each
    [%XX] becomes its character, a [%] without two hexadecimal digits
    throws.  (Escapes from [%80] on stand for UTF-8 sequences; this sample
    does not read them.) *)
Fixpoint decodeAscii (s : string) : option string :=
  match s with
  | EmptyString => Some EmptyString
  | String "%" (String a (String b rest)) =>
      match hexValue a, hexValue b with
      | Some x, Some y =>
          if 16 * x + y <? 128
          then String (ascii_of_nat (16 * x + y)) <$> decodeAscii rest
          else None
      | _, _ => None
      end
  | String "%" _ => None
  | String a rest => String a <$> decodeAscii rest
  end.

Definition wrappedHref : string :=
  "https://duckduckgo.com/l/?uddg=https%3A%2F%2Fexample.com%2Fa%2520b".

Definition wrappedUrl : url :=
  Url "duckduckgo.com" "/l/" [("uddg", "https://example.com/a%20b")].

(** The same link to [https://example.com/100%]. *)
Definition percentHref : string :=
  "https://duckduckgo.com/l/?uddg=https%3A%2F%2Fexample.com%2F100%25".

Definition percentUrl : url :=
  Url "duckduckgo.com" "/l/" [("uddg", "https://example.com/100%")].

(** [new URL] on the two samples. *)
Definition sampleParse (href : string) : option url :=
  if String.eqb href wrappedHref then Some wrappedUrl
  else if String.eqb href percentHref then Some percentUrl
  else None.

End Redirect.

(** ** The strategy ladder of the text extraction

    One pass of [extractText] in the content script, and the function
    [extractTextAllFrames] injects into every frame.  The document is the
    platform's; a [page] holds the text each strategy draws from it. *)

Module Extract.

Record page : Type := Page {
  (** the texts of the visible matches of the selector, joined *)
  selected : jsstring;
  (** per semantic selector, the trimmed text of its first match when that
      is visible *)
  semantic : list (option jsstring);
  (** the texts of the content elements, nested ones dropped, joined *)
  contentText : jsstring;
  (** per dynamic-content selector with matches, their texts joined *)
  dynamicTexts : list jsstring;
  (** what shadow roots and same-origin frames hold *)
  shadowText : jsstring;
  (** what the framework roots hold *)
  appText : jsstring;
  (** [document.body.innerText || document.body.textContent || ''] *)
  bodyText : jsstring
}.

(** White space and line terminators, which [trim] removes. *)
Definition isSpace (u : N) : bool :=
  bool_decide (u ∈ [9; 10; 11; 12; 13; 32; 160; 5760; 8232; 8233; 8239; 8287;
                    12288; 65279]%N)
  || ((8192 <=? u)%N && (u <=? 8202)%N).

Fixpoint trimStart (s : jsstring) : jsstring :=
  match s with
  | [] => []
  | u :: rest => if isSpace u then trimStart rest else s
  end.

Definition trim (s : jsstring) : jsstring :=
  reverse (trimStart (reverse (trimStart s))).

(** [s.split('\n')]. *)
Fixpoint splitLines (s : jsstring) : list jsstring :=
  match s with
  | [] => [[]]
  | u :: rest =>
      match splitLines rest with
      | line :: lines =>
          if (u =? 10)%N then [] :: line :: lines else (u :: line) :: lines
      | [] => [[u]]
      end
  end.

Definition lower (u : N) : N :=
  if (65 <=? u)%N && (u <=? 90)%N then (u + 32)%N else u.

(** [/^(w1|w2|...)$/i.test(line)]. *)
Definition matchesWord (words : list string) (line : jsstring) : bool :=
  existsb (λ w, bool_decide (map lower line = map lower (lit w))) words.

Definition navWords : list string :=
  ["home"; "about"; "contact"; "menu"; "search"; "login"; "register";
   "sign in"; "sign up"].

Definition navWordsAllFrames : list string :=
  navWords ++ ["navigation"; "header"; "footer"].

(** The lines of the body that are kept, joined. *)
Definition filteredBody (words : list string) (body : jsstring) : jsstring :=
  Driver.join Driver.newline
    (filter (λ line, 10 ≤ length line ∧ matchesWord words line = false)
       (map trim (splitLines body))).

(** [!currentText || currentText.length < n]. *)
Definition below (n : nat) (currentText : jsstring) : bool :=
  length currentText <? n.

(** The first candidate that is not empty and longer than the text so far
    ([if (...) { currentText = text; break; }] in a loop). *)
Fixpoint firstLonger (candidates : list jsstring) (currentText : jsstring)
  : jsstring :=
  match candidates with
  | [] => currentText
  | text :: rest =>
      if length currentText <? length text then text
      else firstLonger rest currentText
  end.

Section Ladder.

Context (pg : page).

(** *** [extractText] (content script) *)

(** Strategies 1 and 2: the selector when there is one, else the semantic
    containers. *)
Definition strategy12 (selector : bool) (currentText : jsstring) : jsstring :=
  if selector then selected pg
  else firstLonger (omap id (semantic pg)) currentText.

Definition strategy3 (currentText : jsstring) : jsstring :=
  if below 300 currentText then
    if length currentText <? length (contentText pg) then contentText pg
    else currentText
  else currentText.

Definition strategy4 (currentText : jsstring) : jsstring :=
  if below 200 currentText then firstLonger (dynamicTexts pg) currentText
  else currentText.

Definition strategy5 (currentText : jsstring) : jsstring :=
  if below 200 currentText then
    if length currentText <? length (trim (shadowText pg))
    then trim (shadowText pg)
    else currentText
  else currentText.

Definition strategy6 (currentText : jsstring) : jsstring :=
  if below 200 currentText then
    if length currentText <? length (trim (appText pg))
    then trim (appText pg)
    else currentText
  else currentText.

(** Strategy 7 compares the trimmed body and assigns the filtered one. *)
Definition strategy7 (currentText : jsstring) : jsstring :=
  if below 200 currentText then
    if length currentText <? length (trim (bodyText pg))
    then filteredBody navWords (bodyText pg)
    else currentText
  else currentText.

(** [currentText] after each strategy of one pass, from [''] on. *)
Definition runningBest (selector : bool) : list jsstring :=
  let t1 := strategy12 selector [] in
  let t3 := strategy3 t1 in
  let t4 := strategy4 t3 in
  let t5 := strategy5 t4 in
  let t6 := strategy6 t5 in
  let t7 := strategy7 t6 in
  [[]; t1; t3; t4; t5; t6; t7].

(** *** [extractTextAllFrames] (the injected function) *)

Definition frameStrategy1 (selector : bool) (text : jsstring) : jsstring :=
  if selector then selected pg else text.

Definition frameStrategy2 (text : jsstring) : jsstring :=
  if below 300 text then firstLonger (omap id (semantic pg)) text else text.

Definition frameStrategy3 (text : jsstring) : jsstring :=
  if below 300 text then
    if length text <? length (contentText pg) then contentText pg else text
  else text.

(** The last strategy compares the filtered body again before it assigns. *)
Definition frameStrategy4 (text : jsstring) : jsstring :=
  if below 200 text then
    if length text <? length (trim (bodyText pg)) then
      if length text <? length (filteredBody navWordsAllFrames (bodyText pg))
      then filteredBody navWordsAllFrames (bodyText pg)
      else text
    else text
  else text.

Definition frameRunningBest (selector : bool) : list jsstring :=
  let t1 := frameStrategy1 selector [] in
  let t2 := frameStrategy2 t1 in
  let t3 := frameStrategy3 t2 in
  let t4 := frameStrategy4 t3 in
  [[]; t1; t2; t3; t4].

End Ladder.

(** Each text of the list is the one before it or a strictly longer one. *)
Fixpoint adoptedOnlyIfLonger (texts : list jsstring) : Prop :=
  match texts with
  | before :: ((after :: _) as rest) =>
      (after = before ∨ length before < length after)
      ∧ adoptedOnlyIfLonger rest
  | _ => True
  end.

(** *** A sample page

    [<span id="x">Hi there</span><br><span>Menu</span>], extracted with the
    selector [#x]. *)
Definition samplePage : page :=
  Page (lit "Hi there") [] [] [] [] []
    (lit "Hi there" ++ Driver.newline ++ lit "Menu").

End Extract.

(** ** Accounting for a session

    What a computation of the driver costs: the requests it makes, the time
    it sleeps, the tabs its tools run on. *)

Module Accounting.

Import Truncate Driver.

(** The milliseconds slept. *)
Definition sleepTotal (events : list event) : Z :=
  foldr (λ e total, match e with
                    | ESleep ms => (ms + total)%Z
                    | _ => total
                    end) 0%Z events.

(** [Math.random() * 100] lies in [[0, 100)]; the timer counts whole
    milliseconds. *)
Definition jitterInRange (W : world) : Prop :=
  ∀ i, (0 ≤ jitter W i < 100)%Z.

(** The longest [fetchWithRetry] sleeps: every one of its [retries + 1]
    sleeps taken, each with the largest jitter. *)
Definition backoffBound (baseDelay : Z) (retries : nat) : Z :=
  (baseDelay * (2 ^ Z.of_nat (S retries) - 1) + 99 * Z.of_nat (S retries))%Z.

Definition networkError (f : fetched) : bool :=
  match f with
  | NetworkError => true
  | Responded _ => false
  end.

(** The request [summarizeHistoryText] sends for the messages [head]: the
    contents [generateContentOnce] builds from its [system] and
    [messages]. *)
Definition summarizerRequest (head : list content) : list content :=
  [Content User [PText (lit "SYSTEM:" ++ summarizerPrompt)];
   Content User [PText (historyText head)]].

(** What the context compression sends and does: summarizer requests to the
    preferred backend for a prefix of the contents, and sleeps. *)
Definition summarizerEvent (S0 : settings) (contents : list content)
    (e : event) : Prop :=
  (∃ k, e = EFetch (preferred S0) false (summarizerRequest (take k contents)))
  ∨ ∃ ms, e = ESleep ms.

(** A request that carries the tool declarations goes to one of the
    backends of the list and stays within the budget of the loop. *)
Definition budgetedRequest (S0 : settings) (e : event) : Prop :=
  ∀ mdl cs, e = EFetch mdl true cs →
            mdl ∈ fallbackList S0 ∧ estimateContentChars cs ≤ 10000.

(** Anything but a request with the tool declarations. *)
Definition notToolFetch (e : event) : Prop :=
  match e with
  | EFetch _ true _ => False
  | _ => True
  end.

(** A computation that makes at most [f] fetches, sleeps at most [s] times
    and sends at most [a] approval requests. *)
Definition costs {A} (f s a : nat) (m : M A) : Prop :=
  ∀ c, fetches c ≤ fetches (m c).1.2 ≤ fetches c + f ∧
       sleeps c ≤ sleeps (m c).1.2 ≤ sleeps c + s ∧
       approvals c ≤ approvals (m c).1.2 ≤ approvals c + a.

(** A computation that runs no tool. *)
Definition runsNoTool {A} (m : M A) : Prop :=
  ∀ c, toolRuns (m c).1.2 = toolRuns c.

(** A round, or a session, that ran no tool, sent at most one approval
    request and, if it sent one, ended as declined. *)
Definition endsUnapproved (c : counters) (result : option outcome)
    (c' : counters) (events : list event) : Prop :=
  toolRuns c' = toolRuns c ∧
  Forall (λ e, toolRound e = None) events ∧
  approvals c ≤ approvals c' ≤ S (approvals c) ∧
  (approvals c' = S (approvals c) → result = Some (Failure UserDeclined)).

(** The tool, the arguments and the tab of a tool run. *)
Definition toolRunOf (e : event) : option (string * tree * nat) :=
  match e with
  | ETool _ tool arguments tab => Some (tool, arguments, tab)
  | _ => None
  end.

(** The outcomes of [n] tool runs from the [start]-th on. *)
Definition outcomesFrom (W : world) (start n : nat) : list toolOutcome :=
  map (toolRun W) (seq start n).

(** The current tab after tool runs with the given outcomes: the tab the
    last of them that reported one reported. *)
Definition tabAfter (tab : nat) (outcomes : list toolOutcome) : nat :=
  default tab (last (omap movedToTab outcomes)).

(** The first request is lost on the network, every later one is answered
    503. *)
Definition flakyWorld : world :=
  World (λ i, match i with
              | O => NetworkError
              | S _ => Responded (Response 503 (lit "busy") NotJson)
              end)
    (λ _, 0%Z) (λ _, Declined) (λ _, ToolOutcome TNull None).

(** A backend that answers every request with the same response. *)
Definition answersAlways (W : world) (r : response) : Prop :=
  ∀ i, net W i = Responded r.

(** The backend asks for the same click whatever it is sent. *)
Definition clickResponse : response :=
  Response 200 []
    (Json [Content Model
             [PFunctionCall "clickSelector" (ArgsValue (TObj []))]]).

Definition insistentWorld : world :=
  World (λ _, Responded clickResponse) (λ _, 0%Z) (λ _, Approved)
    (λ _, ToolOutcome TNull None).

(** A tool result of 5000 code units. *)
Definition longResult : list (string * tree) :=
  [("getAllContent", TObj [("content", TStr (replicate 5000 97%N))])].

(** Two tools; the first opens tab 7. *)
Definition tabOpeningWorld : world :=
  World (λ _, NetworkError) (λ _, 0%Z) (λ _, Approved)
    (λ i, match i with
          | O => ToolOutcome (TObj [("ok", TBool true)]) (Some 7)
          | S _ => ToolOutcome TNull None
          end).

End Accounting.

(** ** The streaming client ([generateContentStream])

    The generator reads a server-sent-event stream: it appends each decoded
    chunk to a buffer, takes the complete lines off the buffer and yields
    what the [data:] lines among them hold.  The chunks are the strings the
    [TextDecoder] hands over. *)

Module Stream.

Import Driver.

(** What the generator yields: [{ error }], [{ text }] or
    [{ toolCalls }]. *)
Inductive item : Type :=
  | IError (message : jsstring)
  | IText (text : jsstring)
  | IToolCalls (calls : list (string * rawArgs)).

(** The response of the streaming request: its status, its body read as
    text (for the error message) and its body read chunk by chunk. *)
Record streamed : Type := Streamed {
  s_status : Z;
  s_text : jsstring;
  s_chunks : list jsstring
}.

(** [s.startsWith(p)]. *)
Definition startsWith (s p : jsstring) : bool :=
  bool_decide (take (length p) s = p).

(** [lines.pop()] and what is left of [lines]. *)
Definition pop {A} (lines : list A) : list A * option A :=
  (take (pred (length lines)) lines, last lines).

(** [parts.filter(p => p.functionCall).map(p => p.functionCall)]. *)
Definition functionCalls (parts : list part) : list (string * rawArgs) :=
  omap (λ p, match p with
             | PFunctionCall n a => Some (n, a)
             | _ => None
             end) parts.

(** The lines of a text that a line feed ends. *)
Definition completeLines (s : jsstring) : list jsstring :=
  (pop (Extract.splitLines s)).1.

Section Reader.

(** [JSON.parse(data)], read as the candidates of the event; [None] where
    it throws or the event has another shape. *)
Context (parse : jsstring → option (list content)).

(** The body of [for (const line of lines)]. *)
Definition onLine (line : jsstring) : list item :=
  if negb (startsWith line (lit "data:")) then []
  else
    let data := Extract.trim (drop 5 line) in
    if bool_decide (data = lit "[DONE]") then []
    else
      match parse data with
      | None => []
      | Some candidates =>
          let parts := match head candidates with
                       | Some candidate => c_parts candidate
                       | None => []
                       end in
          let text := match parts with
                      | PText text :: _ => text
                      | _ => []
                      end in
          (if bool_decide (text = []) then [] else [IText text])
          ++ match functionCalls parts with
             | [] => []
             | calls => [IToolCalls calls]
             end
      end.

(** One turn of the [while (true)] loop for a chunk: the complete lines
    and the new buffer. *)
Definition feed (buf chunk : jsstring) : list jsstring * jsstring :=
  let '(lines, rest) := pop (Extract.splitLines (buf ++ chunk)) in
  (lines, default [] rest).

(** The loop over the chunks until [done]; the buffer is dropped at the
    end. *)
Fixpoint readChunks (buf : jsstring) (chunks : list jsstring) : list item :=
  match chunks with
  | [] => []
  | chunk :: rest =>
      let '(lines, buf') := feed buf chunk in
      concat (map onLine lines) ++ readChunks buf' rest
  end.

(** [generateContentStream] once the request has been answered ([apiKey]
    is [STATE.apiKey], empty when there is none; without a key the request
    is not made). *)
Definition generateContentStream (apiKey : jsstring) (resp : streamed)
  : list item :=
  if bool_decide (apiKey = []) then
    [IError (lit "Missing API key. Set it in options.")]
  else if negb ((200 <=? s_status resp)%Z && (s_status resp <=? 299)%Z) then
    [IError (lit "API error " ++ lit (pretty (s_status resp)) ++ lit ": "
             ++ s_text resp)]
  else readChunks [] (s_chunks resp).

End Reader.

(** A sample: an event that says "hi", the end marker, and a second "hi"
    that no line feed ends, cut into three chunks in the middle of a
    line. *)
Definition sampleEvents (data : jsstring) : option (list content) :=
  if bool_decide (data = lit "hi") then Some [Content Model [PText (lit "hi")]]
  else None.

Definition sampleStream : streamed :=
  Streamed 200 []
    [lit "data: h"; lit "i" ++ newline ++ lit "data: [DONE]" ++ newline;
     lit "data: hi"].

End Stream.

(** ** Tidying extracted text, and the texts of several frames

    What the extraction tools do to a text before they return it, how
    [extractTextAllFrames] combines the texts of the frames, and how the
    background falls back on it when the content script found little. *)

Module Frames.

Import Driver Extract.

(** What [s.replace(/c{3,}/g, repl)] puts for a maximal run of the
    characters of the class: [repl] for three or more, the run itself
    otherwise. *)
Definition flush (repl span : jsstring) : jsstring :=
  if 3 <=? length span then repl else span.

(** [s.replace(/c{3,}/g, repl)] for a character class [c], with the run
    [span] that ends where [s] starts. *)
Fixpoint collapseRuns (c : N → bool) (repl span s : jsstring) : jsstring :=
  match s with
  | [] => flush repl span
  | u :: rest =>
      if c u then collapseRuns c repl (span ++ [u]) rest
      else flush repl span ++ u :: collapseRuns c repl [] rest
  end.

Definition isLineFeed (u : N) : bool := (u =? 10)%N.

(** [s.replace(/\n{3,}/g, '\n\n')]. *)
Definition normalizeBreaks (s : jsstring) : jsstring :=
  collapseRuns isLineFeed [10; 10]%N [] s.

(** [s.replace(/\s{3,}/g, ' ')]; the class [\s] is the white space and the
    line terminators, what [trim] removes. *)
Definition normalizeSpaces (s : jsstring) : jsstring :=
  collapseRuns isSpace [32%N] [] s.

(** What [extractText] and the function injected by [extractTextAllFrames]
    return of the text they gathered:
    [text.replace(/\n{3,}/g, '\n\n').trim()]. *)
Definition tidy (text : jsstring) : jsstring := trim (normalizeBreaks text).

(** The method [clean] of [getAllContent], of the body text. *)
Definition cleanText (body : jsstring) : jsstring :=
  trim (normalizeSpaces (normalizeBreaks body)).

(** The longest run of characters of a class in [s], a run of [cur]
    characters ending where [s] starts. *)
Fixpoint maxRun (c : N → bool) (cur : nat) (s : jsstring) : nat :=
  match s with
  | [] => cur
  | u :: rest =>
      if c u then maxRun c (S cur) rest else cur `max` maxRun c 0 rest
  end.

Definition longestRun (c : N → bool) (s : jsstring) : nat := maxRun c 0 s.

(** Neither the first nor the last character is white space. *)
Definition trimmed (s : jsstring) : Prop :=
  (∀ u, head s = Some u → isSpace u = false) ∧
  (∀ u, last s = Some u → isSpace u = false).

(** *** The texts of the frames *)

Definition frameSeparator : jsstring :=
  newline ++ newline ++ lit "---" ++ newline ++ newline.

(** [if (frameText.length > best.length) best = frameText]. *)
Definition longer (best frameText : jsstring) : jsstring :=
  if length best <? length frameText then frameText else best.

(** The loop over the results of the frames and what follows it.  The
    source compares [combinedText.length > best.length * 1.2] in floating
    point; for lengths of strings (below [2^30]) that is the comparison
    [5 * combined > 6 * best] of integers. *)
Definition combineFrames (frameTexts : list jsstring) : jsstring :=
  let allTexts := filter (λ frameText, 50 < length frameText) frameTexts in
  let best := foldl longer [] allTexts in
  if 1 <? length allTexts then
    let combinedText := join frameSeparator allTexts in
    if 6 * length best <? 5 * length combinedText then combinedText else best
  else best.

(** The text of one frame: the last of the four strategies, tidied. *)
Definition frameText (selector : bool) (pg : page) : jsstring :=
  tidy (default [] (last (frameRunningBest pg selector))).

(** [extractTextAllFrames(tabId, selector)] over the documents of the
    frames (the text it resolves with; where the injection fails it is
    ['']). *)
Definition extractTextAllFrames (selector : bool) (frames : list page)
  : jsstring :=
  combineFrames (map (frameText selector) frames).

(** *** The fallbacks of [executeTool] for [extractText]

    What the background tries when the content script returned fewer than
    300 characters: the extraction over all frames, the content script
    again with [scroll: true], and the extraction over all frames with
    three other selectors.  Each of these is asked at most once, in this
    order, so its answer is given with the page. *)

(** The three [alternativeSelectors], in order: everything in the body
    but scripts, styles and page furniture; what has "content" or "text" in
    its class or id; the common block and inline elements. *)
Inductive altSelector : Type :=
  | BodyElements
  | ContentOrText
  | Blocks.

Definition alternativeSelectors : list altSelector :=
  [BodyElements; ContentOrText; Blocks].

Record probes : Type := Probes {
  (** [extractTextAllFrames(tabId, args?.selector)] *)
  allFrames : jsstring;
  (** the text of the content script with [scroll: true] *)
  scrolled : jsstring;
  (** [extractTextAllFrames(tabId, altSelector)] *)
  alternative : altSelector → jsstring
}.

Inductive probe : Type :=
  | AllFrames
  | Scrolled
  | Alternative (selector : altSelector).

Definition probeText (pr : probes) (p : probe) : jsstring :=
  match p with
  | AllFrames => allFrames pr
  | Scrolled => scrolled pr
  | Alternative selector => alternative pr selector
  end.

(** [for (const altSelector of alternativeSelectors)]: the first text
    longer than [bound], and the selectors tried. *)
Fixpoint firstAlternative (pr : probes) (bound : nat)
    (selectors : list altSelector)
  : option jsstring * list probe :=
  match selectors with
  | [] => (None, [])
  | selector :: rest =>
      if bound <? length (alternative pr selector)
      then (Some (alternative pr selector), [Alternative selector])
      else
        let '(found, tried) := firstAlternative pr bound rest in
        (found, Alternative selector :: tried)
  end.

(** The fallbacks for a content-script result with the text [currentText]:
    the text that replaces the result, if any, and what was tried.
    [scroll] is [args?.scroll]. *)
Definition extractTextFallback (currentText : jsstring) (scroll : bool)
    (pr : probes) : option jsstring * list probe :=
  if length currentText <? 300 then
    if length currentText <? length (allFrames pr)
    then (Some (allFrames pr), [AllFrames])
    else
      let bound := length currentText `max` length (allFrames pr) in
      let '(found, tried) :=
        if negb scroll && (length (allFrames pr) <? 500) then
          if bound <? length (scrolled pr)
          then (Some (scrolled pr), [Scrolled])
          else (None, [Scrolled])
        else (None, []) in
      match found with
      | Some text => (Some text, AllFrames :: tried)
      | None =>
          if length (allFrames pr) <? 200 then
            let '(found', tried') :=
              firstAlternative pr bound alternativeSelectors in
            (found', AllFrames :: tried ++ tried')
          else (None, AllFrames :: tried)
      end
  else (None, []).

(** Two frames: an article of 400 characters and a banner of 60. *)
Definition sampleFrames : list jsstring :=
  [replicate 400 97%N; replicate 60 98%N].

(** A page on which nothing does better than the 120 characters the
    content script found. *)
Definition thinProbes : probes :=
  Probes (replicate 100 97%N) (replicate 120 97%N) (λ _, []).

End Frames.

(** ** Search results ([getSearchResults], [clickSearchResultByDomain])

    The document is the platform's: [extractResults()] is given by what it
    returns each time it is called, and a link by its host name. *)

Module Search.

(** An entry of the result list, [{ title, href }]. *)
Record searchResult : Type := SearchResult {
  r_title : string;
  r_href : string
}.

(** A look at the page after a scroll: what [extractResults()] returns, and
    whether the page had grown ([document.body.scrollHeight >
    initialHeight]). *)
Record snapshot : Type := Snapshot {
  found : list searchResult;
  grew : bool
}.

(** [results.push(...newResults.filter(r => !existingHrefs.has(r.href)))]
    with [existingHrefs] the links of [results]. *)
Definition addNew (results newResults : list searchResult)
  : list searchResult :=
  results ++ filter (λ r, r_href r ∉ map r_href results) newResults.

(** [while (results.length < 5 && scrollAttempts < MAX_SCROLL_ATTEMPTS)]
    with [left] attempts to go; [later n] is the look after the scroll of
    attempt [n]. *)
Fixpoint scrollLoop (later : nat → snapshot) (left attempt : nat)
    (results : list searchResult) : list searchResult :=
  match left with
  | O => results
  | S left' =>
      if length results <? 5 then
        let results' := addNew results (found (later attempt)) in
        if grew (later attempt)
        then scrollLoop later left' (S attempt) results'
        else results'
      else results
  end.

(** The closing loop: the first result of each link, ten at most.  [count]
    is [uniqueResults.length]. *)
Fixpoint uniqueResults (seenHrefs : gset string) (count : nat)
    (results : list searchResult) : list searchResult :=
  match results with
  | [] => []
  | r :: rest =>
      if decide (r_href r ∈ seenHrefs) then uniqueResults seenHrefs count rest
      else
        r :: (if 10 <=? S count then []
              else uniqueResults ({[r_href r]} ∪ seenHrefs) (S count) rest)
  end.

(** [getSearchResults]: [first] is what [extractResults()] returns before
    any scroll. *)
Definition getSearchResults (first : list searchResult)
    (later : nat → snapshot) : list searchResult :=
  uniqueResults ∅ 0 (scrollLoop later 3 0 first).

(** *** Matching a link against the domain asked for *)

(** [s.endsWith(suffix)]. *)
Fixpoint endsWith (s suffix : string) : bool :=
  String.eqb s suffix
  || match s with
     | EmptyString => false
     | String _ s' => endsWith s' suffix
     end.

(** The test of [isMatch], on the host name [h] of the link (lower case,
    a leading [www.] removed) and the normalised domain. *)
Definition hostMatches (h normDomain : string) : bool :=
  String.eqb h normDomain
  || endsWith h ("." +:+ normDomain)
  || Redirect.includes h normDomain.

(** *** Choosing the link to click

    What the scoring of [clickSearchResultByDomain] reads of a matching
    link. *)
Record link : Type := Link {
  (** on a Google host, the link holds an [h3] *)
  googleHeadline : bool;
  (** on a Bing host, the link is inside [li.b_algo] *)
  bingHeadline : bool;
  (** on a DuckDuckGo host, the link is a result title *)
  duckHeadline : bool;
  (** the link is inside [#search, #b_content, .results, main, article] *)
  inMainContent : bool;
  (** [candidates.indexOf(a)] *)
  searchResultIndex : nat;
  (** the path is neither [/] nor empty *)
  specificPath : bool;
  (** the length of the text of the link, in lower case *)
  textLength : nat;
  (** the path matches the pattern of navigation words *)
  navigationPath : bool;
  (** the text matches the pattern of navigation words *)
  navigationText : bool
}.

Definition points (condition : bool) (n : Z) : Z := if condition then n else 0%Z.

Definition score (l : link) : Z :=
  (points (googleHeadline l) 100 + points (bingHeadline l) 100
   + points (duckHeadline l) 100
   + points (inMainContent l) 50
   + points (Nat.ltb (searchResultIndex l) 5)
       (50 - Z.of_nat (searchResultIndex l) * 10)
   + points (specificPath l) 10
   + points (Nat.ltb 20 (textLength l)) 10
   + points (Nat.ltb 50 (textLength l)) 5
   - points (navigationPath l) 20 - points (navigationText l) 20
   - points (Nat.ltb (textLength l) 10) 10)%Z.

(** [matchingLinks.sort((a, b) => b.score - a.score)]: the sort is stable,
    so the result is the one arrangement by falling score in which links
    of the same score keep their order.  [insertByScore] puts a link in
    front of links that came after it. *)
Fixpoint insertByScore (x : link) (sorted : list link) : list link :=
  match sorted with
  | [] => [x]
  | y :: rest =>
      if (score x <? score y)%Z then y :: insertByScore x rest
      else x :: y :: rest
  end.

Definition sortByScore (matchingLinks : list link) : list link :=
  foldr insertByScore [] matchingLinks.

(** No link scores more than a link before it. *)
Fixpoint falling (links : list link) : Prop :=
  match links with
  | [] => True
  | x :: rest => Forall (λ y, (score y ≤ score x)%Z) rest ∧ falling rest
  end.

(** [matchingLinks.length > 0 ? matchingLinks[0].element : null] after the
    sort. *)
Definition target (matchingLinks : list link) : option link :=
  head (sortByScore matchingLinks).

(** Three matching links: a footer link, the headline of the second result
    and the headline of the seventh, its text as long and its path as
    specific as the second's. *)
Definition footerLink : link := Link false false false false 9 false 5 true true.
Definition secondHeadline : link := Link true false false true 1 true 30 false false.
Definition seventhHeadline : link := Link true false false true 6 true 30 false false.

(** A result page that shows the same link twice, and more links after a
    scroll. *)
Definition sampleFirst : list searchResult :=
  [SearchResult "A" "https://a.example/"; SearchResult "A again" "https://a.example/";
   SearchResult "B" "https://b.example/"].

Definition sampleLater (n : nat) : snapshot :=
  Snapshot [SearchResult "B" "https://b.example/";
            SearchResult "C" "https://c.example/"] false.

End Search.

(** ** The side panel and the message router

    What the side panel keeps of a conversation ([sidepanel.js]) and what
    the router of the background sends it for a question (the case
    [ASK_GEMINI]).  The rendering is the platform's. *)

Module Panel.

Import Driver.

(** The messages of the background that the side panel listens to:
    [STREAM_UPDATE] with the text of its chunk, [STREAM_DONE],
    [TOOL_STATUS_UPDATE], [REQUEST_TOOL_APPROVAL] and
    [PREFILL_SELECTION]. *)
Inductive panelMessage : Type :=
  | StreamUpdate (text : jsstring)
  | StreamDone
  | ToolStatusUpdate (tool : string)
  | RequestToolApproval (calls : list call)
  | PrefillSelection (text : jsstring).

(** The variables of the side panel: [chatHistory],
    [streamingAccumulator] and [pendingUserText] ([None] for [null]). *)
Record panel : Type := PanelState {
  chatHistory : list message;
  streamingAccumulator : jsstring;
  pendingUserText : option jsstring
}.

(** [chatHistory.slice(-8)]. *)
Definition lastEight (history : list message) : list message :=
  drop (length history - 8) history.

(** The message that carries the page context, when the content script
    answered with one; [json] is [JSON.stringify(ctx)]. *)
Definition contextMessage (json : jsstring) : message :=
  Message false
    (lit "Page context (may be partial or outdated):" ++ newline ++ json).

(** [send()]: the new state, and the [messages] of the [ASK_GEMINI]
    payload if one is sent.  [input] is the value of the input field and
    [context] the page context, if any was collected. *)
Definition send (input : jsstring) (context : option jsstring) (p : panel)
  : panel * option (list message) :=
  let text := Extract.trim input in
  if bool_decide (text = []) then (p, None)
  else
    let messages := lastEight (chatHistory p) ++ [Message false text] in
    let withContext := match context with
                       | Some json => [contextMessage json]
                       | None => []
                       end in
    (PanelState (chatHistory p) (streamingAccumulator p) (Some text),
     Some (withContext ++ messages)).

(** The listener of [chrome.runtime.onMessage], as far as the variables
    go. *)
Definition receive (p : panel) (msg : panelMessage) : panel :=
  match msg with
  | StreamUpdate text =>
      PanelState (chatHistory p) (streamingAccumulator p ++ text)
        (pendingUserText p)
  | StreamDone =>
      let withUser :=
        match pendingUserText p with
        | Some ((_ :: _) as text) => chatHistory p ++ [Message false text]
        | _ => chatHistory p
        end in
      let withAnswer :=
        match streamingAccumulator p with
        | [] => withUser
        | answer => withUser ++ [Message true answer]
        end in
      PanelState withAnswer [] None
  | _ => p
  end.

(** What happens at the side panel: the user sends the input, or a message
    of the background arrives. *)
Inductive happening : Type :=
  | Sends (input : jsstring) (context : option jsstring)
  | Arrives (msg : panelMessage).

Definition step (p : panel) (h : happening) : panel :=
  match h with
  | Sends input context => (send input context p).1
  | Arrives msg => receive p msg
  end.

(** What a happening sends to the background. *)
Definition asked (p : panel) (h : happening) : option (list message) :=
  match h with
  | Sends input context => (send input context p).2
  | Arrives _ => None
  end.

(** *** The router *)

(** What the side panel gets to see of what the driver does. *)
Definition toPanel (e : event) : option panelMessage :=
  match e with
  | EStream text => Some (StreamUpdate (lit text))
  | EToolStatus tool => Some (ToolStatusUpdate tool)
  | EApprovalRequest calls => Some (RequestToolApproval calls)
  | _ => None
  end.

(** The end of the case [ASK_GEMINI]: the error, or the text, and
    [STREAM_DONE].  The case has no [try]: when the session throws, the
    handler stops there and nothing more is sent. *)
Definition report (result : outcome) : list panelMessage :=
  match result with
  | Failure f => [StreamUpdate (lit "Error: " ++ failureMessage f); StreamDone]
  | Answer text _ => [StreamUpdate text; StreamDone]
  | Thrown => []
  end.

(** The case [ASK_GEMINI] of the router, for the tab it determined if
    any: everything the side panel is sent. *)
Definition askGemini (W : world) (P : platform) (S0 : settings)
    (messages : list message) (configRounds : option Z) (tabId : option nat)
    (c : counters) : list panelMessage :=
  match tabId with
  | None =>
      [StreamUpdate
         (lit "Error: Could not determine active tab for tool execution.");
       StreamDone]
  | Some tab =>
      let out := generateWithToolsLoop W P S0 messages configRounds tab c in
      omap toPanel out.2 ++ report out.1.1
  end.

(** The texts streamed, in order. *)
Definition streamText (msg : panelMessage) : option jsstring :=
  match msg with
  | StreamUpdate text => Some text
  | _ => None
  end.

Definition spoken (msgs : list panelMessage) : jsstring :=
  concat (omap streamText msgs).

(** The notices of a session. *)
Definition noticeOf (e : event) : option jsstring :=
  match e with
  | EStream text => Some (lit text)
  | _ => None
  end.

Definition freshPanel : panel := PanelState [] [] None.

(** The preferred backend answers 500 four times; the request after
    those is answered 200 with a page that is not JSON. *)
Definition garbledWorld : world :=
  World (λ i, if i <? 4
              then Responded (Response 500 (lit "INTERNAL") NotJson)
              else Responded (Response 200 (lit "<html>") NotJson))
    (λ _, 0%Z) (λ _, Declined) (λ _, ToolOutcome Truncate.TNull None).

End Panel.

(** ** The tools: what is declared to the model and who handles it

    The declarations [getToolDeclarations] hands to the model, the names
    [executeTool] of the background keeps for itself ([BACKGROUND_TOOLS]),
    and the cases of the two [switch] statements that handle a call:
    [handleBackgroundTool] in the background and [executeTool] in the
    content script, each with the arguments it reads. *)

Module Tools.

(** A function declaration: its name, the properties of its parameters and
    the required ones. *)
Record declaration : Type := Declaration {
  d_name : string;
  d_properties : list string;
  d_required : list string
}.

Definition declarations : list declaration :=
  [Declaration "scrollTo" ["y"] ["y"];
   Declaration "clickSelector" ["selector"] ["selector"];
   Declaration "fillSelector" ["selector"; "value"] ["selector"; "value"];
   Declaration "extractText" ["selector"; "scroll"] [];
   Declaration "autoExtractAfterNavigation" ["userQuery"; "method"] ["userQuery"];
   Declaration "getAllContent" ["method"] [];
   Declaration "navigate" ["url"] ["url"];
   Declaration "waitForSelector" ["selector"; "timeoutMs"] ["selector"];
   Declaration "clickLinkByText" ["text"] ["text"];
   Declaration "pressKey" ["key"; "ctrl"; "meta"; "alt"; "shift"] ["key"];
   Declaration "focusSelector" ["selector"] ["selector"];
   Declaration "selectOption" ["selector"; "value"; "label"] ["selector"];
   Declaration "insertText" ["text"] ["text"];
   Declaration "getLinksOnPage" [] [];
   Declaration "getSearchResults" [] [];
   Declaration "clickSearchResultByDomain" ["domain"] ["domain"];
   Declaration "openNewTab" ["url"] ["url"];
   Declaration "closeCurrentTab" [] [];
   Declaration "switchToTabByTitle" ["query"] ["query"];
   Declaration "searchWeb" ["query"; "engine"] ["query"];
   Declaration "listOpenTabs" [] [];
   Declaration "gdocsCreateDocument" [] [];
   Declaration "gdocsInsertText" ["text"] ["text"];
   Declaration "gdocsBoldSelection" [] [];
   Declaration "gsheetsCreateSpreadsheet" [] [];
   Declaration "gsheetsSetCell" ["value"; "a1"] ["value"]].

Definition BACKGROUND_TOOLS : list string :=
  ["openNewTab"; "closeCurrentTab"; "switchToTabByTitle"; "searchWeb";
   "listOpenTabs"; "gdocsCreateDocument"; "gsheetsCreateSpreadsheet"].

(** The cases of [handleBackgroundTool], each with the properties of
    [args] it reads. *)
Definition backgroundCases : list (string * list string) :=
  [("openNewTab", ["url"]);
   ("closeCurrentTab", []);
   ("switchToTabByTitle", ["query"]);
   ("searchWeb", ["query"; "engine"]);
   ("listOpenTabs", []);
   ("gdocsCreateDocument", []);
   ("gsheetsCreateSpreadsheet", [])].

(** The cases of [executeTool] in the content script, each with the
    properties of [args] it reads. *)
Definition contentCases : list (string * list string) :=
  [("scrollTo", ["y"]);
   ("clickSelector", ["selector"]);
   ("fillSelector", ["selector"; "value"]);
   ("autoExtractAfterNavigation", ["userQuery"; "method"]);
   ("getAllContent", ["method"]);
   ("extractText", ["selector"; "scroll"]);
   ("navigate", ["url"]);
   ("waitForSelector", ["selector"; "timeoutMs"]);
   ("clickLinkByText", ["text"]);
   ("pressKey", ["key"]);
   ("focusSelector", ["selector"]);
   ("selectOption", ["selector"; "value"]);
   ("insertText", ["selector"; "value"]);
   ("getLinksOnPage", []);
   ("getSearchResults", []);
   ("clickSearchResultByDomain", ["domain"]);
   ("gdocsInsertText", ["text"]);
   ("gdocsBoldSelection", []);
   ("gsheetsSetCell", ["value"])].

(** The case of a [switch] for a name; [None] is its [default]. *)
Fixpoint caseOf (cases : list (string * list string)) (name : string)
  : option (list string) :=
  match cases with
  | [] => None
  | (label, reads) :: rest =>
      if String.eqb name label then Some reads else caseOf rest name
  end.

(** Where a call goes: [executeTool] of the background hands the names of
    [BACKGROUND_TOOLS] to [handleBackgroundTool] and sends every other
    call to the content script.  The result is the arguments the handler
    reads, or [None] for an answer "Unknown background tool" or "Unknown
    tool". *)
Definition handlerReads (name : string) : option (list string) :=
  if bool_decide (name ∈ BACKGROUND_TOOLS) then caseOf backgroundCases name
  else caseOf contentCases name.

Definition declaredNames : list string := map d_name declarations.

(** The handler of a declared tool is there, and reads no argument the
    declaration does not have. *)
Definition handled (d : declaration) : bool :=
  match handlerReads (d_name d) with
  | Some reads => bool_decide (reads ⊆ d_properties d)
  | None => false
  end.

End Tools.

(** ** Site permissions ([getOrigin], [ensureSitePermission]) *)

Module Permission.

(** What [ensureSitePermission] does besides changing [STATE]: it shows a
    notification and stores the permissions. *)
Inductive effect : Type :=
  | Notify (origin : string)
  | Store (permissions : gmap string bool).

(** [getOrigin(url)]; [origin] is [new URL(url).origin], [None] where
    [new URL] throws. *)
Definition getOrigin (origin : string → option string) (url : string) : string :=
  default "*" (origin url).

(** [ensureSitePermission(origin)] on [STATE.perSitePermissions]: what the
    promise resolves with, the permissions afterwards and what was done. *)
Definition ensureSitePermission (permissions : gmap string bool)
    (origin : string) : bool * gmap string bool * list effect :=
  match permissions !! origin with
  | Some true => (true, permissions, [])
  | _ =>
      (true, <[origin := true]> permissions,
       [Notify origin; Store (<[origin := true]> permissions)])
  end.

End Permission.

(** ** The scroll loop of [extractText] (content script)

    [extractText] runs its strategy ladder once, or, with [scroll], once
    per scroll position until the page stops giving new text.  The page is
    the platform's: each pass is given by the document the ladder saw and
    by the heights of the page before and after the scroll that followed. *)

Module Scroll.

Import Driver Extract Frames.

Record pass : Type := Pass {
  (** the document as the ladder of this pass saw it *)
  document : page;
  (** [document.body.scrollHeight] where the pass sets [lastScrollHeight] *)
  heightBefore : Z;
  (** [document.body.scrollHeight] where the condition of the loop reads it *)
  heightAfter : Z
}.

(** The variables of the loop. *)
Record loop : Type := Loop {
  allText : list jsstring;
  lastScrollHeight : Z;
  scrollCount : nat;
  stableScrollCount : nat
}.

Definition MAX_SCROLLS : nat := 15.
Definition MAX_STABLE_SCROLLS : nat := 4.

(** [hay.includes(needle)]. *)
Fixpoint includes (hay needle : jsstring) : bool :=
  Stream.startsWith hay needle
  || match hay with
     | [] => false
     | _ :: rest => includes rest needle
     end.

(** [currentText && !allText.some(existing =>
    existing.includes(currentText.substring(0, 100)))]. *)
Definition isNew (allText : list jsstring) (currentText : jsstring) : bool :=
  negb (bool_decide (currentText = []))
  && negb (existsb (λ existing, includes existing (take 100 currentText))
             allText).

Section Loop.

(** The three tests for ranking and list content on the text gathered
    (regular expressions), taken together; whether the caller asked for a
    selector, and for scrolling; the passes. *)
Context (target : jsstring → bool) (selector scroll : bool)
        (passAt : nat → pass).

(** The text the ladder ends with in a pass. *)
Definition currentTextAt (n : nat) : jsstring :=
  default [] (last (runningBest (document (passAt n)) selector)).

(** The body of the [do ... while] for pass [n]: the variables afterwards,
    and whether the loop goes on ([false] for the [break] and for a failed
    condition). *)
Definition iteration (n : nat) (st : loop) : loop * bool :=
  let currentText := currentTextAt n in
  let '(texts, stable) :=
    if isNew (allText st) currentText
    then (allText st ++ [currentText], 0)
    else (allText st, S (stableScrollCount st)) in
  let scrolls := scroll && (stable <? MAX_STABLE_SCROLLS) in
  let height := if scrolls then heightBefore (passAt n)
                else lastScrollHeight st in
  let count := if scrolls then S (scrollCount st) else scrollCount st in
  let fullText := join newline texts in
  let st' := Loop texts height count stable in
  if scroll && negb (bool_decide (currentText = []))
     && ((target fullText && (800 <? length fullText))
         || (4000 <? length fullText))
  then (st', false)
  else
    (st',
     scroll && (count <? MAX_SCROLLS) && (stable <? MAX_STABLE_SCROLLS)
     && ((height <? heightAfter (passAt n))%Z || (count <? 3))).

(** The loop from pass [n] on, under a bound on the number of passes:
    the variables at the end and the number of passes made. *)
Fixpoint passesFrom (fuel n : nat) (st : loop) : option (loop * nat) :=
  match fuel with
  | O => None
  | S fuel' =>
      let '(st', again) := iteration n st in
      if again then passesFrom fuel' (S n) st' else Some (st', S n)
  end.

Definition start : loop := Loop [] (-1) 0 0.

(** [extractText({ selector, scroll })]: the text it resolves with and the
    number of passes of the ladder ([None] would be a loop that the bound
    of [MAX_SCROLLS] passes cuts short). *)
Definition extractText : option (jsstring * nat) :=
  match passesFrom MAX_SCROLLS 0 start with
  | Some (st, n) =>
      Some (tidy (join newline
                    (filter (λ text, text ≠ []) (allText st))), n)
  | None => None
  end.

End Loop.

(** A page that keeps growing and shows forty new characters at every
    scroll position. *)
Definition endlessPage (n : nat) : pass :=
  let text := replicate 40 (N.of_nat (97 + n)) in
  Pass (Page text [] [] [] [] [] text) (Z.of_nat n) (Z.of_nat (S n)).

End Scroll.

(** * Properties *)

Module TruncateFacts.

Import Truncate.

(** Induction on trees that reaches the children of arrays and objects. *)
Lemma tree_nested_ind (P : tree → Prop) :
  P TUndefined → P TNull → (∀ s, P (TStr s)) → (∀ n, P (TNum n)) →
  (∀ b, P (TBool b)) →
  (∀ items, Forall P items → P (TArr items)) →
  (∀ props, Forall (λ kv, P kv.2) props → P (TObj props)) →
  ∀ t, P t.
Proof.
  intros Hu Hn Hs Hz Hb Ha Ho.
  fix IH 1. intros [ | | s | n | b | items | props].
  - exact Hu.
  - exact Hn.
  - apply Hs.
  - apply Hz.
  - apply Hb.
  - apply Ha. induction items as [|t items IHitems]; constructor.
    + apply IH.
    + exact IHitems.
  - apply Ho. induction props as [|[k t] props IHprops]; constructor.
    + apply IH.
    + exact IHprops.
Qed.

Section MapSeen.

Context {A B : Type} (f : gset loc → A → option (B * gset loc)).

Lemma mapSeen_length seen xs ys seen' :
  mapSeen f seen xs = Some (ys, seen') → length ys = length xs.
Proof.
  revert seen ys seen'. induction xs as [|x xs IH]; intros seen ys seen' H; simpl in H.
  - by inversion H.
  - destruct (f seen x) as [[y s1]|]; [|done].
    destruct (mapSeen f s1 xs) as [[ys' s2]|] eqn:E; [|done].
    inversion H; subst. simpl. f_equal. eauto.
Qed.

(** What holds of every call holds of the whole map, and [seen] only
    grows. *)
Lemma mapSeen_Forall (P : B → Prop) seen xs ys seen' :
  (∀ sn x y sn', x ∈ xs → f sn x = Some (y, sn') → P y ∧ sn ⊆ sn') →
  mapSeen f seen xs = Some (ys, seen') →
  Forall P ys ∧ seen ⊆ seen'.
Proof.
  revert seen ys seen'. induction xs as [|x xs IH]; intros seen ys seen' Hf H; simpl in H.
  - inversion H; subst. split; [constructor | done].
  - destruct (f seen x) as [[y s1]|] eqn:E1; [|done].
    destruct (mapSeen f s1 xs) as [[ys' s2]|] eqn:E2; [|done].
    inversion H; subst.
    destruct (Hf _ _ _ _ (list_elem_of_here _ _) E1) as [Hy Hs1].
    assert (Forall P ys' ∧ s1 ⊆ seen') as [Hys Hs2].
    { apply IH; [|exact E2].
      intros sn x' y' sn' Hin. apply Hf. by apply list_elem_of_further. }
    split; [by constructor | by etrans].
Qed.

Lemma mapSeen_total seen0 seen xs :
  (∀ sn x, x ∈ xs → seen0 ⊆ sn → ∃ y sn', f sn x = Some (y, sn') ∧ sn ⊆ sn') →
  seen0 ⊆ seen →
  ∃ ys seen', mapSeen f seen xs = Some (ys, seen') ∧ seen ⊆ seen'.
Proof.
  revert seen. induction xs as [|x xs IH]; intros seen Hf Hsub; simpl.
  - eauto.
  - destruct (Hf seen x (list_elem_of_here _ _) Hsub) as (y & s1 & -> & Hs1).
    destruct (IH s1) as (ys & s2 & -> & Hs2).
    + intros sn x' Hin. apply Hf. by apply list_elem_of_further.
    + set_solver.
    + exists (y :: ys), s2. split; [done | set_solver].
Qed.

(** The calls of a map follow one another. *)
Lemma mapSeen_threaded (R : gset loc → A → B → gset loc → Prop)
    seen xs ys seen' :
  (∀ sn x y sn', f sn x = Some (y, sn') → R sn x y sn') →
  mapSeen f seen xs = Some (ys, seen') → threaded R seen xs ys seen'.
Proof.
  intros Hf. revert seen ys seen'.
  induction xs as [|x xs IH]; intros seen ys seen' H; simpl in H.
  - inversion H; subst. constructor.
  - destruct (f seen x) as [[y s1]|] eqn:E1; [|done].
    destruct (mapSeen f s1 xs) as [[ys' s2]|] eqn:E2; [|done].
    inversion H; subst. econstructor; [by apply Hf|by apply IH].
Qed.

(** Without a call to nest, only the empty list is mapped. *)
Lemma mapSeen_no_call seen xs ys seen' :
  (∀ sn x, f sn x = None) → mapSeen f seen xs = Some (ys, seen') → xs = [].
Proof.
  intros Hf. destruct xs as [|x xs]; [done|]. simpl. by rewrite Hf.
Qed.

End MapSeen.

Lemma mapSeen_impl {A B} (f g : gset loc → A → option (B * gset loc))
    seen xs out :
  (∀ sn x r, x ∈ xs → f sn x = Some r → g sn x = Some r) →
  mapSeen f seen xs = Some out → mapSeen g seen xs = Some out.
Proof.
  revert seen out. induction xs as [|x xs IH]; intros seen out Hfg H; [done|].
  simpl in *. destruct (f seen x) as [[y s1]|] eqn:E1; [|done].
  rewrite (Hfg _ _ _ (list_elem_of_here _ _) E1).
  destruct (mapSeen f s1 xs) as [[ys s2]|] eqn:E2; [|done].
  rewrite (IH s1 (ys, s2)); [done| |done].
  intros sn x' r Hin. apply Hfg. by apply list_elem_of_further.
Qed.

Section Trunc.

Context (lim : limits) (h : heap).

Lemma trunc_ref_unfold fuel seen l :
  trunc lim h (S fuel) seen (VRef l) =
  if decide (l ∈ seen) then Some (TStr circular, seen)
  else match h !! l with
       | None => None
       | Some (OArr items) =>
           match mapSeen (trunc lim h fuel) ({[l]} ∪ seen)
                   (slice0 (maxArray lim) items) with
           | None => None
           | Some (out, seen') =>
               Some (TArr (closeArray lim (length items) out), seen')
           end
       | Some (OObj props) =>
           match mapSeen (onProp (trunc lim h fuel)) ({[l]} ∪ seen)
                   (slice0 (maxKeys lim) props) with
           | None => None
           | Some (out, seen') =>
               Some (TObj (closeObject lim (length props) out), seen')
           end
       end.
Proof. reflexivity. Qed.

Lemma truncString_bounded s : stringBounded lim (truncString lim s).
Proof.
  unfold truncString. destruct (Nat.ltb_spec (maxChars lim) (length s)).
  - apply sb_cut; [|lia]. unfold slice0. rewrite length_take. lia.
  - by apply sb_kept.
Qed.

Lemma closeArray_bounded len out :
  length out = len `min` maxArray lim → Forall (bounded lim) out →
  bounded lim (TArr (closeArray lim len out)).
Proof.
  intros Hlen Hout. unfold closeArray.
  destruct (Nat.ltb_spec (maxArray lim) len).
  - apply b_arr_cut; [lia|lia|done].
  - apply b_arr; [lia|done].
Qed.

Lemma closeObject_bounded len out :
  length out = len `min` maxKeys lim → Forall (λ kv, bounded lim kv.2) out →
  bounded lim (TObj (closeObject lim len out)).
Proof.
  intros Hlen Hout. unfold closeObject.
  destruct (Nat.ltb_spec (maxKeys lim) len).
  - apply b_obj_cut; [lia|lia|done].
  - apply b_obj; [lia|done].
Qed.

(** Every call of [trunc] returns a bounded tree and a larger [seen]. *)
Lemma trunc_bounded fuel : ∀ seen v t seen',
  trunc lim h fuel seen v = Some (t, seen') → seen ⊆ seen' ∧ bounded lim t.
Proof.
  induction fuel as [|fuel IH]; intros seen v t seen' H; [done|].
  destruct v as [ | | s | n | b | | l];
    try (inversion H; subst; split; [done|by constructor]).
  - inversion H; subst. split; [done|]. constructor. apply truncString_bounded.
  - inversion H; subst. split; [done|]. constructor. apply sb_function.
  - rewrite trunc_ref_unfold in H.
    destruct (decide (l ∈ seen)) as [Hin|Hin].
    { inversion H; subst. split; [done|]. constructor. apply sb_circular. }
    destruct (h !! l) as [[items|props]|] eqn:Hl; [| |done].
    + destruct (mapSeen _ _ _) as [[out sn]|] eqn:E; [|done].
      inversion H; subst.
      pose proof (mapSeen_length _ _ _ _ _ E) as Hlen.
      apply (mapSeen_Forall _ (bounded lim)) in E as [Hout Hsub].
      * split; [by apply union_subseteq in Hsub as [_ ?]|].
        apply closeArray_bounded; [|done].
        rewrite Hlen. unfold slice0. rewrite length_take. lia.
      * intros sn0 x y sn' _ Hx. apply IH in Hx. tauto.
    + destruct (mapSeen _ _ _) as [[out sn]|] eqn:E; [|done].
      inversion H; subst.
      pose proof (mapSeen_length _ _ _ _ _ E) as Hlen.
      apply (mapSeen_Forall _ (λ kv, bounded lim kv.2)) in E as [Hout Hsub].
      * split; [by apply union_subseteq in Hsub as [_ ?]|].
        apply closeObject_bounded; [|done].
        rewrite Hlen. unfold slice0. rewrite length_take. lia.
      * intros sn0 [k x] [k' y] sn' _ Hx. unfold onProp in Hx. simpl in Hx.
        destruct (trunc lim h fuel sn0 x) as [[t0 s0]|] eqn:Ex; [|done].
        inversion Hx; subst. simpl. apply IH in Ex. tauto.
Qed.

(** A result does not depend on the bound it was computed under. *)
Lemma trunc_fuel_mono fuel : ∀ fuel' seen v r,
  fuel ≤ fuel' → trunc lim h fuel seen v = Some r →
  trunc lim h fuel' seen v = Some r.
Proof.
  induction fuel as [|fuel IH]; intros fuel' seen v r Hle H; [done|].
  destruct fuel' as [|fuel']; [lia|].
  destruct v as [ | | s | n | b | | l]; try exact H.
  rewrite trunc_ref_unfold in *.
  destruct (decide (l ∈ seen)); [done|].
  destruct (h !! l) as [[items|props]|]; [| |done].
  - destruct (mapSeen (trunc lim h fuel) _ _) as [out|] eqn:E; [|done].
    apply (mapSeen_impl _ (trunc lim h fuel')) in E as ->; [done|].
    intros sn x r0 _. apply IH. lia.
  - destruct (mapSeen (onProp (trunc lim h fuel)) _ _) as [out|] eqn:E; [|done].
    apply (mapSeen_impl _ (onProp (trunc lim h fuel'))) in E as ->; [done|].
    intros sn [k x] r0 _. unfold onProp. simpl.
    destruct (trunc lim h fuel sn x) as [[t s1]|] eqn:Ex; [|done].
    by rewrite (IH fuel' sn x (t, s1) ltac:(lia) Ex).
Qed.

(** Termination: a call with more fuel than there are arrays and objects
    not yet entered returns. *)
Lemma trunc_total_from fuel : ∀ seen v,
  closedHeap h → closedValue h v → size (dom h ∖ seen) < fuel →
  ∃ t seen', trunc lim h fuel seen v = Some (t, seen') ∧ seen ⊆ seen'.
Proof.
  induction fuel as [|fuel IH]; intros seen v Hh Hv Hfuel; [lia|].
  destruct v as [ | | s | n | b | | l]; try (simpl; by eauto).
  rewrite trunc_ref_unfold.
  destruct (decide (l ∈ seen)) as [Hin|Hin]; [by eauto|].
  simpl in Hv. apply elem_of_dom in Hv as [o Hl]. rewrite Hl.
  assert (size (dom h ∖ ({[l]} ∪ seen)) < fuel) as Hless.
  { assert (dom h ∖ ({[l]} ∪ seen) ⊂ dom h ∖ seen) as Hsub.
    { apply elem_of_dom_2 in Hl. set_solver. }
    apply subset_size in Hsub. lia. }
  assert (∀ sn, {[l]} ∪ seen ⊆ sn → size (dom h ∖ sn) < fuel) as Hsn.
  { intros sn Hsub. eapply Nat.le_lt_trans; [|exact Hless].
    apply subseteq_size. set_solver. }
  pose proof (Hh l o Hl) as Ho.
  destruct o as [items|props]; simpl in Ho.
  - destruct (mapSeen_total (trunc lim h fuel) ({[l]} ∪ seen) ({[l]} ∪ seen)
                (slice0 (maxArray lim) items)) as (out & sn & -> & Hsub);
      [|done|].
    + intros sn x Hx Hsub. apply IH; [done| |by apply Hsn].
      eapply Forall_forall; [exact Ho|]. unfold slice0 in Hx.
      by eapply subseteq_take.
    + eexists _, _. split; [done|]. by apply union_subseteq in Hsub as [_ ?].
  - destruct (mapSeen_total (onProp (trunc lim h fuel)) ({[l]} ∪ seen) ({[l]} ∪ seen)
                (slice0 (maxKeys lim) props)) as (out & sn & -> & Hsub);
      [|done|].
    + intros sn [k x] Hx Hsub. unfold onProp. simpl.
      destruct (IH sn x) as (t & sn' & -> & Hsub'); [done| |by apply Hsn|by eauto].
      rewrite Forall_forall in Ho. apply (Ho (k, x)).
      unfold slice0 in Hx. by eapply subseteq_take.
    + eexists _, _. split; [done|]. by apply union_subseteq in Hsub as [_ ?].
Qed.

Lemma truncateDeep_total stack v :
  closedHeap h → closedValue h v → size h < stack →
  ∃ t, truncateDeep lim stack h v = Some t.
Proof.
  intros Hh Hv Hstack. unfold truncateDeep.
  destruct (trunc_total_from stack ∅ v Hh Hv) as (t & sn & -> & _).
  - rewrite difference_empty_L, size_dom. lia.
  - by exists t.
Qed.

(** *** What a call returns, against its argument *)

Lemma getProp_setProp {A} k (x : A) out : getProp k (setProp k x out) = Some x.
Proof.
  induction out as [|[k' y] out IH]; simpl.
  - by rewrite String.eqb_refl.
  - destruct (String.eqb k' k) eqn:E; simpl; rewrite E; done.
Qed.

Lemma setProp_others {A} k (x : A) out :
  filter (λ kv, kv.1 ≠ k) (setProp k x out) = filter (λ kv, kv.1 ≠ k) out.
Proof.
  induction out as [|[k' y] out IH]; simpl.
  - by rewrite filter_cons_False, filter_nil by (simpl; tauto).
  - destruct (String.eqb_spec k' k) as [->|Hne].
    + by rewrite !filter_cons_False by (simpl; tauto).
    + by rewrite !filter_cons_True, IH by done.
Qed.

Lemma setProp_elem {A} k (x : A) out kv :
  kv ∈ setProp k x out → kv = (k, x) ∨ kv ∈ out.
Proof.
  induction out as [|[k' y] out IH]; simpl.
  - intros ->%list_elem_of_singleton. by left.
  - destruct (String.eqb_spec k' k) as [->|Hne].
    + intros [->|Hin]%elem_of_cons; [by left|right; by right].
    + intros [->|Hin]%elem_of_cons; [right; by left|].
      destruct (IH Hin) as [?|?]; [by left|right; by right].
Qed.

Lemma setProp_length {A} k (x : A) out :
  length out ≤ length (setProp k x out) ≤ S (length out).
Proof.
  induction out as [|[k' y] out IH]; simpl; [lia|].
  destruct (String.eqb k' k); simpl; lia.
Qed.

Lemma mapSeen_onProp_threaded (g : gset loc → value → option (tree * gset loc))
    (R : gset loc → value → tree → gset loc → Prop) seen props out seen' :
  (∀ sn x y sn', g sn x = Some (y, sn') → R sn x y sn') →
  mapSeen (onProp g) seen props = Some (out, seen') →
  threaded R seen props.*2 out.*2 seen' ∧ out.*1 = props.*1.
Proof.
  intros Hg. revert seen out seen'.
  induction props as [|[k x] props IH]; intros seen out seen' H; simpl in H.
  - inversion H; subst. split; [constructor|done].
  - unfold onProp in H at 1. simpl in H.
    destruct (g seen x) as [[t s1]|] eqn:Ex; [|done].
    destruct (mapSeen _ s1 props) as [[ys s2]|] eqn:E; [|done].
    inversion H; subst. destruct (IH _ _ _ E) as [Hth Hkeys]. simpl. split.
    + econstructor; [by apply Hg|done].
    + by f_equal.
Qed.

(** Every call of [trunc] that returns has made the traversal. *)
Lemma trunc_visit fuel : ∀ seen v t seen',
  trunc lim h fuel seen v = Some (t, seen') → visit lim h seen v t seen'.
Proof.
  induction fuel as [|fuel IH]; intros seen v t seen' H; [done|].
  destruct v as [ | | s | n | b | | l];
    try (inversion H; subst; by constructor).
  - inversion H; subst. constructor. unfold cutString, truncString, slice0.
    by destruct (maxChars lim <? length s).
  - rewrite trunc_ref_unfold in H.
    destruct (decide (l ∈ seen)) as [Hin|Hin].
    { inversion H; subst. by apply visit_again. }
    destruct (h !! l) as [[items|props]|] eqn:Hl; [| |done].
    + destruct (mapSeen _ _ _) as [[out sn]|] eqn:E; [|done].
      inversion H; subst.
      eapply visit_array; [done|done| |].
      * eapply mapSeen_threaded; [|exact E]. apply IH.
      * unfold cutItems, closeArray.
        by destruct (maxArray lim <? length items).
    + destruct (mapSeen _ _ _) as [[out sn]|] eqn:E; [|done].
      inversion H; subst.
      apply (mapSeen_onProp_threaded _ (visit lim h)) in E as [Hth Hkeys];
        [|apply IH].
      eapply visit_object; [done|done|exact Hth|].
      unfold slice0 in Hkeys. rewrite <- Hkeys, zip_fst_snd.
      unfold cutProps, closeObject.
      destruct (maxKeys lim <? length props); [|done].
      split; [apply getProp_setProp|apply setProp_others].
Qed.

(** *** The nesting of a result *)

Lemma foldr_max_le {A} (g : A → nat) (l : list A) (f : nat) :
  foldr (λ x d, g x `max` d) 0 l ≤ f ↔ Forall (λ x, g x ≤ f) l.
Proof.
  induction l as [|x l IH]; simpl.
  - split; [constructor|lia].
  - rewrite Forall_cons, <- IH. lia.
Qed.

(** A result within the limits needed no more nested calls than were
    allowed: it has no marker that a second traversal would have to go
    one call deeper for. *)
Lemma trunc_nesting fuel : ∀ seen v t seen',
  trunc lim h fuel seen v = Some (t, seen') → within lim t = true →
  nesting t ≤ fuel.
Proof.
  induction fuel as [|fuel IH]; intros seen v t seen' H Hw; [done|].
  destruct v as [ | | s | n | b | | l];
    try (inversion H; subst; simpl; lia).
  rewrite trunc_ref_unfold in H.
  destruct (decide (l ∈ seen)) as [Hin|Hin]; [inversion H; subst; simpl; lia|].
  destruct (h !! l) as [[items|props]|] eqn:Hl; [| |done].
  - destruct (mapSeen _ _ _) as [[out sn]|] eqn:E; [|done].
    inversion H; subst. simpl in Hw.
    apply andb_true_iff in Hw as [Hlen Hall]. apply bool_decide_eq_true in Hlen.
    pose proof (mapSeen_length _ _ _ _ _ E) as Hout.
    unfold slice0 in Hout. rewrite length_take in Hout.
    unfold closeArray in *.
    destruct (Nat.ltb_spec (maxArray lim) (length items));
      [rewrite length_app in Hlen; simpl in Hlen; lia|].
    simpl. apply le_n_S, foldr_max_le.
    apply (mapSeen_Forall _ (λ y, within lim y = true → nesting y ≤ fuel))
      in E as [Hnest _].
    + apply Forall_forall. intros y Hy.
      apply (proj1 (Forall_forall _ _) Hnest y Hy).
      apply forallb_forall with (x := y) in Hall; [done|].
      by apply list_elem_of_In.
    + intros sn0 x y sn' _ Hx. split; [by eapply IH|].
      by apply trunc_bounded in Hx as [? _].
  - destruct (mapSeen _ _ _) as [[out sn]|] eqn:E; [|done].
    inversion H; subst. simpl in Hw.
    apply andb_true_iff in Hw as [Hlen Hall]. apply bool_decide_eq_true in Hlen.
    pose proof (mapSeen_length _ _ _ _ _ E) as Hout.
    unfold slice0 in Hout. rewrite length_take in Hout.
    assert (Forall (λ kv, within lim kv.2 = true → nesting kv.2 ≤ fuel) out)
      as Hnest.
    { apply (mapSeen_Forall _ (λ kv, within lim kv.2 = true → nesting kv.2 ≤ fuel))
        in E as [Hnest _]; [done|].
      intros sn0 [k x] [k' y] sn' _ Hx. unfold onProp in Hx. simpl in Hx.
      destruct (trunc lim h fuel sn0 x) as [[t0 s0]|] eqn:Ex; [|done].
      inversion Hx; subst. simpl. split; [by eapply IH|].
      by apply trunc_bounded in Ex as [? _]. }
    assert (0 < fuel ∨ out = []) as Hfuel.
    { destruct fuel as [|fuel']; [right|left; lia].
      pose proof (mapSeen_length _ _ _ _ _ E) as Hsame.
      apply mapSeen_no_call in E; [|done].
      rewrite E in Hsame. by destruct out. }
    clear E. simpl. apply le_n_S, foldr_max_le, Forall_forall.
    intros kv Hkv.
    assert (within lim kv.2 = true) as Hwkv.
    { apply forallb_forall with (x := kv) in Hall; [done|].
      by apply list_elem_of_In. }
    unfold closeObject in *.
    destruct (Nat.ltb_spec (maxKeys lim) (length props)) as [Hover|_].
    + apply setProp_elem in Hkv as [->|Hkv].
      * simpl. destruct Hfuel as [?| ->]; [lia|].
        simpl in Hlen, Hout. lia.
      * by apply (proj1 (Forall_forall _ _) Hnest kv Hkv).
    + by apply (proj1 (Forall_forall _ _) Hnest kv Hkv).
Qed.

End Trunc.

(** *** Truncating a value built by [alloc] *)

Lemma allocList_spec {A B C} (fa : A → heap * loc → B * (heap * loc))
    (ft : heap → nat → gset loc → B → option (C * gset loc))
    (fp : A → C) (dp : A → nat) (items : list A) :
  Forall (allocSpec fa ft fp dp) items →
  ∀ h n bs h1 n1,
    allocList fa items (h, n) = (bs, (h1, n1)) → fresh (h, n) →
    n ≤ n1 ∧ h ⊆ h1 ∧ fresh (h1, n1) ∧ length bs = length items ∧
    ∀ h2 k seen fuel,
      h1 ⊆ h2 → (∀ l, n ≤ l < n1 → l ∉ seen) →
      Forall (λ a, dp a ≤ fuel) items →
      ∃ seen', mapSeen (ft h2 fuel) seen (take k bs)
                 = Some (take k (map fp items), seen') ∧ seen ⊆ seen' ∧
               ∀ l, l ∈ seen' → l ∈ seen ∨ n ≤ l < n1.
Proof.
  induction 1 as [|a items Ha _ IH]; intros h n bs h1 n1 E Hfresh; simpl in E.
  - inversion E; subst. split_and!; [lia|done|done|done|].
    intros h2 k seen fuel _ _ _. exists seen. simpl. rewrite !take_nil. simpl.
    split; [done|]. split; [done|]. tauto.
  - destruct (fa a (h, n)) as [x [hm nm]] eqn:Ea.
    destruct (allocList fa items (hm, nm)) as [xs [he ne]] eqn:Es.
    inversion E; subst.
    destruct (Ha _ _ _ _ _ Ea Hfresh) as (Hn1 & Hh1 & Hf1 & Ht1).
    destruct (IH _ _ _ _ _ Es Hf1) as (Hn2 & Hh2 & Hf2 & Hl2 & Ht2).
    split_and!; [lia|by etrans|done|simpl; lia|].
    intros h2 k seen fuel Hsub Hseen Hfuel.
    apply Forall_cons in Hfuel as [Hfa Hfuel].
    destruct k as [|k]; simpl.
    { exists seen. split; [done|]. split; [done|]. tauto. }
    destruct (Ht1 h2 seen fuel) as (s1 & -> & Hsub1 & Hin1);
      [by etrans|intros; apply Hseen; lia|done|].
    destruct (Ht2 h2 k s1 fuel) as (s2 & -> & Hsub2 & Hin2); [done| |done|].
    { intros l Hl Hls. apply Hin1 in Hls as [Hls|Hls]; [|lia].
      revert Hls. apply Hseen. lia. }
    exists s2. split; [done|]. split; [by etrans|].
    intros l Hls. apply Hin2 in Hls as [Hls|Hls]; [|lia].
    apply Hin1 in Hls as [Hls|Hls]; [by left|right; lia].
Qed.

Section Alloc.

Context (lim : limits).

Lemma fresh_lookup h n : fresh (h, n) → h !! n = None.
Proof.
  intros Hf. apply not_elem_of_dom. intros Hin. apply Hf in Hin. simpl in Hin. lia.
Qed.

Lemma fresh_insert h n o : fresh (h, n) → fresh (<[n := o]> h, S n).
Proof.
  intros Hf l. simpl. rewrite dom_insert_L, elem_of_union, elem_of_singleton.
  intros [->|Hin]; [lia|]. apply Hf in Hin. simpl in Hin. lia.
Qed.

Lemma alloc_spec t : allocSpec alloc (trunc lim) (truncTree lim) nesting t.
Proof.
  induction t as [ | | s | z | b | items IH | props IH] using tree_nested_ind;
    try (intros h n v h1 n1 E Hfresh; inversion E; subst;
         split_and!; [lia|done|done|];
         intros h2 seen [|fuel] _ _ Hfuel; [simpl in Hfuel; lia|];
         exists seen; split; [done|]; split; [done|tauto]).
  - intros h n v h1 n1 E Hfresh. simpl in E.
    destruct (allocList alloc items (h, n)) as [xs [he ne]] eqn:Es.
    inversion E; subst.
    destruct (allocList_spec _ _ _ _ _ IH _ _ _ _ _ Es Hfresh)
      as (Hn & Hh & Hf & Hl & Ht).
    pose proof (fresh_lookup _ _ Hf) as Hnone.
    split_and!;
      [lia|etrans; [exact Hh|by apply insert_subseteq]|by apply fresh_insert|].
    intros h2 seen [|fuel] Hsub Hseen Hfuel; [simpl in Hfuel; lia|].
    simpl in Hfuel. apply le_S_n, foldr_max_le in Hfuel.
    rewrite trunc_ref_unfold.
    destruct (decide (ne ∈ seen)) as [Hin|_]; [by apply Hseen in Hin; [|lia]|].
    rewrite (lookup_weaken _ _ _ _ (lookup_insert_eq he ne (OArr xs)) Hsub).
    unfold slice0.
    destruct (Ht h2 (maxArray lim) ({[ne]} ∪ seen) fuel)
      as (s' & -> & Hsub' & Hin'); [| |done|].
    { etrans; [by apply insert_subseteq|exact Hsub]. }
    { intros l Hl'. rewrite elem_of_union, elem_of_singleton.
      intros [->|Hls]; [lia|]. revert Hls. apply Hseen. lia. }
    exists s'. simpl. rewrite Hl. split; [done|].
    split; [by apply union_subseteq in Hsub' as [_ ?]|].
    intros l Hls. apply Hin' in Hls as [Hls|Hls]; [|right; lia].
    apply elem_of_union in Hls as [Hls|Hls]; [|by left].
    apply elem_of_singleton in Hls as ->. right. lia.
  - intros h n v h1 n1 E Hfresh. simpl in E.
    destruct (allocList _ props (h, n)) as [xs [he ne]] eqn:Es.
    inversion E; subst.
    eapply (allocList_spec _ (λ h2 fuel, onProp (trunc lim h2 fuel))
              (λ kv, (kv.1, truncTree lim kv.2)) (λ kv, nesting kv.2)) in Es
      as (Hn & Hh & Hf & Hl & Ht); [|clear Es|done].
    2:{ eapply Forall_impl; [exact IH|]. intros [k t] Hkt. simpl in Hkt.
        intros h0 n0 b0 h1 n1 E0 Hfresh0. simpl in E0.
        destruct (alloc t (h0, n0)) as [x [hx nx]] eqn:Ex.
        inversion E0; subst.
        destruct (Hkt _ _ _ _ _ Ex Hfresh0) as (? & ? & ? & Hx).
        split_and!; [done..|].
        intros h2 seen fuel Hsub Hseen Hfuel.
        destruct (Hx h2 seen fuel Hsub Hseen Hfuel) as (s' & Es' & ? & ?).
        exists s'. unfold onProp. simpl. rewrite Es'. done. }
    pose proof (fresh_lookup _ _ Hf) as Hnone.
    split_and!;
      [lia|etrans; [exact Hh|by apply insert_subseteq]|by apply fresh_insert|].
    intros h2 seen [|fuel] Hsub Hseen Hfuel; [simpl in Hfuel; lia|].
    simpl in Hfuel.
    apply le_S_n, (foldr_max_le (λ kv : string * tree, nesting kv.2)) in Hfuel.
    rewrite trunc_ref_unfold.
    destruct (decide (ne ∈ seen)) as [Hin|_]; [by apply Hseen in Hin; [|lia]|].
    rewrite (lookup_weaken _ _ _ _ (lookup_insert_eq he ne (OObj xs)) Hsub).
    unfold slice0.
    destruct (Ht h2 (maxKeys lim) ({[ne]} ∪ seen) fuel)
      as (s' & -> & Hsub' & Hin'); [| |done|].
    { etrans; [by apply insert_subseteq|exact Hsub]. }
    { intros l Hl'. rewrite elem_of_union, elem_of_singleton.
      intros [->|Hls]; [lia|]. revert Hls. apply Hseen. lia. }
    exists s'. simpl. rewrite Hl. split; [done|].
    split; [by apply union_subseteq in Hsub' as [_ ?]|].
    intros l Hls. apply Hin' in Hls as [Hls|Hls]; [|right; lia].
    apply elem_of_union in Hls as [Hls|Hls]; [|by left].
    apply elem_of_singleton in Hls as ->. right. lia.
Qed.

(** On a freshly allocated tree [trunc] computes [truncTree], given the
    calls the tree needs. *)
Lemma trunc_alloc t v h n fuel :
  alloc t (∅, 0) = (v, (h, n)) → nesting t ≤ fuel →
  ∃ seen', trunc lim h fuel ∅ v = Some (truncTree lim t, seen').
Proof.
  intros E Hfuel. destruct (alloc_spec t _ _ _ _ _ E) as (_ & _ & _ & Ht).
  { intros l. simpl. rewrite dom_empty_L. set_solver. }
  destruct (Ht h ∅ fuel) as (s' & Es & _); [done|set_solver|done|].
  by exists s'.
Qed.

Lemma truncateDeep_alloc stack t v h n :
  alloc t (∅, 0) = (v, (h, n)) → nesting t ≤ stack →
  truncateDeep lim stack h v = Some (truncTree lim t).
Proof.
  intros E Hstack. destruct (trunc_alloc t v h n stack E Hstack) as [s' Es].
  unfold truncateDeep. by rewrite Es.
Qed.

(** [truncTree] gives bounded trees. *)
Lemma truncTree_is_bounded t : bounded lim (truncTree lim t).
Proof.
  destruct (alloc t (∅, 0)) as [v [h n]] eqn:E.
  destruct (trunc_alloc t v h n (nesting t) E) as [s' Es]; [done|].
  by apply trunc_bounded in Es as [_ ?].
Qed.

End Alloc.

Section Claims.

Context (lim : limits).

(** A tree within the limits is left as it is. *)
Lemma truncTree_within t : within lim t = true → truncTree lim t = t.
Proof.
  induction t as [ | | s | z | b | items IH | props IH] using tree_nested_ind;
    simpl; intros Hw; try done.
  - apply bool_decide_eq_true in Hw. unfold truncString.
    destruct (Nat.ltb_spec (maxChars lim) (length s)); [lia|done].
  - apply andb_true_iff in Hw as [Hlen Hall].
    apply bool_decide_eq_true in Hlen.
    unfold closeArray, slice0.
    destruct (Nat.ltb_spec (maxArray lim) (length items)); [lia|].
    rewrite take_ge by (rewrite length_map; lia). f_equal.
    clear Hlen H. induction IH as [|t items Ht _ IHitems]; [done|].
    simpl in Hall. apply andb_true_iff in Hall as [Hw Hall].
    simpl. f_equal; auto.
  - apply andb_true_iff in Hw as [Hlen Hall].
    apply bool_decide_eq_true in Hlen.
    unfold closeObject, slice0.
    destruct (Nat.ltb_spec (maxKeys lim) (length props)); [lia|].
    rewrite take_ge by (rewrite length_map; lia). f_equal.
    clear Hlen H. induction IH as [|[k t] props Ht _ IHprops]; [done|].
    simpl in Hall. apply andb_true_iff in Hall as [Hw Hall].
    simpl in *. f_equal; [f_equal|]; auto.
Qed.

(** *** Arrays nested deeper than the stack *)

Lemma chain_lookup n l :
  chain n !! l
  = if decide (l ≤ n)
    then Some (match l with
               | O => OArr []
               | S k => OArr [VRef k]
               end)
    else None.
Proof.
  induction n as [|n IH]; simpl.
  - destruct l as [|l]; [done|]. by rewrite lookup_singleton_ne.
  - destruct (decide (l = S n)) as [->|Hne].
    + rewrite lookup_insert_eq. by rewrite decide_True by lia.
    + rewrite lookup_insert_ne, IH by done.
      destruct (decide (l ≤ n)), (decide (l ≤ S n)); try done; lia.
Qed.

Lemma chain_closed n : closedHeap (chain n).
Proof.
  intros l o Hl. rewrite chain_lookup in Hl.
  destruct (decide (l ≤ n)) as [Hle|]; [|done]. injection Hl as <-.
  destruct l as [|k]; simpl; [constructor|].
  repeat constructor. simpl. apply elem_of_dom.
  rewrite chain_lookup, decide_True by lia. by eexists.
Qed.

(** A call for the array at [k] that may nest no more than [k] calls
    runs out of them. *)
Lemma chain_overflows n fuel : ∀ k seen,
  0 < maxArray lim → fuel ≤ k → k ≤ n → (∀ j, j ≤ k → j ∉ seen) →
  trunc lim (chain n) fuel seen (VRef k) = None.
Proof.
  induction fuel as [|fuel IH]; intros k seen Hmax Hfuel Hk Hseen; [done|].
  destruct k as [|k]; [lia|].
  rewrite trunc_ref_unfold, decide_False by (apply Hseen; lia).
  rewrite chain_lookup, decide_True by lia.
  unfold slice0. destruct (maxArray lim) as [|m]; [lia|]. simpl.
  rewrite IH; [done|lia..|].
  intros j Hj. rewrite elem_of_union, elem_of_singleton.
  intros [->|Hin]; [lia|]. revert Hin. apply Hseen. lia.
Qed.

End Claims.

(** C3, as stated: every array of the result has at most [maxArray] items
    (and every string at most [maxChars] code units, every object at most
    [maxKeys] keys).  An array of 31 numbers comes back, under the limits
    of [makeFunctionResponseParts], with 31 items: the 30 kept and the
    marker. *)
Lemma truncateDeep_exceeds_limits :
  ∃ items,
    truncateDeep responseLimits roomyStack longArrayHeap (VRef 0)
    = Some (TArr items) ∧
    length items = 31 ∧ maxArray responseLimits = 30 ∧
    within responseLimits (TArr items) = false.
Proof. eexists. vm_compute. done. Qed.

(** C3, amended: the result keeps at most [maxChars] code units of every
    string, [maxArray] items of every array and [maxKeys] keys of every
    object, and they are the first ones of the argument; where the argument
    had more, the marker with the count of what was cut is added to what
    was kept: behind the kept characters, as one more item, under the key
    [__truncated__].  Nothing else is changed but functions and arrays and
    objects met again.  This holds of the result and of what every inner
    call of [trunc] returns. *)
Theorem truncateDeep_bounded lim stack h v t :
  truncateDeep lim stack h v = Some t →
  bounded lim t ∧ (∃ seen', visit lim h ∅ v t seen') ∧
  ∀ fuel seen w r seen',
    trunc lim h fuel seen w = Some (r, seen') →
    bounded lim r ∧ visit lim h seen w r seen'.
Proof.
  unfold truncateDeep. intros H.
  destruct (trunc lim h stack ∅ v) as [[t' sn]|] eqn:E; [|done].
  inversion H; subst. split_and!.
  - by apply trunc_bounded in E as [_ ?].
  - exists sn. by apply trunc_visit in E.
  - intros fuel seen w r seen' Hw. split.
    + by apply trunc_bounded in Hw as [_ ?].
    + by apply trunc_visit in Hw.
Qed.

Lemma truncateDeep_bounded_witness :
  truncateDeep smallLimits roomyStack cyclicHeap (VRef 1) = Some smallResult ∧
  bounded smallLimits smallResult ∧
  ∃ seen', visit smallLimits cyclicHeap ∅ (VRef 1) smallResult seen'.
Proof.
  assert (truncateDeep smallLimits roomyStack cyclicHeap (VRef 1)
          = Some smallResult) as H by (vm_compute; reflexivity).
  split; [exact H|].
  destruct (truncateDeep_bounded _ _ _ _ _ H) as (Hb & Hm & _). by split.
Defined.

(** The sizes that [bounded] allows. *)
Lemma bounded_sizes lim t :
  bounded lim t →
  match t with
  | TArr items => length items ≤ maxArray lim + 1
  | TObj props => length props ≤ maxKeys lim + 1
  | TStr s =>
      length s ≤ maxChars lim ∨ s = circular ∨ s = functionPlaceholder ∨
      ∃ k, 0 < k ∧ length s = maxChars lim + length (charsMarker k)
  | _ => True
  end.
Proof.
  destruct 1 as [ | | | |s Hs| | | | ]; try done.
  - destruct Hs; [by left| |by right; left|by right; right; left].
    right; right; right. exists k. rewrite length_app. split; [done|lia].
  - lia.
  - rewrite length_app. simpl. lia.
  - lia.
  - pose proof (setProp_length truncatedKey (TStr (keysMarker k)) props). lia.
Qed.

(** C4, as stated: [truncateDeep(truncateDeep(v)) = truncateDeep(v)].  A
    string of 1501 code units is cut to 1500 and the marker "1 chars"; the
    second pass cuts that marker and appends "21 chars". *)
Lemma truncateTwice_differs :
  truncateTwice defaultLimits roomyStack ∅ (VStr longString)
  ≠ truncateDeep defaultLimits roomyStack ∅ (VStr longString).
Proof.
  intros H.
  apply (f_equal (λ o, match o with
                       | Some (TStr s) => drop 1500 s
                       | _ => []
                       end)) in H.
  vm_compute in H. discriminate H.
Qed.

(** The second pass on a first result that needs no more nested calls than
    the stack has room for. *)
Lemma truncateTwice_truncTree lim stack h v t :
  truncateDeep lim stack h v = Some t → nesting t ≤ stack →
  truncateTwice lim stack h v = Some (truncTree lim t).
Proof.
  intros H Hstack. unfold truncateTwice. rewrite H.
  destruct (alloc t (∅, 0)) as [v' [h' n']] eqn:E.
  by apply (truncateDeep_alloc lim stack t v' h' n').
Qed.

(** C4, amended: truncating twice is truncating once whenever the first
    result is within the limits.  (A first pass that cut something leaves a
    string, array or object that is over the limit by its marker, and the
    second pass cuts again.) *)
Theorem truncateTwice_within lim stack h v t :
  truncateDeep lim stack h v = Some t → within lim t = true →
  truncateTwice lim stack h v = Some t.
Proof.
  intros H Hw. rewrite (truncateTwice_truncTree lim stack h v t H).
  - by rewrite truncTree_within.
  - unfold truncateDeep in H.
    destruct (trunc lim h stack ∅ v) as [[t' sn]|] eqn:E; [|done].
    injection H as ->. by eapply trunc_nesting.
Qed.

Lemma truncateTwice_within_witness :
  truncateDeep roomyLimits roomyStack cyclicHeap (VRef 1) = Some roomyResult ∧
  within roomyLimits roomyResult = true ∧
  truncateTwice roomyLimits roomyStack cyclicHeap (VRef 1) = Some roomyResult.
Proof.
  assert (truncateDeep roomyLimits roomyStack cyclicHeap (VRef 1)
          = Some roomyResult) as H by (vm_compute; reflexivity).
  assert (within roomyLimits roomyResult = true) as Hw
    by (vm_compute; reflexivity).
  split; [exact H|]. split; [exact Hw|].
  exact (truncateTwice_within _ _ _ _ _ H Hw).
Defined.




End TruncateFacts.

Module DriverFacts.

Import Truncate Driver.

(** *** Context compression *)

(** The loop of [trimContents] keeps a suffix, and keeps it in budget. *)
Lemma trimLoop_spec maxChars older : ∀ kept,
  estimateContentChars kept ≤ maxChars →
  estimateContentChars (trimLoop maxChars older kept) ≤ maxChars ∧
  trimLoop maxChars older kept `suffix_of` reverse older ++ kept.
Proof.
  induction older as [|c older IH]; intros kept Hkept; simpl.
  - done.
  - rewrite reverse_cons, <- app_assoc. simpl.
    destruct (Nat.ltb_spec maxChars (estimateContentChars (c :: kept))) as [Hlt|Hle].
    + split; [done|]. apply suffix_app_r. by apply suffix_cons_r.
    + by apply IH.
Qed.

Lemma trimContents_spec contents maxChars :
  estimateContentChars (trimContents contents maxChars) ≤ maxChars ∧
  trimContents contents maxChars `suffix_of` contents.
Proof.
  unfold trimContents.
  destruct (Nat.leb_spec (estimateContentChars contents) maxChars) as [Hle|Hlt].
  - done.
  - destruct (trimLoop_spec maxChars (reverse contents) []) as [H1 H2].
    + unfold estimateContentChars. simpl. lia.
    + split; [done|]. by rewrite reverse_involutive, app_nil_r in H2.
Qed.

Section Compress.

Context (W : world) (S0 : settings).

Lemma summarizeHistoryText_length headContents c :
  length (summarizeHistoryText W S0 headContents c).1.1 ≤ 1200.
Proof.
  unfold summarizeHistoryText, bind.
  destruct (generateContentOnce W S0 _ _ c) as [[[text|] c1] e1];
    unfold ret; cbn [fst].
  - unfold slice0. rewrite length_take. lia.
  - vm_compute. lia.
Qed.

Lemma compressLoop_unfold contents maxChars k :
  compressLoop W S0 contents maxChars (S (S (S k))) =
  bind (summarizeHistoryText W S0
          (take (length contents - S (S (S k))) contents))
    (λ summary,
       if estimateContentChars
            (summaryEntry summary
             :: drop (length contents - S (S (S k))) contents) <=? maxChars
       then ret (summaryEntry summary
                 :: drop (length contents - S (S (S k))) contents)
       else compressLoop W S0 contents maxChars (S k)).
Proof. reflexivity. Qed.

Lemma compressLoop_spec contents maxChars : ∀ tailCount c,
  tailCount ≤ length contents `min` 8 →
  estimateContentChars (compressLoop W S0 contents maxChars tailCount c).1.1
    ≤ maxChars ∧
  compressed contents maxChars
    (compressLoop W S0 contents maxChars tailCount c).1.1.
Proof.
  intros tailCount. induction (lt_wf tailCount) as [tailCount _ IH].
  intros c Hk.
  destruct tailCount as [|[|[|k]]];
    try (simpl; split; [apply trimContents_spec|by right]).
  rewrite compressLoop_unfold. unfold bind.
  pose proof (summarizeHistoryText_length
                (take (length contents - S (S (S k))) contents) c) as Hsum.
  destruct (summarizeHistoryText W S0 _ c) as [[summary c1] e1]. simpl in Hsum.
  destruct (Nat.leb_spec
              (estimateContentChars
                 (summaryEntry summary
                  :: drop (length contents - S (S (S k))) contents))
              maxChars) as [Hle|Hlt].
  - simpl. split; [done|]. left. exists summary, (S (S (S k))).
    split; [lia|]. done.
  - specialize (IH (S k) ltac:(lia) c1 ltac:(lia)).
    destruct (compressLoop W S0 contents maxChars (S k) c1) as [[out c2] e2].
    exact IH.
Qed.

End Compress.

(** *** Retrying a fetch *)

Section Retry.

Context (W : world).

Lemma transientFailure_not_ok f : transientFailure f = true → fetchedOk f = false.
Proof.
  destruct f as [resp|]; simpl; [|done].
  intros H. apply andb_true_iff in H as [H _]. by apply negb_true_iff.
Qed.

Lemma usable_ok f : usable f = true → fetchedOk f = true.
Proof.
  destruct f as [resp|]; simpl; [|done].
  by intros [? _]%andb_true_iff.
Qed.

Lemma not_ok_not_usable f : fetchedOk f = false → usable f = false.
Proof.
  intros Hno. destruct (usable f) eqn:Hu; [|done].
  apply usable_ok in Hu. congruence.
Qed.

Lemma retryLoop_spec mdl withTools contents baseDelay left :
  ∀ attempt lastErr c,
    retried W mdl withTools contents baseDelay left attempt lastErr c
      (retryLoop W mdl withTools contents baseDelay left attempt lastErr c).
Proof.
  induction left as [|left IH]; intros attempt lastErr c; simpl.
  - exists 0. split; [lia|]. split; [intros; lia|].
    destruct lastErr; simpl.
    + split_and!; [lia|done|done|]. right.
      split_and!; [done|lia|done|done|by left].
    + split_and!; [lia|done|done|]. left.
      rewrite !Nat.add_0_r. split_and!; [lia|done|done|lia|].
      intros _. split; [done|]. intros; lia.
  - unfold bind, fetch at 1.
    assert (∀ lastErr',
      transientFailure (net W (fetches c)) = true →
      lastErr' = match net W (fetches c) with
                 | NetworkError => true
                 | Responded _ => lastErr
                 end →
      retried W mdl withTools contents baseDelay (S left) attempt lastErr c
        (let '(b, c2, e2) :=
           bind (sleepJittered W (baseDelay * 2 ^ Z.of_nat attempt))
             (λ _, retryLoop W mdl withTools contents baseDelay left
                     (S attempt) lastErr')
             (Counters (S (fetches c)) (sleeps c) (approvals c) (toolRuns c)) in
         (b, c2, [EFetch mdl withTools contents] ++ e2))) as Hretry.
    { intros lastErr' Ht Hlast.
      unfold bind, sleepJittered. cbn [fetches sleeps approvals toolRuns].
      specialize (IH (S attempt) lastErr'
                    (Counters (S (fetches c)) (S (sleeps c)) (approvals c)
                       (toolRuns c))).
      destruct (retryLoop W mdl withTools contents baseDelay left (S attempt)
                  lastErr' _) as [[r c2] e2].
      destruct IH as (n & Hn & Hfail & Hsl & Hap & Htl & Hres). simpl in *.
      exists (S n). cbn [fst snd]. split; [lia|]. split.
      { intros [|i] Hi; [by rewrite Nat.add_0_r|].
        replace (fetches c + S i) with (S (fetches c + i)) by lia.
        apply Hfail. lia. }
      split_and!; [lia|done|done|].
      destruct Hres as [(Hf & Hr & He & Hlate & Hclean)
                       |(Hleft & Hf & Hr & He & Herr)].
      - left. split_and!; [lia| | |intros; apply Hlate; lia|].
        + rewrite Hr. f_equal. lia.
        + by rewrite He.
        + intros Hall. destruct (Hclean ltac:(lia)) as [Hno Hnone].
          rewrite Hno in Hlast.
          destruct (net W (fetches c)) as [resp|] eqn:Hnet; [|done].
          split; [done|]. intros [|i] Hi.
          * rewrite Nat.add_0_r, Hnet. done.
          * replace (fetches c + S i) with (S (fetches c + i)) by lia.
            apply Hnone. lia.
      - right. split_and!; [lia|lia|done|by rewrite He|].
        destruct Herr as [Hyes|(i & Hi & Hne)].
        + rewrite Hyes in Hlast.
          destruct (net W (fetches c)) as [resp|] eqn:Hnet; [by left|].
          right. exists 0. split; [lia|]. by rewrite Nat.add_0_r.
        + right. exists (S i). split; [lia|].
          by replace (fetches c + S i) with (S (fetches c + i)) by lia. }
    destruct (net W (fetches c)) as [resp|] eqn:Hnet.
    + destruct (ok resp) eqn:Hok.
      { exists 0. split; [lia|]. split; [intros; lia|]. simpl.
        split_and!; [lia|done|done|]. left. rewrite !Nat.add_0_r, Hnet.
        split_and!; [lia|done|done| |lia]. intros _. simpl. by rewrite Hok. }
      destruct (retryable (status resp)) eqn:Hre.
      { apply Hretry; [|done]. simpl. by rewrite Hok, Hre. }
      exists 0. split; [lia|]. split; [intros; lia|]. simpl.
      split_and!; [lia|done|done|]. left. rewrite !Nat.add_0_r, Hnet.
      split_and!; [lia|done|done| |lia]. intros _. simpl. by rewrite Hok, Hre.
    + by apply Hretry.
Qed.

Lemma fetchWithRetry_spec mdl withTools contents retries baseDelay c :
  retried W mdl withTools contents baseDelay (S retries) 0 false c
    (fetchWithRetry W mdl withTools contents retries baseDelay c).
Proof. apply retryLoop_spec. Qed.

End Retry.

(** *** What a computation emits *)

Lemma emitsOnly_ret {A} Q (a : A) : emitsOnly Q (ret a).
Proof. intros c. constructor. Qed.

Lemma emitsOnly_bind {A B} Q (m : M A) (k : A → M B) :
  emitsOnly Q m → (∀ a, emitsOnly Q (k a)) → emitsOnly Q (bind m k).
Proof.
  intros Hm Hk c. unfold bind. specialize (Hm c).
  destruct (m c) as [[a c1] e1]. specialize (Hk a c1).
  destruct (k a c1) as [[b c2] e2]. simpl in *. by apply Forall_app.
Qed.

Lemma emitsOnly_emit Q e : Q e → emitsOnly Q (emit e).
Proof. intros He c. by repeat constructor. Qed.

Lemma emitsOnly_mono {A} (Q Q' : event → Prop) (m : M A) :
  (∀ e, Q e → Q' e) → emitsOnly Q m → emitsOnly Q' m.
Proof. intros HQ Hm c. eapply Forall_impl; [apply Hm|exact HQ]. Qed.

Lemma netEvent_talk models withTools contents e :
  netEvent models withTools contents e → talkEvent e.
Proof. by intros [(mdl & _ & ->)|(ms & ->)]. Qed.

Lemma netEvent_weaken models models' withTools contents e :
  models ⊆ models' →
  netEvent models withTools contents e → netEvent models' withTools contents e.
Proof.
  intros Hsub [(mdl & Hin & ->)|(ms & ->)]; [left|right]; eauto.
Qed.

Section Events.

Context (W : world) (P : platform) (S0 : settings).

Lemma backoffEvents_net mdl withTools contents baseDelay n : ∀ from sl,
  Forall (netEvent [mdl] withTools contents)
    (backoffEvents W mdl withTools contents baseDelay from sl n).
Proof.
  induction n as [|n IH]; intros from sl; simpl; [constructor|].
  constructor; [left; exists mdl; split; [apply list_elem_of_here|done]|].
  constructor; [right; eauto|]. apply IH.
Qed.

Lemma backoffEvents_fetch mdl withTools contents baseDelay from sl n :
  0 < n →
  EFetch mdl withTools contents
  ∈ backoffEvents W mdl withTools contents baseDelay from sl n.
Proof. destruct n; [lia|]. intros _. simpl. apply list_elem_of_here. Qed.

Lemma fetchWithRetry_net mdl withTools contents retries baseDelay :
  emitsOnly (netEvent [mdl] withTools contents)
    (fetchWithRetry W mdl withTools contents retries baseDelay).
Proof.
  intros c.
  destruct (fetchWithRetry_spec W mdl withTools contents retries baseDelay c)
    as (n & _ & _ & _ & _ & _ & [(_ & _ & -> & _)|(_ & _ & _ & -> & _)]).
  - apply Forall_app. split; [apply backoffEvents_net|].
    repeat constructor. exists mdl. split; [apply list_elem_of_here|done].
  - apply backoffEvents_net.
Qed.

Lemma fetchWithRetry_fetches mdl withTools contents retries baseDelay c :
  EFetch mdl withTools contents
  ∈ (fetchWithRetry W mdl withTools contents retries baseDelay c).2.
Proof.
  destruct (fetchWithRetry_spec W mdl withTools contents retries baseDelay c)
    as (n & _ & _ & _ & _ & _ & [(_ & _ & -> & _)|(-> & _ & _ & -> & _)]).
  - apply elem_of_app. right. apply list_elem_of_here.
  - apply backoffEvents_fetch. lia.
Qed.

(** Where the result of [fetchWithRetry] comes from: a response is that
    of its last fetch, no fetch before the last was answered ok, and a
    result that is not ok means no fetch of it was answered ok. *)
Lemma fetchWithRetry_outcome mdl withTools contents retries baseDelay c :
  let out := fetchWithRetry W mdl withTools contents retries baseDelay c in
  fetches c ≤ fetches out.1.2 ∧
  (fetchedOk out.1.1 = false →
   ∀ i, fetches c ≤ i < fetches out.1.2 → fetchedOk (net W i) = false) ∧
  (∀ resp, out.1.1 = Responded resp →
           fetches c < fetches out.1.2 ∧
           net W (fetches out.1.2 - 1) = Responded resp) ∧
  (∀ i, fetches c ≤ i < fetches out.1.2 - 1 → fetchedOk (net W i) = false).
Proof.
  intros out. subst out.
  destruct (fetchWithRetry_spec W mdl withTools contents retries baseDelay c)
    as (n & Hn & Hfail & _ & _ & _ & Hres).
  destruct (fetchWithRetry W mdl withTools contents retries baseDelay c)
    as [[r c1] e1]. cbn [fst snd] in *.
  assert (∀ i, fetches c ≤ i < fetches c + n → fetchedOk (net W i) = false)
    as Hearly.
  { intros i Hi. apply transientFailure_not_ok.
    replace i with (fetches c + (i - fetches c)) by lia. apply Hfail. lia. }
  destruct Hres as [(Hf & Hr & _ & _)|(_ & Hf & Hr & _)].
  - split; [lia|]. split_and!.
    + intros Hno i Hi. destruct (decide (i < fetches c + n)) as [Hlt|Hge].
      * apply Hearly. lia.
      * replace i with (fetches c + n) by lia. by rewrite <- Hr.
    + intros resp ->. split; [lia|]. rewrite Hr. f_equal. lia.
    + intros i Hi. apply Hearly. lia.
  - split; [lia|]. split_and!; [|by rewrite Hr|].
    + intros _ i Hi. apply Hearly. lia.
    + intros i Hi. apply Hearly. lia.
Qed.

(** The forced final call: only fetches without tools of the given
    contents.  It gives an answer, from the backend whose ok response, the
    last one fetched, had a body that counts; or it gives none, when no
    fetch got a usable answer: then every backend was asked, or the last
    response fetched was ok with a body that counts as false. *)
Lemma callFinal_spec contents models : ∀ c,
  Forall (netEvent models false contents) (callFinal W contents models c).2 ∧
  fetches c ≤ fetches (callFinal W contents models c).1.2 ∧
  match (callFinal W contents models c).1.1 with
  | None =>
      (∀ i, fetches c ≤ i < fetches (callFinal W contents models c).1.2 →
            usable (net W i) = false) ∧
      ((∀ mdl, mdl ∈ models →
               EFetch mdl false contents ∈ (callFinal W contents models c).2)
       ∨ (fetches c < fetches (callFinal W contents models c).1.2 ∧
          blank (net W (fetches (callFinal W contents models c).1.2 - 1))
          = true))
  | Some (json, mdl) =>
      mdl ∈ models ∧
      ∃ resp, fetches c < fetches (callFinal W contents models c).1.2 ∧
              net W (fetches (callFinal W contents models c).1.2 - 1)
              = Responded resp ∧
              ok resp = true ∧ jsonBody resp = Json json
  end.
Proof.
  induction models as [|mdl rest IH]; intros c.
  - simpl. split; [constructor|]. split; [lia|]. split; [intros; lia|].
    left. intros mdl Hin. by apply elem_of_nil in Hin.
  - cbn [callFinal]. unfold bind.
    pose proof (fetchWithRetry_outcome mdl false contents 1 500 c)
      as (Hle & Hbad & Hgood & Hearly).
    pose proof (fetchWithRetry_net mdl false contents 1 500 c) as Hnet.
    pose proof (fetchWithRetry_fetches mdl false contents 1 500 c) as Hfetch.
    destruct (fetchWithRetry W mdl false contents 1 500 c) as [[r c1] e1].
    cbn [fst snd] in *.
    assert (Forall (netEvent (mdl :: rest) false contents) e1) as Hnet'.
    { eapply Forall_impl; [exact Hnet|]. intros e.
      apply netEvent_weaken. set_solver. }
    assert (usable r = false →
            ∀ i, fetches c ≤ i < fetches c1 → usable (net W i) = false)
      as Hunusable.
    { intros Hno i Hi. destruct (decide (i < fetches c1 - 1)) as [Hlt|Hge].
      - apply not_ok_not_usable, Hearly. lia.
      - destruct r as [resp|].
        + destruct (Hgood resp eq_refl) as [_ Hlast].
          replace i with (fetches c1 - 1) by lia. by rewrite Hlast.
        + apply not_ok_not_usable, Hbad; [done|lia]. }
    assert (∀ out : option (list content * string) * counters * list event,
      out = callFinal W contents rest c1 → usable r = false →
      Forall (netEvent (mdl :: rest) false contents) (e1 ++ out.2) ∧
      fetches c ≤ fetches out.1.2 ∧
      match out.1.1 with
      | None =>
          (∀ i, fetches c ≤ i < fetches out.1.2 → usable (net W i) = false) ∧
          ((∀ m, m ∈ mdl :: rest → EFetch m false contents ∈ e1 ++ out.2)
           ∨ (fetches c < fetches out.1.2 ∧
              blank (net W (fetches out.1.2 - 1)) = true))
      | Some (json, m) =>
          m ∈ mdl :: rest ∧
          ∃ resp, fetches c < fetches out.1.2 ∧
                  net W (fetches out.1.2 - 1) = Responded resp ∧
                  ok resp = true ∧ jsonBody resp = Json json
      end) as Hrest.
    { intros out -> Hno. destruct (IH c1) as (Hev & Hle2 & Hout).
      split.
      { apply Forall_app. split; [done|]. eapply Forall_impl; [exact Hev|].
        intros e. apply netEvent_weaken. set_solver. }
      split; [lia|].
      destruct ((callFinal W contents rest c1).1.1) as [[json m]|].
      - destruct Hout as (Hin & resp & ? & ? & ? & ?).
        split; [by apply list_elem_of_further|]. exists resp.
        split_and!; [lia|done..].
      - destruct Hout as [Hall Hasked]. split.
        + intros i Hi. destruct (decide (i < fetches c1)).
          * apply Hunusable; [done|lia].
          * apply Hall. lia.
        + destruct Hasked as [Hasked|[Hlt Hblank]]; [left|right; split; [lia|done]].
          intros m Hm. apply elem_of_app. apply elem_of_cons in Hm as [->|Hm].
          * by left.
          * right. by apply Hasked. }
    destruct r as [resp|].
    + destruct (ok resp) eqn:Hok.
      * destruct (Hgood resp eq_refl) as [Hlt Hlast].
        destruct (jsonBody resp) as [ | | |cands] eqn:Hbody.
        -- assert (usable (Responded resp) = false) as Hno
             by (simpl; by rewrite Hok, Hbody).
           specialize (Hrest _ eq_refl Hno).
           destruct (callFinal W contents rest c1) as [[o c2] e2]. exact Hrest.
        -- unfold ret. cbn [fst snd]. rewrite app_nil_r.
           split; [done|]. split; [lia|]. split.
           ++ apply Hunusable. simpl. by rewrite Hok, Hbody.
           ++ right. split; [done|]. rewrite Hlast. simpl. by rewrite Hok, Hbody.
        -- unfold ret. cbn [fst snd]. rewrite app_nil_r.
           split; [done|]. split; [lia|]. split.
           ++ apply Hunusable. simpl. by rewrite Hok, Hbody.
           ++ right. split; [done|]. rewrite Hlast. simpl. by rewrite Hok, Hbody.
        -- unfold ret. cbn [fst snd]. rewrite app_nil_r.
           split; [done|]. split; [lia|].
           split; [apply list_elem_of_here|]. by exists resp.
      * assert (usable (Responded resp) = false) as Hno
          by (simpl; by rewrite Hok).
        specialize (Hrest _ eq_refl Hno).
        destruct (callFinal W contents rest c1) as [[o c2] e2]. exact Hrest.
    + specialize (Hrest _ eq_refl eq_refl).
      destruct (callFinal W contents rest c1) as [[o c2] e2]. exact Hrest.
Qed.

(** The model call of a round as a whole: an answer, a body that counts as
    false and a body that is not JSON are those of the ok response of its
    last fetch; a rejection is the response of its last fetch, failing with
    a status other than 500; and with no backend left, every backend was
    asked and no fetch was answered ok. *)
Lemma callModel_spec contents models : ∀ c,
  fetches c ≤ fetches (callModel W contents models c).1.2 ∧
  match (callModel W contents models c).1.1 with
  | Got json mdl =>
      mdl ∈ models ∧
      ∃ resp, fetches c < fetches (callModel W contents models c).1.2 ∧
              net W (fetches (callModel W contents models c).1.2 - 1)
              = Responded resp ∧
              ok resp = true ∧ jsonBody resp = Json json
  | Blank =>
      ∃ resp, fetches c < fetches (callModel W contents models c).1.2 ∧
              net W (fetches (callModel W contents models c).1.2 - 1)
              = Responded resp ∧
              ok resp = true ∧
              (jsonBody resp = JsonNull ∨ jsonBody resp = JsonFalsy)
  | Unreadable =>
      ∃ resp, fetches c < fetches (callModel W contents models c).1.2 ∧
              net W (fetches (callModel W contents models c).1.2 - 1)
              = Responded resp ∧
              ok resp = true ∧ jsonBody resp = NotJson
  | Rejected st text =>
      ∃ resp, fetches c < fetches (callModel W contents models c).1.2 ∧
              net W (fetches (callModel W contents models c).1.2 - 1)
              = Responded resp ∧
              ok resp = false ∧ status resp ≠ 500%Z ∧
              st = status resp ∧ text = bodyText resp
  | NoneLeft =>
      (∀ i, fetches c ≤ i < fetches (callModel W contents models c).1.2 →
            fetchedOk (net W i) = false) ∧
      (∀ mdl, mdl ∈ models →
              EFetch mdl true contents ∈ (callModel W contents models c).2)
  end.
Proof.
  induction models as [|mdl rest IH]; intros c.
  - simpl. split; [lia|]. split; [intros; lia|].
    intros mdl Hin. by apply elem_of_nil in Hin.
  - cbn [callModel]. unfold bind.
    pose proof (fetchWithRetry_outcome mdl true contents 2 700 c)
      as (Hle & Hbad & Hgood & _).
    pose proof (fetchWithRetry_fetches mdl true contents 2 700 c) as Hfetch.
    destruct (fetchWithRetry W mdl true contents 2 700 c) as [[r c1] e1].
    cbn [fst snd] in *.
    assert (∀ notice (out : modelReply * counters * list event),
      out = callModel W contents rest c1 → fetchedOk r = false →
      fetches c ≤ fetches out.1.2 ∧
      match out.1.1 with
      | Got json m =>
          m ∈ mdl :: rest ∧
          ∃ resp, fetches c < fetches out.1.2 ∧
                  net W (fetches out.1.2 - 1) = Responded resp ∧
                  ok resp = true ∧ jsonBody resp = Json json
      | Blank =>
          ∃ resp, fetches c < fetches out.1.2 ∧
                  net W (fetches out.1.2 - 1) = Responded resp ∧
                  ok resp = true ∧
                  (jsonBody resp = JsonNull ∨ jsonBody resp = JsonFalsy)
      | Unreadable =>
          ∃ resp, fetches c < fetches out.1.2 ∧
                  net W (fetches out.1.2 - 1) = Responded resp ∧
                  ok resp = true ∧ jsonBody resp = NotJson
      | Rejected st text =>
          ∃ resp, fetches c < fetches out.1.2 ∧
                  net W (fetches out.1.2 - 1) = Responded resp ∧
                  ok resp = false ∧ status resp ≠ 500%Z ∧
                  st = status resp ∧ text = bodyText resp
      | NoneLeft =>
          (∀ i, fetches c ≤ i < fetches out.1.2 → fetchedOk (net W i) = false) ∧
          (∀ m, m ∈ mdl :: rest →
                EFetch m true contents ∈ e1 ++ EStream notice :: out.2)
      end) as Hrest.
    { intros notice out -> Hno. destruct (IH c1) as (Hle2 & Hout).
      split; [lia|].
      destruct ((callModel W contents rest c1).1.1) as [json m| | |st text|].
      - destruct Hout as (Hin & resp & ? & ? & ? & ?).
        split; [by apply list_elem_of_further|]. exists resp.
        split_and!; [lia|done..].
      - destruct Hout as (resp & ? & ? & ? & ?). exists resp.
        split_and!; [lia|done..].
      - destruct Hout as (resp & ? & ? & ? & ?). exists resp.
        split_and!; [lia|done..].
      - destruct Hout as (resp & ? & ? & ? & ? & ? & ?). exists resp.
        split_and!; [lia|done..].
      - destruct Hout as [Hall Hasked]. split.
        + intros i Hi. destruct (decide (i < fetches c1)).
          * apply Hbad; [done|lia].
          * apply Hall. lia.
        + intros m Hm. apply elem_of_app. apply elem_of_cons in Hm as [->|Hm].
          * by left.
          * right. apply list_elem_of_further. by apply Hasked. }
    destruct r as [resp|].
    + destruct (ok resp) eqn:Hok.
      * destruct (Hgood resp eq_refl) as [Hlt Hlast].
        unfold ret. cbn [fst snd]. split; [lia|].
        destruct (jsonBody resp) as [ | | |cands] eqn:Hbody.
        -- by exists resp.
        -- exists resp. split_and!; [done..|by left].
        -- exists resp. split_and!; [done..|by right].
        -- split; [apply list_elem_of_here|]. by exists resp.
      * destruct (Z.eqb_spec (status resp) 500) as [H500|H500].
        -- unfold emit. cbn [fst snd].
           match goal with
           | |- context [EStream ?t] => specialize (Hrest t _ eq_refl Hok)
           end.
           destruct (callModel W contents rest c1) as [[o c2] e2].
           exact Hrest.
        -- unfold ret. cbn [fst snd]. split; [lia|]. exists resp.
           destruct (Hgood resp eq_refl). done.
    + unfold emit. cbn [fst snd].
      match goal with
      | |- context [EStream ?t] => specialize (Hrest t _ eq_refl eq_refl)
      end.
      destruct (callModel W contents rest c1) as [[o c2] e2].
      exact Hrest.
Qed.

End Events.

(** *** The events of a round *)

Section Loop.

Context (W : world) (P : platform) (S0 : settings).

Lemma fetchWithRetry_talk mdl withTools contents retries baseDelay :
  emitsOnly talkEvent (fetchWithRetry W mdl withTools contents retries baseDelay).
Proof.
  eapply emitsOnly_mono; [|apply fetchWithRetry_net].
  intros e. apply netEvent_talk.
Qed.

Lemma compressIfNeeded_talk contents maxChars :
  emitsOnly talkEvent (compressIfNeeded W S0 contents maxChars).
Proof.
  assert (∀ headContents,
            emitsOnly talkEvent (summarizeHistoryText W S0 headContents)) as Hsum.
  { intros headContents. apply emitsOnly_bind.
    - apply emitsOnly_bind; [apply fetchWithRetry_talk|].
      intros [resp|]; [destruct (ok resp); [destruct (jsonBody resp)|]|];
        apply emitsOnly_ret.
    - intros [text|]; apply emitsOnly_ret. }
  unfold compressIfNeeded.
  destruct (estimateContentChars contents <=? maxChars); [apply emitsOnly_ret|].
  generalize (length contents `min` 8). intros tailCount.
  induction (lt_wf tailCount) as [tailCount _ IH].
  destruct tailCount as [|[|[|k]]]; try apply emitsOnly_ret.
  rewrite compressLoop_unfold. apply emitsOnly_bind; [apply Hsum|].
  intros summary. destruct (_ <=? maxChars); [apply emitsOnly_ret|].
  apply IH. lia.
Qed.

Lemma callModel_talk contents models :
  emitsOnly talkEvent (callModel W contents models).
Proof.
  induction models as [|mdl rest IH]; [apply emitsOnly_ret|].
  cbn [callModel]. apply emitsOnly_bind; [apply fetchWithRetry_talk|].
  intros [resp|].
  - destruct (ok resp); [apply emitsOnly_ret|].
    destruct (status resp =? 500)%Z; [|apply emitsOnly_ret].
    apply emitsOnly_bind; [by apply emitsOnly_emit|done].
  - apply emitsOnly_bind; [by apply emitsOnly_emit|done].
Qed.

Lemma callFinal_talk contents models :
  emitsOnly talkEvent (callFinal W contents models).
Proof.
  intros c. destruct (callFinal_spec W contents models c) as [H _].
  eapply Forall_impl; [exact H|]. intros e. apply netEvent_talk.
Qed.

Lemma executeCalls_events round calls : ∀ tab c,
  Forall (roundEvent round) (executeCalls W round calls tab c).2 ∧
  (calls ≠ [] → round ∈ omap toolRound (executeCalls W round calls tab c).2).
Proof.
  induction calls as [|cl rest IH]; intros tab c.
  - split; [constructor|done].
  - cbn [executeCalls]. unfold bind, emit, executeTool. cbn [fst snd].
    match goal with
    | |- context [executeCalls W round rest ?t ?c'] =>
        specialize (IH t c');
        destruct (executeCalls W round rest t c') as [[[results tabEnd] c2] e2]
    end.
    cbn [fst snd app] in *. destruct IH as [IH _]. split.
    + constructor; [exact I|]. constructor; [done|].
      rewrite app_nil_r. exact IH.
    + intros _. simpl. apply list_elem_of_here.
Qed.

Lemma executeRound_events round candidate calls contents tab counter sig c :
  Forall (roundEvent round)
    (executeRound W S0 round candidate calls contents tab counter sig c).2 ∧
  (∀ ls',
     (executeRound W S0 round candidate calls contents tab counter sig c).1.1
     = inr ls' →
     repeatCount ls' = counter ∧ lastCallSignature ls' = sig ∧
     (calls ≠ [] →
      round ∈ omap toolRound
        (executeRound W S0 round candidate calls contents tab counter sig c).2)).
Proof.
  unfold executeRound, bind, requestToolApproval.
  destruct (autoApprove S0).
  - cbn [ret fst snd negb].
    pose proof (executeCalls_events round calls tab c) as [Hev Hin].
    destruct (executeCalls W round calls tab c) as [[[results tab'] c2] e2].
    unfold ret. cbn [fst snd app] in *. rewrite app_nil_r. split; [done|].
    intros ls' [= <-]. done.
  - cbn [fst snd].
    destruct (approval W (approvals c)); cbn [negb ret].
    + match goal with
      | |- context [executeCalls W round calls tab ?c'] =>
          pose proof (executeCalls_events round calls tab c') as [Hev Hin];
          destruct (executeCalls W round calls tab c')
            as [[[results tab'] c2] e2]
      end.
      unfold ret. cbn [fst snd app] in *. rewrite app_nil_r. split.
      * by constructor.
      * intros ls' [= <-]. split_and!; [done..|].
        intros Hne. simpl. by apply Hin.
    + split; [by repeat constructor|done].
    + split; [by repeat constructor|done].
Qed.

Lemma bind_ret_l {A B} (a : A) (k : A → M B) c : bind (ret a) k c = k a c.
Proof. unfold bind, ret. by destruct (k a c) as [[b c2] e2]. Qed.

(** A round whose counter stays below the threshold. *)
Lemma afterModel_below round json usedModel contents ls c :
  (detectRepeat P (getFunctionCallsFromCandidate P (head json)) ls).1
  < repeatThreshold (getFunctionCallsFromCandidate P (head json)) →
  afterModel W P S0 round json usedModel contents ls c =
  match getFunctionCallsFromCandidate P (head json) with
  | [] => (inl (Answer (extractTextFromCandidate (head json)) usedModel), c, [])
  | _ :: _ =>
      executeRound W S0 round (head json)
        (getFunctionCallsFromCandidate P (head json)) contents
        (currentTabId ls)
        (detectRepeat P (getFunctionCallsFromCandidate P (head json)) ls).1
        (detectRepeat P (getFunctionCallsFromCandidate P (head json)) ls).2 c
  end.
Proof.
  intros Hlt. unfold afterModel.
  destruct (detectRepeat P _ ls) as [counter sig]. cbn [fst snd] in *.
  destruct (Nat.leb_spec (repeatThreshold (getFunctionCallsFromCandidate P (head json)))
              counter) as [Hle|_]; [lia|].
  rewrite bind_ret_l. by destruct (getFunctionCallsFromCandidate P (head json)).
Qed.

(** A round whose counter has reached the threshold. *)
Lemma afterModel_forced round json usedModel contents ls c :
  repeatThreshold (getFunctionCallsFromCandidate P (head json))
  ≤ (detectRepeat P (getFunctionCallsFromCandidate P (head json)) ls).1 →
  afterModel W P S0 round json usedModel contents ls c =
  let contents' :=
    contents ++ [candidateContent (head json); stopInstruction] in
  let '(final, c1, e1) := callFinal W contents' (fallbackList S0) c in
  match final with
  | Some (finalJson, finalModel) =>
      (inl (Answer (extractTextFromCandidate (head finalJson)) finalModel),
       c1, forcedNotice :: e1)
  | None =>
      match getFunctionCallsFromCandidate P (head json) with
      | [] =>
          (inl (Answer (extractTextFromCandidate (head json)) usedModel),
           c1, forcedNotice :: e1)
      | _ :: _ =>
          let '(r, c2, e2) :=
            executeRound W S0 round (head json)
              (getFunctionCallsFromCandidate P (head json)) contents'
              (currentTabId ls)
              (detectRepeat P (getFunctionCallsFromCandidate P (head json)) ls).1
              (detectRepeat P (getFunctionCallsFromCandidate P (head json)) ls).2
              c1 in
          (r, c2, forcedNotice :: e1 ++ e2)
      end
  end.
Proof.
  intros Hle. unfold afterModel.
  destruct (detectRepeat P _ ls) as [counter sig]. cbn [fst snd] in *.
  destruct (Nat.leb_spec (repeatThreshold (getFunctionCallsFromCandidate P (head json)))
              counter) as [_|Hlt]; [|lia].
  unfold bind, emit. cbn [fst snd].
  destruct (callFinal W _ (fallbackList S0) c) as [[[[finalJson finalModel]|] c1] e1];
    unfold ret; cbn [fst snd app].
  - by rewrite !app_nil_r.
  - rewrite app_nil_r.
    destruct (getFunctionCallsFromCandidate P (head json)) as [|cl rest].
    + by rewrite app_nil_r.
    + by destruct (executeRound W S0 _ _ _ _ _ _ _ c1) as [[r c2] e2].
Qed.

Lemma detectRepeat_signature calls ls :
  (detectRepeat P calls ls).2 = Some (callSignature P calls).
Proof.
  unfold detectRepeat.
  destruct (bool_decide (calls = [])); simpl; [done|].
  destruct (bool_decide_reflect
              (lastCallSignature ls = Some (callSignature P calls))); done.
Qed.

(** Every event of a round is a fetch, a sleep, a notice, or belongs to the
    execution of that round; a round that goes on has run a tool. *)
Lemma afterModel_events round json usedModel contents ls c :
  Forall (λ e, talkEvent e ∨ roundEvent round e)
    (afterModel W P S0 round json usedModel contents ls c).2 ∧
  (∀ ls',
     (afterModel W P S0 round json usedModel contents ls c).1.1 = inr ls' →
     round ∈ omap toolRound
       (afterModel W P S0 round json usedModel contents ls c).2 ∧
     repeatCount ls'
     = (detectRepeat P (getFunctionCallsFromCandidate P (head json)) ls).1 ∧
     lastCallSignature ls'
     = Some (callSignature P (getFunctionCallsFromCandidate P (head json)))).
Proof.
  destruct (Nat.le_gt_cases
              (repeatThreshold (getFunctionCallsFromCandidate P (head json)))
              (detectRepeat P (getFunctionCallsFromCandidate P (head json)) ls).1)
    as [Hle|Hlt].
  - rewrite afterModel_forced by done. cbn zeta.
    pose proof (callFinal_talk
                  (contents ++ [candidateContent (head json); stopInstruction])
                  (fallbackList S0) c) as Htalk.
    destruct (callFinal W _ (fallbackList S0) c)
      as [[[[finalJson finalModel]|] c1] e1]; cbn [fst snd] in *.
    { split; [|done]. constructor; [by left|].
      eapply Forall_impl; [exact Htalk|]. by left. }
    destruct (getFunctionCallsFromCandidate P (head json)) as [|cl rest] eqn:Hcalls.
    { split; [|done]. constructor; [by left|].
      eapply Forall_impl; [exact Htalk|]. by left. }
    match goal with
    | |- context [executeRound W S0 round ?cand ?cs ?ct ?tb ?cn ?sg c1] =>
        pose proof (executeRound_events round cand cs ct tb cn sg c1)
          as [Hev Hin];
        destruct (executeRound W S0 round cand cs ct tb cn sg c1)
          as [[r c2] e2]
    end.
    cbn [fst snd] in *. split.
    + constructor; [by left|]. apply Forall_app. split.
      * eapply Forall_impl; [exact Htalk|]. by left.
      * eapply Forall_impl; [exact Hev|]. by right.
    + intros ls' ->. destruct (Hin ls' eq_refl) as (Hc & Hs & Hr).
      split_and!; [|done|by rewrite Hs, detectRepeat_signature].
      simpl. rewrite omap_app. apply elem_of_app. right. by apply Hr.
  - rewrite afterModel_below by done.
    destruct (getFunctionCallsFromCandidate P (head json)) as [|cl rest] eqn:Hcalls.
    { split; [constructor|done]. }
    match goal with
    | |- context [executeRound W S0 round ?cand ?cs ?ct ?tb ?cn ?sg c] =>
        pose proof (executeRound_events round cand cs ct tb cn sg c)
          as [Hev Hin];
        destruct (executeRound W S0 round cand cs ct tb cn sg c)
          as [[r c2] e2]
    end.
    cbn [fst snd] in *. split.
    + eapply Forall_impl; [exact Hev|]. by right.
    + intros ls' ->. destruct (Hin ls' eq_refl) as (Hc & Hs & Hr).
      split_and!; [by apply Hr|done|by rewrite Hs, detectRepeat_signature].
Qed.

Lemma round_event_round round e k :
  talkEvent e ∨ roundEvent round e → toolRound e = Some k → k = round.
Proof. destruct e; simpl; intros [[]|H] [= <-]; done. Qed.

Lemma talk_no_round e : talkEvent e → toolRound e = None.
Proof. by destruct e. Qed.

Lemma roundBody_events round ls c :
  Forall (λ e, talkEvent e ∨ roundEvent round e)
    (roundBody W P S0 round ls c).2 ∧
  (∀ ls', (roundBody W P S0 round ls c).1.1 = inr ls' →
          round ∈ omap toolRound (roundBody W P S0 round ls c).2).
Proof.
  unfold roundBody, bind.
  pose proof (compressIfNeeded_talk (contents ls) 10000 c) as Hc.
  destruct (compressIfNeeded W S0 (contents ls) 10000 c) as [[contents c1] e1].
  pose proof (callModel_talk contents (fallbackList S0) c1) as Hm.
  destruct (callModel W contents (fallbackList S0) c1) as [[reply c2] e2].
  cbn [fst snd] in *.
  assert (Forall (λ e, talkEvent e ∨ roundEvent round e) (e1 ++ e2)) as Htalk.
  { apply Forall_app. split; (eapply Forall_impl; [eassumption|]); by left. }
  destruct reply as [json usedModel| | |st text|]; unfold ret; cbn [fst snd];
    try (rewrite app_nil_r; split; [exact Htalk|done]).
  pose proof (afterModel_events round json usedModel contents ls c2)
    as [Hev Hin].
  destruct (afterModel W P S0 round json usedModel contents ls c2)
    as [[r c3] e3].
  cbn [fst snd] in *. split.
  - rewrite app_assoc. apply Forall_app. split; [exact Htalk|exact Hev].
  - intros ls' ->. destruct (Hin ls' eq_refl) as [Hr _].
    rewrite !omap_app, !elem_of_app. by right; right.
Qed.

(** The rounds [round], ..., [round + left - 1]: no tool runs under another
    round number, and if the loop runs out, each of them has run a tool. *)
Lemma rounds_events left : ∀ round ls c,
  Forall (λ e, ∀ k, toolRound e = Some k → round ≤ k < round + left)
    (rounds W P S0 left round ls c).2 ∧
  (∀ ls', (rounds W P S0 left round ls c).1.1 = inr ls' →
          ∀ k, round ≤ k < round + left →
               k ∈ omap toolRound (rounds W P S0 left round ls c).2).
Proof.
  induction left as [|left IH]; intros round ls c.
  - simpl. split; [constructor|]. intros; lia.
  - cbn [rounds]. unfold bind.
    pose proof (roundBody_events round ls c) as [Hev Hin].
    destruct (roundBody W P S0 round ls c) as [[[res|ls1] c1] e1];
      cbn [fst snd] in *.
    + unfold ret. cbn [fst snd]. rewrite app_nil_r. split; [|done].
      eapply Forall_impl; [exact Hev|]. intros e He k Hk.
      apply (round_event_round _ _ _ He) in Hk. lia.
    + specialize (IH (S round) ls1 c1) as [IHev IHin].
      destruct (rounds W P S0 left (S round) ls1 c1) as [[r c2] e2].
      cbn [fst snd] in *. split.
      * apply Forall_app. split.
        -- eapply Forall_impl; [exact Hev|]. intros e He k Hk.
           apply (round_event_round _ _ _ He) in Hk. lia.
        -- eapply Forall_impl; [exact IHev|]. intros e He k Hk.
           apply He in Hk. lia.
      * intros ls' -> k Hk. rewrite omap_app, elem_of_app.
        destruct (decide (k = round)) as [->|Hne].
        -- left. exact (Hin ls1 eq_refl).
        -- right. apply (IHin ls' eq_refl). lia.
Qed.

Lemma toolRoundsOf_length events n :
  Forall (λ e, ∀ k, toolRound e = Some k → k < n) events →
  length (toolRoundsOf events) ≤ n.
Proof.
  intros Hall. unfold toolRoundsOf.
  trans (length (seq 0 n)); [|by rewrite length_seq].
  apply submseteq_length.
  apply NoDup_submseteq; [apply NoDup_remove_dups|].
  intros k Hk. rewrite elem_of_remove_dups in Hk.
  apply list_elem_of_omap in Hk as (e & He & Hk).
  rewrite Forall_forall in Hall. apply Hall in Hk; [|done].
  apply elem_of_seq. lia.
Qed.

Lemma fetchWithRetry_first mdl withTools contents retries baseDelay c :
  ∃ rest, (fetchWithRetry W mdl withTools contents retries baseDelay c).2
          = EFetch mdl withTools contents :: rest.
Proof.
  destruct (fetchWithRetry_spec W mdl withTools contents retries baseDelay c)
    as (n & _ & _ & _ & _ & _ & [(_ & _ & -> & _)|(-> & _ & _ & -> & _)]).
  - destruct n; simpl; by eexists.
  - simpl. by eexists.
Qed.

Lemma fallbackList_head : ∃ rest, fallbackList S0 = preferred S0 :: rest.
Proof. unfold fallbackList. simpl. by eexists. Qed.

Lemma callFinal_first contents mdl rest c :
  ∃ more, (callFinal W contents (mdl :: rest) c).2
          = EFetch mdl false contents :: more.
Proof.
  cbn [callFinal]. unfold bind.
  destruct (fetchWithRetry_first mdl false contents 1 500 c) as [more Hfirst].
  destruct (fetchWithRetry W mdl false contents 1 500 c) as [[r c1] e1].
  cbn [snd] in Hfirst. subst e1.
  destruct r as [resp|]; [destruct (ok resp); [destruct (jsonBody resp)|]|];
    try destruct (callFinal W contents rest c1) as [[o c2] e2];
    simpl; by eexists.
Qed.

(** *** A model that asks for tools every time *)

Lemma fetchWithRetry_ok mdl withTools contents retries baseDelay c :
  fetchedOk (net W (fetches c)) = true →
  fetchWithRetry W mdl withTools contents retries baseDelay c
  = (net W (fetches c),
     Counters (S (fetches c)) (sleeps c) (approvals c) (toolRuns c),
     [EFetch mdl withTools contents]).
Proof.
  intros Hok. unfold fetchWithRetry. cbn [retryLoop]. unfold bind, fetch.
  destruct (net W (fetches c)) as [resp|]; [|done]. simpl in Hok.
  by rewrite Hok.
Qed.

Lemma summarizeHistoryText_advances headContents c :
  fetches c ≤ fetches (summarizeHistoryText W S0 headContents c).1.2.
Proof.
  unfold summarizeHistoryText, generateContentOnce, bind.
  match goal with
  | |- context [fetchWithRetry W ?m ?t ?cs ?r ?d c] =>
      pose proof (fetchWithRetry_outcome W m t cs r d c) as (Hle & _);
      destruct (fetchWithRetry W m t cs r d c) as [[r0 c1] e1]
  end.
  cbn [fst snd] in *.
  destruct r0 as [resp|]; [destruct (ok resp); [destruct (jsonBody resp)|]|];
    exact Hle.
Qed.

Lemma compressIfNeeded_advances contents maxChars c :
  fetches c ≤ fetches (compressIfNeeded W S0 contents maxChars c).1.2.
Proof.
  unfold compressIfNeeded.
  destruct (estimateContentChars contents <=? maxChars); [done|].
  generalize (length contents `min` 8). intros tailCount. revert c.
  induction (lt_wf tailCount) as [tailCount _ IH]. intros c.
  destruct tailCount as [|[|[|k]]]; try done.
  rewrite compressLoop_unfold. unfold bind.
  pose proof (summarizeHistoryText_advances
                (take (length contents - S (S (S k))) contents) c) as Hsum.
  destruct (summarizeHistoryText W S0 _ c) as [[summary c1] e1].
  cbn [fst snd] in *.
  destruct (_ <=? maxChars); [exact Hsum|].
  specialize (IH (S k) ltac:(lia) c1).
  destruct (compressLoop W S0 contents maxChars (S k) c1) as [[out c2] e2].
  cbn [fst snd] in *. lia.
Qed.

Lemma executeCalls_fetches round calls : ∀ tab c,
  fetches (executeCalls W round calls tab c).1.2 = fetches c.
Proof.
  induction calls as [|cl rest IH]; intros tab c; [done|].
  cbn [executeCalls]. unfold bind, emit, executeTool. cbn [fst snd].
  match goal with
  | |- context [executeCalls W round rest ?t ?c'] =>
      specialize (IH t c');
      destruct (executeCalls W round rest t c') as [[[results tabEnd] c2] e2]
  end.
  exact IH.
Qed.

Section Plans.

Context (Hauto : autoApprove S0 = true).
Context (Htools : requestsTools W P) (Hfresh : freshPlans W P).

Lemma plan_body i :
  ∃ resp cands,
    net W i = Responded resp ∧ ok resp = true ∧ jsonBody resp = Json cands ∧
    planOf P (net W i) = getFunctionCallsFromCandidate P (head cands) ∧
    getFunctionCallsFromCandidate P (head cands) ≠ [].
Proof.
  destruct (Htools i) as [Hok Hplan].
  destruct (net W i) as [resp|]; [|done]. simpl in *.
  unfold candidates in *.
  destruct (jsonBody resp) as [ | | |cands] eqn:Hbody; try done.
  by exists resp, cands.
Qed.

Lemma executeRound_auto round candidate calls contents tab counter sig c :
  ∃ ls' c' e',
    executeRound W S0 round candidate calls contents tab counter sig c
    = (inr ls', c', e') ∧
    lastCallSignature ls' = sig ∧ fetches c' = fetches c.
Proof.
  unfold executeRound, bind, requestToolApproval. rewrite Hauto.
  unfold ret at 1. cbn [fst snd negb].
  pose proof (executeCalls_fetches round calls tab c) as Hf.
  destruct (executeCalls W round calls tab c) as [[[results tab'] c2] e2].
  unfold ret. cbn [fst snd] in *. by eexists _, _, _.
Qed.

(** A round of such a session goes on, whatever the rounds before asked
    for: the plan of the round is new. *)
Lemma roundBody_tools round ls c :
  (lastCallSignature ls = None ∨
   ∃ j, j < fetches c ∧
        lastCallSignature ls = Some (callSignature P (planOf P (net W j)))) →
  ∃ ls' c' e',
    roundBody W P S0 round ls c = (inr ls', c', e') ∧
    ∃ j, j < fetches c' ∧
         lastCallSignature ls' = Some (callSignature P (planOf P (net W j))).
Proof.
  intros Hlast. unfold roundBody, bind.
  pose proof (compressIfNeeded_advances (contents ls) 10000 c) as Hadv.
  destruct (compressIfNeeded W S0 (contents ls) 10000 c) as [[cs c1] e1].
  cbn [fst snd] in *.
  destruct (plan_body (fetches c1))
    as (resp & cands & Hnet & Hok & Hbody & Hplan & Hcalls).
  destruct fallbackList_head as [others ->]. cbn [callModel]. unfold bind.
  rewrite fetchWithRetry_ok by (by rewrite Hnet). rewrite Hnet, Hok, Hbody.
  unfold ret at 1. cbn [fst snd].
  set (c2 := Counters _ _ _ _).
  assert ((detectRepeat P (getFunctionCallsFromCandidate P (head cands)) ls)
          = (0, Some (callSignature P
                        (getFunctionCallsFromCandidate P (head cands)))))
    as Hrepeat.
  { unfold detectRepeat.
    rewrite (bool_decide_eq_false_2
               (lastCallSignature ls
                = Some (callSignature P
                          (getFunctionCallsFromCandidate P (head cands)))));
      [by rewrite andb_false_r|].
    destruct Hlast as [->|(j & Hj & ->)]; [done|].
    intros [= Hsame]. rewrite <- Hplan in Hsame.
    apply (Hfresh j (fetches c1)); [lia|done]. }
  rewrite afterModel_below.
  2:{ rewrite Hrepeat. unfold repeatThreshold. simpl.
      destruct (isLegitimateWorkflow _); lia. }
  destruct (getFunctionCallsFromCandidate P (head cands)) as [|cl rest] eqn:Hc;
    [done|].
  rewrite Hrepeat. cbn [fst snd].
  destruct (executeRound_auto round (head cands) (cl :: rest) cs
              (currentTabId ls) 0 (Some (callSignature P (cl :: rest))) c2)
    as (ls' & c' & e' & -> & Hsig & Hf).
  eexists _, _, _. split; [done|].
  exists (fetches c1). split; [rewrite Hf; simpl; lia|].
  by rewrite Hsig, Hplan.
Qed.

Lemma rounds_tools left : ∀ round ls c,
  (lastCallSignature ls = None ∨
   ∃ j, j < fetches c ∧
        lastCallSignature ls = Some (callSignature P (planOf P (net W j)))) →
  ∃ ls' c' e', rounds W P S0 left round ls c = (inr ls', c', e').
Proof.
  induction left as [|left IH]; intros round ls c Hlast.
  - by eexists _, _, _.
  - cbn [rounds]. unfold bind.
    destruct (roundBody_tools round ls c Hlast) as (ls1 & c1 & e1 & -> & Hnext).
    destruct (IH (S round) ls1 c1) as (ls' & c' & e' & ->); [by right|].
    by eexists _, _, _.
Qed.

Lemma callFinal_plan contents c :
  ∃ resp,
    net W (fetches c) = Responded resp ∧
    callFinal W contents (fallbackList S0) c
    = (Some (candidates resp, preferred S0),
       Counters (S (fetches c)) (sleeps c) (approvals c) (toolRuns c),
       [EFetch (preferred S0) false contents]).
Proof.
  destruct (plan_body (fetches c)) as (resp & cands & Hnet & Hok & Hbody & _).
  exists resp. split; [done|].
  destruct fallbackList_head as [others ->]. cbn [callFinal]. unfold bind.
  rewrite fetchWithRetry_ok by (by rewrite Hnet). rewrite Hnet, Hok.
  unfold candidates. by rewrite Hbody.
Qed.

End Plans.


(** C2: a non-empty call set with the signature of the round before
    counts one more repeat, a different signature starts again at zero, and
    the signature is remembered for the next round; the threshold is 4 when
    a workflow tool is among the calls and 2 otherwise; a counter at or over
    the threshold makes the driver ask, first of all and without tool
    declarations, for a final answer to the contents closed by the
    candidate and the instruction to stop calling tools, and below the
    threshold no fetch without tool declarations is made. *)
Theorem repeat_detection round json usedModel contents ls c :
  let calls := getFunctionCallsFromCandidate P (head json) in
  let counter := (detectRepeat P calls ls).1 in
  let out := afterModel W P S0 round json usedModel contents ls c in
  (calls ≠ [] → lastCallSignature ls = Some (callSignature P calls) →
   counter = S (repeatCount ls)) ∧
  (lastCallSignature ls ≠ Some (callSignature P calls) → counter = 0) ∧
  ((∃ cl, cl ∈ calls ∧ name cl ∈ workflowTools) → repeatThreshold calls = 4) ∧
  ((∀ cl, cl ∈ calls → name cl ∉ workflowTools) → repeatThreshold calls = 2) ∧
  (repeatThreshold calls ≤ counter →
   ∃ rest,
     out.2 = forcedNotice
             :: EFetch (preferred S0) false
                  (contents ++ [candidateContent (head json); stopInstruction])
             :: rest ∧
     Forall (λ e, ∀ mdl cs, e = EFetch mdl false cs →
                  cs = contents ++ [candidateContent (head json);
                                    stopInstruction])
       out.2) ∧
  (counter < repeatThreshold calls →
   Forall (λ e, ∀ mdl cs, e ≠ EFetch mdl false cs) out.2) ∧
  (∀ ls', out.1.1 = inr ls' →
          repeatCount ls' = counter ∧
          lastCallSignature ls' = Some (callSignature P calls)).
Proof.
  intros calls counter out. split_and!.
  - intros Hne Hsame. subst counter. unfold detectRepeat.
    rewrite (bool_decide_eq_false_2 _ Hne), (bool_decide_eq_true_2 _ Hsame).
    done.
  - intros Hdiff. subst counter. unfold detectRepeat.
    rewrite (bool_decide_eq_false_2 _ Hdiff), andb_false_r. done.
  - intros (cl & Hin & Hname). unfold repeatThreshold, isLegitimateWorkflow.
    assert (existsb (λ c0, bool_decide (name c0 ∈ workflowTools)) calls = true)
      as ->; [|done].
    apply existsb_exists. exists cl. split; [by apply list_elem_of_In|].
    by apply bool_decide_eq_true_2.
  - intros Hnone. unfold repeatThreshold, isLegitimateWorkflow.
    assert (existsb (λ c0, bool_decide (name c0 ∈ workflowTools)) calls = false)
      as ->; [|done].
    apply not_true_is_false. intros Hex.
    apply existsb_exists in Hex as (cl & Hin & Hname).
    apply bool_decide_eq_true_1 in Hname.
    by apply (Hnone cl); [apply list_elem_of_In|].
  - intros Hle. subst out. rewrite afterModel_forced by done. cbn zeta.
    destruct fallbackList_head as [others Hlist]. rewrite Hlist.
    destruct (callFinal_first
                (contents ++ [candidateContent (head json); stopInstruction])
                (preferred S0) others c) as [more Hfirst].
    pose proof (callFinal_spec W
                  (contents ++ [candidateContent (head json); stopInstruction])
                  (preferred S0 :: others) c) as (Hnet & _ & _).
    destruct (callFinal W _ (preferred S0 :: others) c)
      as [[final c1] e1]. cbn [fst snd] in *. subst e1.
    assert (∀ e2, Forall (roundEvent round) e2 →
              Forall (λ e, ∀ mdl cs, e = EFetch mdl false cs →
                       cs = contents ++ [candidateContent (head json);
                                         stopInstruction])
                (forcedNotice :: (EFetch (preferred S0) false
                    (contents ++ [candidateContent (head json);
                                  stopInstruction]) :: more) ++ e2)) as Hall.
    { intros e2 He2. constructor; [done|]. apply Forall_app. split.
      - eapply Forall_impl; [exact Hnet|].
        intros e [(mdl & _ & ->)|(ms & ->)] mdl' cs; [|done].
        by intros [= _ <-].
      - eapply Forall_impl; [exact He2|]. intros e He mdl' cs ->. done. }
    destruct final as [[finalJson finalModel]|].
    { eexists. split; [done|].
      specialize (Hall [] (Forall_nil_2 _)). by rewrite app_nil_r in Hall. }
    fold calls. destruct calls as [|cl rest] eqn:Hcalls.
    { eexists. split; [done|].
      specialize (Hall [] (Forall_nil_2 _)). by rewrite app_nil_r in Hall. }
    match goal with
    | |- context [executeRound W S0 round ?cand ?cs ?ct ?tb ?cn ?sg c1] =>
        pose proof (executeRound_events round cand cs ct tb cn sg c1)
          as [Hev _];
        destruct (executeRound W S0 round cand cs ct tb cn sg c1)
          as [[r c2] e2]
    end.
    cbn [fst snd] in *. eexists. split; [done|]. by apply Hall.
  - intros Hlt. subst out. rewrite afterModel_below by done.
    fold calls. destruct calls as [|cl rest] eqn:Hcalls; [constructor|].
    match goal with
    | |- context [executeRound W S0 round ?cand ?cs ?ct ?tb ?cn ?sg c] =>
        pose proof (executeRound_events round cand cs ct tb cn sg c)
          as [Hev _]
    end.
    eapply Forall_impl; [exact Hev|]. intros e He mdl cs ->. done.
  - intros ls' Hout.
    destruct (afterModel_events round json usedModel contents ls c) as [_ H].
    by destruct (H ls' Hout) as (_ & ? & ?).
Qed.

(** C7: under auto-approve the approval request answers true at once and
    nothing is sent; without it, a decline, or no reply within the wait,
    ends the round with the "declined" failure after the request alone: no
    tool has run. *)
Theorem approval_gate round candidate calls contents tab counter sig c :
  (autoApprove S0 = true → requestToolApproval W S0 calls c = (true, c, [])) ∧
  (autoApprove S0 = false → approval W (approvals c) ≠ Approved →
   executeRound W S0 round candidate calls contents tab counter sig c
   = (inl (Failure UserDeclined),
      Counters (fetches c) (sleeps c) (S (approvals c)) (toolRuns c),
      [EApprovalRequest calls])) ∧
  (autoApprove S0 = false → approval W (approvals c) = Approved →
   (executeRound W S0 round candidate calls contents tab counter sig c).2
   = EApprovalRequest calls
     :: (executeCalls W round calls tab
           (Counters (fetches c) (sleeps c) (S (approvals c)) (toolRuns c))).2) ∧
  failureMessage UserDeclined = lit "User declined requested actions.".
Proof.
  split_and!.
  - intros Hauto. unfold requestToolApproval. by rewrite Hauto.
  - intros Hauto Hno. unfold executeRound, bind, requestToolApproval.
    rewrite Hauto. cbn [fst snd].
    by destruct (approval W (approvals c)).
  - intros Hauto Hyes. unfold executeRound, bind, requestToolApproval.
    rewrite Hauto, Hyes. cbn [fst snd negb].
    destruct (executeCalls W round calls tab _) as [[[results tab'] c2] e2].
    unfold ret. cbn [fst snd app]. by rewrite app_nil_r.
  - done.
Qed.

(** C6, amended: the attempts against one backend are at most three
    transient failures (a 500, 503 or 504 response, a network error), each
    followed by a sleep of [700 * 2 ^ attempt] plus jitter, and then one last
    fetch or, if one of the three was a network error, the rejection without
    it; a failure that is not transient is not retried.  The call then goes
    on to the next backend after a network error or a 500, and ends with
    the API error at any other failing status, 503 and 504 included; an ok
    response ends it with what its body holds; with no backend left it has
    failed.  So, of the call as a whole: an answer is the ok response of
    its last fetch, an API error is the failing response of its last fetch
    and its status is not 500, and the call fails for want of a backend
    only when every backend was asked and no fetch was answered ok.  The
    round ends with the error "All model attempts failed" for want of a
    backend or for a body that counts as false, and with the API error as
    it is. *)
Theorem callModel_retry_fallback contents mdl rest c :
  let tried := fetchWithRetry W mdl true contents 2 700 c in
  retried W mdl true contents 700 3 0 false c tried ∧
  (transientFailure (net W (fetches c)) = false →
   tried = (net W (fetches c),
            Counters (S (fetches c)) (sleeps c) (approvals c) (toolRuns c),
            [EFetch mdl true contents])) ∧
  callModel W contents (mdl :: rest) c =
    (let next (notice : string) :=
       let '(r, c2, e2) := callModel W contents rest tried.1.2 in
       (r, c2, tried.2 ++ EStream notice :: e2) in
     match tried.1.1 with
     | Responded resp =>
         if ok resp then
           (match jsonBody resp with
            | NotJson => Unreadable
            | JsonNull | JsonFalsy => Blank
            | Json cands => Got cands mdl
            end, tried.1.2, tried.2)
         else if (status resp =? 500)%Z then
           next ("Model " +:+ mdl
                 +:+ " returned 500 INTERNAL; retrying with a fallback model...")
         else (Rejected (status resp) (bodyText resp), tried.1.2, tried.2)
     | NetworkError =>
         next ("Network error on " +:+ mdl +:+ "; trying a fallback model...")
     end) ∧
  callModel W contents [] c = (NoneLeft, c, []) ∧
  (let out := callModel W contents (mdl :: rest) c in
   match out.1.1 with
   | Got json used =>
       used ∈ mdl :: rest ∧
       ∃ resp, net W (fetches out.1.2 - 1) = Responded resp ∧
               ok resp = true ∧ jsonBody resp = Json json
   | Blank =>
       ∃ resp, net W (fetches out.1.2 - 1) = Responded resp ∧
               ok resp = true ∧
               (jsonBody resp = JsonNull ∨ jsonBody resp = JsonFalsy)
   | Unreadable =>
       ∃ resp, net W (fetches out.1.2 - 1) = Responded resp ∧
               ok resp = true ∧ jsonBody resp = NotJson
   | Rejected st text =>
       ∃ resp, net W (fetches out.1.2 - 1) = Responded resp ∧
               ok resp = false ∧ status resp ≠ 500%Z ∧
               st = status resp ∧ text = bodyText resp
   | NoneLeft =>
       (∀ i, fetches c ≤ i < fetches out.1.2 → fetchedOk (net W i) = false) ∧
       (∀ m, m ∈ mdl :: rest → EFetch m true contents ∈ out.2)
   end) ∧
  (∀ round ls,
     let compressed := compressIfNeeded W S0 (Driver.contents ls) 10000 c in
     let reply := callModel W compressed.1.1 (fallbackList S0) compressed.1.2 in
     let ended := (roundBody W P S0 round ls c).1.1 in
     match reply.1.1 with
     | NoneLeft | Blank => ended = inl (Failure AllModelsFailed)
     | Unreadable => ended = inl Thrown
     | Rejected st text => ended = inl (Failure (ApiError st text))
     | Got json used =>
         ended = (afterModel W P S0 round json used compressed.1.1 ls
                    reply.1.2).1.1
     end).
Proof.
  intros tried. split_and!.
  - apply fetchWithRetry_spec.
  - intros Hnt. subst tried. unfold fetchWithRetry. cbn [retryLoop].
    unfold bind, fetch. cbn [fst snd].
    destruct (net W (fetches c)) as [resp|]; [|done]. simpl in Hnt.
    destruct (ok resp); [done|]. simpl in Hnt. by rewrite Hnt.
  - cbn [callModel]. unfold bind. fold tried.
    destruct tried as [[r c1] e1]. cbn [fst snd].
    destruct r as [resp|].
    + destruct (ok resp).
      { unfold ret. by rewrite app_nil_r. }
      destruct (status resp =? 500)%Z.
      * unfold emit. cbn [fst snd].
        by destruct (callModel W contents rest c1) as [[r c2] e2].
      * unfold ret. by rewrite app_nil_r.
    + unfold emit. cbn [fst snd].
      by destruct (callModel W contents rest c1) as [[r c2] e2].
  - done.
  - cbn zeta. destruct (callModel_spec W contents (mdl :: rest) c) as [_ H].
    destruct ((callModel W contents (mdl :: rest) c).1.1)
      as [json used| | |st text|].
    + destruct H as (Hin & resp & _ & ? & ? & ?). eauto.
    + destruct H as (resp & _ & ? & ? & ?). exists resp. done.
    + destruct H as (resp & _ & ? & ? & ?). exists resp. done.
    + destruct H as (resp & _ & ? & ? & ? & ? & ?). exists resp. done.
    + done.
  - intros round ls. cbn zeta. unfold roundBody, bind.
    destruct (compressIfNeeded W S0 (Driver.contents ls) 10000 c)
      as [[cs c1] e1]. cbn [fst snd].
    destruct (callModel W cs (fallbackList S0) c1) as [[reply c2] e2].
    cbn [fst snd].
    destruct reply as [json used| | |st text|]; try done.
    by destruct (afterModel W P S0 round json used cs ls c2) as [[r c3] e3].
Qed.

(** C5: contents over the budget come back within it; they are either a
    labelled summary of at most 1200 code units followed by the last [k]
    messages, for a [k] over 2, or the hard trim, which drops messages from
    the oldest end and is within the budget by itself. *)
Theorem compressIfNeeded_within_budget contents maxChars c :
  maxChars < estimateContentChars contents →
  let out := (compressIfNeeded W S0 contents maxChars c).1.1 in
  estimateContentChars out ≤ maxChars ∧
  compressed contents maxChars out ∧
  estimateContentChars (trimContents contents maxChars) ≤ maxChars ∧
  trimContents contents maxChars `suffix_of` contents.
Proof.
  intros Hover out. subst out. unfold compressIfNeeded.
  destruct (Nat.leb_spec (estimateContentChars contents) maxChars); [lia|].
  destruct (compressLoop_spec W S0 contents maxChars
              (length contents `min` 8) c) as [Hle Hshape]; [done|].
  split_and!; [done|done|apply trimContents_spec..].
Qed.

Lemma compressIfNeeded_unchanged contents maxChars c :
  estimateContentChars contents ≤ maxChars →
  compressIfNeeded W S0 contents maxChars c = (contents, c, []).
Proof.
  intros Hle. unfold compressIfNeeded.
  by destruct (Nat.leb_spec (estimateContentChars contents) maxChars); [|lia].
Qed.

End Loop.



(** C6, as stated: a persistent 503 would, after the retries, send the call
    on to the alternates.  With every backend answering 503 the session
    ends with the API error after four fetches, all of the preferred
    backend; the two alternates are never asked. *)
Lemma unavailable_backend_not_switched :
  let out :=
    generateWithToolsLoop busyWorld samplePlatform initialState
      [Message false (lit "hi")] None 1 noCounts in
  fallbackList initialState
  = ["gemini-2.5-flash-lite"; "gemini-2.5-flash"; "gemini-1.5-flash"] ∧
  retryable 503 = true ∧
  out.1.1 = Failure (ApiError 503 (lit "busy")) ∧
  omap fetchedModel out.2 = replicate 4 "gemini-2.5-flash-lite".
Proof. vm_compute. done. Qed.

Lemma compressIfNeeded_within_budget_witness :
  10 < estimateContentChars sampleContents ∧
  estimateContentChars
    (compressIfNeeded offlineWorld initialState sampleContents 10 noCounts).1.1
  ≤ 10.
Proof.
  assert (10 < estimateContentChars sampleContents) as H by (vm_compute; lia).
  split; [exact H|].
  exact (proj1 (compressIfNeeded_within_budget offlineWorld initialState
                  sampleContents 10 noCounts H)).
Defined.

(** *** Sample sessions *)

(** After the fourth 500 of the preferred backend the first alternate is
    asked and its answer returned; the sleeps were 700, 1400 and 2800. *)
Example fallback_after_500 :
  let out :=
    generateWithToolsLoop recoveringWorld samplePlatform initialState
      [Message false (lit "hi")] None 1 noCounts in
  out.1.1 = Answer (lit "done") "gemini-2.5-flash" ∧
  omap fetchedModel out.2
  = replicate 4 "gemini-2.5-flash-lite" ++ ["gemini-2.5-flash"] ∧
  sleeps out.1.2 = 3.
Proof. vm_compute. done. Qed.

(** Without auto-approve, an approval request that nobody answers ends the
    session as declined; no tool has run. *)
Example unattended_session_declined :
  let out :=
    generateWithToolsLoop unattendedWorld samplePlatform
      (Settings "" false 3) [Message false (lit "hi")] None 1 noCounts in
  out.1.1 = Failure UserDeclined ∧ toolRoundsOf out.2 = [] ∧
  toolRuns out.1.2 = 0.
Proof. vm_compute. done. Qed.

(** Three rounds, each running the click; the third, being the second
    repeat, first asks for a final answer in vain, and so does the end of
    the loop: the session has failed. *)
Example stubborn_session_exhausted :
  let out :=
    generateWithToolsLoop stubbornWorld samplePlatform
      (Settings "" true 3) [Message false (lit "hi")] None 1 noCounts in
  out.1.1 = Failure RoundsExceeded ∧ toolRoundsOf out.2 = [0; 1; 2] ∧
  fetches out.1.2 = 21.
Proof. vm_compute. done. Qed.

End DriverFacts.

Module RedirectFacts.

Import Redirect.

Section Decode.

Context (parseURL : string → option url)
        (decodeURIComponent : string → option string).

(** The three forms exclude each other: their paths differ. *)
Lemma forms_disjoint u :
  (isGoogleRedirect u = true →
   isBingRedirect u = false ∧ isDuckDuckGoRedirect u = false) ∧
  (isBingRedirect u = true → isDuckDuckGoRedirect u = false).
Proof.
  unfold isGoogleRedirect, isBingRedirect, isDuckDuckGoRedirect, startsWith.
  split.
  - intros H. apply andb_true_iff in H as [_ H].
    apply String.eqb_eq in H. rewrite H. simpl. by rewrite !andb_false_r.
  - intros H. apply andb_true_iff in H as [_ H].
    apply orb_true_iff in H as [H|H]; apply String.eqb_eq in H; rewrite H;
      simpl; by rewrite andb_false_r.
Qed.

(** The function in terms of the destination the link carries: a Google or
    Bing destination is returned as it is, a DuckDuckGo destination goes
    through [decodeURIComponent] once more, and anything else is left
    alone. *)
Lemma decodeGoogleRedirect_destination href :
  decodeGoogleRedirect parseURL decodeURIComponent href =
  match parseURL href with
  | None => href
  | Some u =>
      match destination u with
      | None => href
      | Some v =>
          if isDuckDuckGoRedirect u then default href (decodeURIComponent v)
          else v
      end
  end.
Proof.
  unfold decodeGoogleRedirect, destination.
  destruct (parseURL href) as [u|]; [|done].
  destruct (forms_disjoint u) as [Hg Hb].
  destruct (isGoogleRedirect u).
  - destruct (Hg eq_refl) as [-> ->].
    by destruct (firstParam u ["q"; "url"; "u"]).
  - destruct (isBingRedirect u).
    + rewrite (Hb eq_refl). by destruct (truthyParam u "u").
    + destruct (isDuckDuckGoRedirect u); [|done].
      by destruct (truthyParam u "uddg").
Qed.

(** A link of none of the three forms, or one that does not parse, is
    returned unchanged. *)
Lemma decodeGoogleRedirect_identity href :
  match parseURL href with
  | None => True
  | Some u => destination u = None
  end →
  decodeGoogleRedirect parseURL decodeURIComponent href = href.
Proof.
  rewrite decodeGoogleRedirect_destination.
  destruct (parseURL href) as [u|]; [|done]. by intros ->.
Qed.

(** Google and Bing redirects yield their destination. *)
Lemma decodeGoogleRedirect_exact href u v :
  parseURL href = Some u → destination u = Some v →
  isDuckDuckGoRedirect u = false →
  decodeGoogleRedirect parseURL decodeURIComponent href = v.
Proof.
  intros Hu Hv Hd. by rewrite decodeGoogleRedirect_destination, Hu, Hv, Hd.
Qed.

End Decode.

(** C8 at a DuckDuckGo link: the destination [https://example.com/a%20b]
    comes back as [https://example.com/a b], decoded a second time, and a
    link to [https://example.com/100%] comes back still wrapped, the second
    decoding having thrown. *)
Lemma duckduckgo_decoded_twice :
  sampleParse wrappedHref = Some wrappedUrl ∧
  destination wrappedUrl = Some "https://example.com/a%20b" ∧
  decodeGoogleRedirect sampleParse decodeAscii wrappedHref
  = "https://example.com/a b" ∧
  destination percentUrl = Some "https://example.com/100%" ∧
  decodeGoogleRedirect sampleParse decodeAscii percentHref = percentHref.
Proof. vm_compute. done. Qed.

End RedirectFacts.

Module ExtractFacts.

Import Extract.

Lemma firstLonger_spec candidates currentText :
  firstLonger candidates currentText = currentText
  ∨ length currentText < length (firstLonger candidates currentText).
Proof.
  induction candidates as [|text rest IH]; simpl; [by left|].
  destruct (Nat.ltb_spec (length currentText) (length text)); [by right|done].
Qed.

Section Ladder.

Context (pg : page).

Ltac step :=
  repeat match goal with
         | |- context [below ?n ?t] => destruct (below n t)
         | |- context [?a <? ?b] => destruct (Nat.ltb_spec a b)
         | |- context [firstLonger ?cs ?t] => apply firstLonger_spec
         end; auto.

Lemma strategy3_longer t :
  strategy3 pg t = t ∨ length t < length (strategy3 pg t).
Proof. unfold strategy3. step. Qed.

Lemma strategy4_longer t :
  strategy4 pg t = t ∨ length t < length (strategy4 pg t).
Proof. unfold strategy4. step. Qed.

Lemma strategy5_longer t :
  strategy5 pg t = t ∨ length t < length (strategy5 pg t).
Proof. unfold strategy5. step. Qed.

Lemma strategy6_longer t :
  strategy6 pg t = t ∨ length t < length (strategy6 pg t).
Proof. unfold strategy6. step. Qed.

Lemma from_empty (t : jsstring) : t = [] ∨ length (@nil N) < length t.
Proof. destruct t; [by left|right; simpl; lia]. Qed.

(** The first six strategies of [extractText] adopt a text only if it is
    strictly longer. *)
Lemma runningBest_first_six selector :
  adoptedOnlyIfLonger (take 6 (runningBest pg selector)).
Proof.
  simpl. split_and!; try done.
  - apply from_empty.
  - apply strategy3_longer.
  - apply strategy4_longer.
  - apply strategy5_longer.
  - apply strategy6_longer.
Qed.

(** And so do all four strategies of [extractTextAllFrames]. *)
Lemma frameRunningBest_monotone selector :
  adoptedOnlyIfLonger (frameRunningBest pg selector).
Proof.
  simpl. split_and!; try done.
  - apply from_empty.
  - unfold frameStrategy2. step.
  - unfold frameStrategy3. step.
  - unfold frameStrategy4. step.
Qed.

End Ladder.

(** C9 at the sample page: the selector yields "Hi there", eight code
    units, which the strategies up to the sixth keep; the seventh sees a
    body of thirteen, drops both of its lines as too short and assigns the
    empty rest.  [extractTextAllFrames] keeps "Hi there" on the same
    page. *)
Lemma strategy7_shrinks :
  map length (runningBest samplePage true) = [0; 8; 8; 8; 8; 8; 0] ∧
  ¬ adoptedOnlyIfLonger (runningBest samplePage true) ∧
  map length (frameRunningBest samplePage true) = [0; 8; 8; 8; 8].
Proof.
  split; [by vm_compute|]. split; [|by vm_compute].
  intros H. vm_compute in H.
  destruct H as (_ & _ & _ & _ & _ & [H|H] & _); [discriminate H|lia].
Qed.

End ExtractFacts.

Module AccountingFacts.

Import Truncate Driver Accounting.

(** *** The size estimate and the hard trim *)

Lemma sumList_app l1 l2 : sumList (l1 ++ l2) = sumList l1 + sumList l2.
Proof. induction l1 as [|x l1 IH]; simpl; [done|]. rewrite IH. lia. Qed.

Lemma estimateContentChars_app a b :
  estimateContentChars (a ++ b) = estimateContentChars a + estimateContentChars b.
Proof. unfold estimateContentChars. by rewrite map_app, sumList_app. Qed.

Lemma estimateContentChars_suffix s contents :
  s `suffix_of` contents → estimateContentChars s ≤ estimateContentChars contents.
Proof. intros [k ->]. rewrite estimateContentChars_app. lia. Qed.

Lemma trimLoop_stops maxChars older : ∀ kept,
  estimateContentChars kept ≤ maxChars →
  maxChars < estimateContentChars (reverse older ++ kept) →
  ∃ before c,
    reverse older ++ kept = before ++ c :: trimLoop maxChars older kept ∧
    maxChars < estimateContentChars (c :: trimLoop maxChars older kept).
Proof.
  induction older as [|c rest IH]; intros kept Hkept Hover.
  - simpl in Hover. lia.
  - rewrite reverse_cons, <- (assoc_L (++)) in *. simpl in *.
    destruct (Nat.ltb_spec maxChars (estimateContentChars (c :: kept))).
    + by exists (reverse rest), c.
    + apply IH; [lia|done].
Qed.

(** X1: contents over the limit are trimmed to their longest suffix within
    it: the kept messages are within the limit, the message before them
    would have been too much, and every suffix of the contents that is
    within the limit is a suffix of what is kept.  (When the newest message
    alone is over the limit nothing is kept.) *)
Theorem trimContents_longest_suffix contents maxChars :
  maxChars < estimateContentChars contents →
  let kept := trimContents contents maxChars in
  estimateContentChars kept ≤ maxChars ∧
  (∃ before c, contents = before ++ c :: kept ∧
               maxChars < estimateContentChars (c :: kept)) ∧
  (∀ s, s `suffix_of` contents → estimateContentChars s ≤ maxChars →
        s `suffix_of` kept) ∧
  (∀ newest, last contents = Some newest →
             maxChars < estimateContentChars [newest] → kept = []).
Proof.
  intros Hover kept.
  assert (kept = trimLoop maxChars (reverse contents) []) as Hkept.
  { subst kept. unfold trimContents.
    by destruct (Nat.leb_spec (estimateContentChars contents) maxChars);
      [lia|]. }
  destruct (trimLoop_stops maxChars (reverse contents) []) as
    (before & c & Hsplit & Hmore).
  { unfold estimateContentChars. simpl. lia. }
  { by rewrite reverse_involutive, app_nil_r. }
  rewrite reverse_involutive, app_nil_r, <- Hkept in Hsplit.
  rewrite <- Hkept in Hmore.
  assert (∀ s, s `suffix_of` contents → estimateContentChars s ≤ maxChars →
               s `suffix_of` kept) as Hlongest.
  { intros s Hs Hfits.
    destruct (suffix_weak_total s (c :: kept) contents) as [Hin|Hout];
      [done|by exists before| |].
    - destruct s as [|x s']; [apply suffix_nil|].
      apply suffix_cons_inv in Hin as [Heq|Hin]; [|done].
      rewrite Heq in Hfits. lia.
    - apply estimateContentChars_suffix in Hout. lia. }
  split_and!.
  - apply DriverFacts.trimContents_spec.
  - by exists before, c.
  - exact Hlongest.
  - intros newest Hlast Hbig.
    destruct (decide (kept = [])) as [|Hne]; [done|].
    assert ([newest] `suffix_of` kept) as Hin.
    { apply last_is_Some in Hne as [k Hk].
      rewrite Hsplit, (last_app_cons before), last_cons, Hk in Hlast.
      injection Hlast as ->. apply last_Some in Hk as [front ->].
      by exists front. }
    apply estimateContentChars_suffix in Hin.
    pose proof (proj1 (DriverFacts.trimContents_spec contents maxChars)) as Hfit.
    fold kept in Hfit. lia.
Qed.

Lemma trimContents_longest_suffix_witness :
  10 < estimateContentChars sampleContents ∧
  estimateContentChars (trimContents sampleContents 10) ≤ 10.
Proof.
  assert (10 < estimateContentChars sampleContents) as H by (vm_compute; lia).
  split; [exact H|].
  exact (proj1 (trimContents_longest_suffix sampleContents 10 H)).
Defined.


(** *** What the size estimate leaves out *)

Lemma makeFunctionResponseParts_chars results :
  sumList (map partChars (makeFunctionResponseParts results)) = 0.
Proof. unfold makeFunctionResponseParts. by induction results. Qed.

Section Compression.

Context (W : world) (S0 : settings).

(** X2: the size estimate counts the text parts only, and adds up over
    the messages.  The function responses of a round add nothing to it,
    whatever their size: contents within the limit are still within it with
    the tool results appended, and [compressIfNeeded] hands them back as
    they are, without a request. *)
Theorem tool_results_not_estimated contents results maxChars c :
  estimateContentChars contents ≤ maxChars →
  let grown := contents ++ [Content User (makeFunctionResponseParts results)] in
  estimateContentChars grown = estimateContentChars contents ∧
  compressIfNeeded W S0 grown maxChars c = (grown, c, []) ∧
  ∀ a b, estimateContentChars (a ++ b)
         = estimateContentChars a + estimateContentChars b.
Proof.
  intros Hfits grown.
  assert (estimateContentChars grown = estimateContentChars contents) as Hsame.
  { subst grown. rewrite estimateContentChars_app.
    unfold estimateContentChars at 2. simpl.
    rewrite makeFunctionResponseParts_chars. lia. }
  split_and!; [done| |apply estimateContentChars_app].
  apply DriverFacts.compressIfNeeded_unchanged. lia.
Qed.

End Compression.

Lemma tool_results_not_estimated_witness :
  estimateContentChars sampleContents ≤ 18 ∧
  estimateContentChars
    (sampleContents ++ [Content User (makeFunctionResponseParts longResult)])
  = 18.
Proof.
  assert (estimateContentChars sampleContents ≤ 18) as H by (vm_compute; lia).
  split; [exact H|].
  rewrite (proj1 (tool_results_not_estimated offlineWorld initialState
                    sampleContents longResult 18 noCounts H)).
  reflexivity.
Defined.

(** *** Counting requests *)

Lemma costs_ret {A} (a : A) : costs 0 0 0 (ret a).
Proof. intros c. simpl. lia. Qed.

Lemma costs_bind {A B} f1 s1 a1 f2 s2 a2 (m : M A) (k : A → M B) :
  costs f1 s1 a1 m → (∀ x, costs f2 s2 a2 (k x)) →
  costs (f1 + f2) (s1 + s2) (a1 + a2) (bind m k).
Proof.
  intros Hm Hk c. unfold bind. specialize (Hm c).
  destruct (m c) as [[x c1] e1]. specialize (Hk x c1).
  destruct (k x c1) as [[y c2] e2]. simpl in *. lia.
Qed.

Lemma costs_weaken {A} f s a f' s' a' (m : M A) :
  f ≤ f' → s ≤ s' → a ≤ a' → costs f s a m → costs f' s' a' m.
Proof. intros ??? Hm c. specialize (Hm c). lia. Qed.

Lemma costs_emit e : costs 0 0 0 (emit e).
Proof. intros c. simpl. lia. Qed.

Lemma runsNoTool_ret {A} (a : A) : runsNoTool (ret a).
Proof. by intros c. Qed.

Lemma runsNoTool_bind {A B} (m : M A) (k : A → M B) :
  runsNoTool m → (∀ x, runsNoTool (k x)) → runsNoTool (bind m k).
Proof.
  intros Hm Hk c. unfold bind. specialize (Hm c).
  destruct (m c) as [[x c1] e1]. specialize (Hk x c1).
  destruct (k x c1) as [[y c2] e2]. simpl in *. congruence.
Qed.

Lemma runsNoTool_emit e : runsNoTool (emit e).
Proof. by intros c. Qed.

Section Requests.

Context (W : world) (P : platform) (S0 : settings).

Lemma fetchWithRetry_costs mdl withTools contents retries baseDelay :
  costs (retries + 2) (retries + 1) 0
    (fetchWithRetry W mdl withTools contents retries baseDelay).
Proof.
  intros c.
  destruct (DriverFacts.fetchWithRetry_spec W mdl withTools contents retries
              baseDelay c) as (n & Hn & _ & Hs & Ha & _ & Hout).
  destruct Hout as [(Hf & _)|(_ & Hf & _)]; lia.
Qed.

Lemma fetchWithRetry_runsNoTool mdl withTools contents retries baseDelay :
  runsNoTool (fetchWithRetry W mdl withTools contents retries baseDelay).
Proof.
  intros c.
  by destruct (DriverFacts.fetchWithRetry_spec W mdl withTools contents retries
                 baseDelay c) as (n & _ & _ & _ & _ & Ht & _).
Qed.

Lemma summarizeHistoryText_costs headContents :
  costs 4 3 0 (summarizeHistoryText W S0 headContents).
Proof.
  unfold summarizeHistoryText, generateContentOnce.
  apply (costs_bind 4 3 0 0 0 0).
  - apply (costs_bind 4 3 0 0 0 0); [apply (fetchWithRetry_costs _ _ _ 2)|].
    intros [resp|]; [destruct (ok resp); [destruct (jsonBody resp)|]|];
      apply costs_ret.
  - intros [text|]; apply costs_ret.
Qed.

Lemma summarizeHistoryText_runsNoTool headContents :
  runsNoTool (summarizeHistoryText W S0 headContents).
Proof.
  unfold summarizeHistoryText, generateContentOnce.
  apply runsNoTool_bind.
  - apply runsNoTool_bind; [apply fetchWithRetry_runsNoTool|].
    intros [resp|]; [destruct (ok resp); [destruct (jsonBody resp)|]|];
      apply runsNoTool_ret.
  - intros [text|]; apply runsNoTool_ret.
Qed.

Lemma summarizeHistoryText_events contents k :
  emitsOnly (summarizerEvent S0 contents)
    (summarizeHistoryText W S0 (take k contents)).
Proof.
  unfold summarizeHistoryText, generateContentOnce.
  apply DriverFacts.emitsOnly_bind.
  - apply DriverFacts.emitsOnly_bind.
    + eapply DriverFacts.emitsOnly_mono;
        [|apply DriverFacts.fetchWithRetry_net].
      intros e [(mdl & Hin & ->)|[ms ->]]; [left|right; by eexists].
      apply list_elem_of_singleton in Hin as ->. by exists k.
    + intros [resp|]; [destruct (ok resp); [destruct (jsonBody resp)|]|];
        apply DriverFacts.emitsOnly_ret.
  - intros [text|]; apply DriverFacts.emitsOnly_ret.
Qed.

(** The loop of [compressIfNeeded] that starts with at most [2 * n + 2]
    messages in the tail summarizes at most [n] times. *)
Lemma compressLoop_costs contents maxChars n : ∀ tailCount,
  tailCount ≤ 2 * n + 2 →
  costs (4 * n) (3 * n) 0 (compressLoop W S0 contents maxChars tailCount) ∧
  runsNoTool (compressLoop W S0 contents maxChars tailCount) ∧
  emitsOnly (summarizerEvent S0 contents)
    (compressLoop W S0 contents maxChars tailCount).
Proof.
  induction n as [|n IH]; intros tailCount Hle.
  - destruct tailCount as [|[|[|k]]]; [| | |lia]; simpl;
      split_and!; try apply costs_ret; try apply runsNoTool_ret;
      apply DriverFacts.emitsOnly_ret.
  - destruct tailCount as [|[|[|k]]];
      [simpl; split_and!;
       first [eapply costs_weaken; [| | |apply costs_ret]; lia
             |apply runsNoTool_ret|apply DriverFacts.emitsOnly_ret]..|].
    rewrite DriverFacts.compressLoop_unfold.
    destruct (IH (S k)) as (Hc & Ht & He); [lia|].
    split_and!.
    + eapply costs_weaken;
        [| | |apply (costs_bind 4 3 0 (4 * n) (3 * n) 0);
              [apply summarizeHistoryText_costs|]]; [lia..|].
      intros summary. destruct (_ <=? _); [|done].
      eapply costs_weaken; [| | |apply costs_ret]; lia.
    + apply runsNoTool_bind; [apply summarizeHistoryText_runsNoTool|].
      intros summary. destruct (_ <=? _); [apply runsNoTool_ret|done].
    + apply DriverFacts.emitsOnly_bind; [apply summarizeHistoryText_events|].
      intros summary. destruct (_ <=? _); [apply DriverFacts.emitsOnly_ret|done].
Qed.

Lemma compressIfNeeded_account contents maxChars c :
  let out := compressIfNeeded W S0 contents maxChars c in
  fetches c ≤ fetches out.1.2 ≤ fetches c + 12 ∧
  sleeps c ≤ sleeps out.1.2 ≤ sleeps c + 9 ∧
  approvals out.1.2 = approvals c ∧ toolRuns out.1.2 = toolRuns c ∧
  Forall (summarizerEvent S0 contents) out.2 ∧
  (length contents ≤ 2 → out = (trimContents contents maxChars, c, [])).
Proof.
  intros out. subst out. unfold compressIfNeeded.
  destruct (Nat.leb_spec (estimateContentChars contents) maxChars) as [Hfit|Hover].
  { unfold ret. simpl. split_and!; try done; try lia.
    intros _. unfold trimContents.
    by destruct (Nat.leb_spec (estimateContentChars contents) maxChars);
      [|lia]. }
  destruct (compressLoop_costs contents maxChars 3 (length contents `min` 8))
    as (Hc & Ht & He); [lia|].
  specialize (Hc c). specialize (Ht c). specialize (He c).
  split_and!; try done; try lia.
  intros Hshort.
  by destruct (length contents) as [|[|[|k]]]; [| | |lia].
Qed.

(** X3: one context compression makes at most three summarizer calls,
    that is at most twelve requests and nine sleeps; it asks for no
    approval and runs no tool, and each of its requests goes to the
    preferred backend, without tool declarations, for a summary of a prefix
    of the contents.  Contents of one or two messages are never summarized:
    they come back hard-trimmed, without a request. *)
Theorem compressIfNeeded_requests contents maxChars c :
  let out := compressIfNeeded W S0 contents maxChars c in
  fetches c ≤ fetches out.1.2 ≤ fetches c + 12 ∧
  sleeps c ≤ sleeps out.1.2 ≤ sleeps c + 9 ∧
  approvals out.1.2 = approvals c ∧ toolRuns out.1.2 = toolRuns c ∧
  Forall (summarizerEvent S0 contents) out.2 ∧
  (length contents ≤ 2 → out = (trimContents contents maxChars, c, [])).
Proof. apply compressIfNeeded_account. Qed.

End Requests.

(** *** Waiting *)

Lemma sleepTotal_app e1 e2 :
  sleepTotal (e1 ++ e2) = (sleepTotal e1 + sleepTotal e2)%Z.
Proof.
  induction e1 as [|e e1 IH]; simpl; [done|]. destruct e; rewrite ?IH; lia.
Qed.

Section Waiting.

Context (W : world).

Lemma sleepTotal_backoff mdl withTools contents baseDelay n : ∀ from sl,
  jitterInRange W →
  (sleepTotal (backoffEvents W mdl withTools contents baseDelay from sl n)
   ≤ baseDelay * 2 ^ Z.of_nat from * (2 ^ Z.of_nat n - 1) + 99 * Z.of_nat n)%Z.
Proof.
  intros from sl Hj. revert from sl.
  induction n as [|n IH]; intros from sl; [simpl; lia|].
  cbn [backoffEvents sleepTotal foldr].
  specialize (IH (S from) (S sl)). unfold sleepTotal in IH.
  specialize (Hj sl).
  rewrite !Nat2Z.inj_succ, !Z.pow_succ_r in * by lia.
  lia.
Qed.

Lemma sleepTotal_backoff_nonneg mdl withTools contents baseDelay n : ∀ from sl,
  jitterInRange W → (0 ≤ baseDelay)%Z →
  (0 ≤ sleepTotal (backoffEvents W mdl withTools contents baseDelay from sl n))%Z.
Proof.
  intros from sl Hj Hbase. revert from sl.
  induction n as [|n IH]; intros from sl; [done|].
  cbn [backoffEvents sleepTotal foldr]. specialize (IH (S from) (S sl)).
  unfold sleepTotal in IH. specialize (Hj sl).
  assert (0 ≤ baseDelay * 2 ^ Z.of_nat from)%Z
    by (apply Z.mul_nonneg_nonneg; lia).
  lia.
Qed.

(** X4: a [fetchWithRetry] makes at least one and at most [retries + 2]
    requests and sleeps at most [retries + 1] times, for no longer than
    [baseDelay * (2^(retries+1) - 1)] ms plus 99 ms of jitter per sleep;
    it asks for no approval and runs no tool.  (With the 2 retries and
    700 ms of the model call: at most 4 requests and 5197 ms.) *)
Theorem fetchWithRetry_bounded mdl withTools contents retries baseDelay c :
  jitterInRange W → (0 ≤ baseDelay)%Z →
  let out := fetchWithRetry W mdl withTools contents retries baseDelay c in
  fetches c < fetches out.1.2 ≤ fetches c + retries + 2 ∧
  sleeps c ≤ sleeps out.1.2 ≤ sleeps c + retries + 1 ∧
  (0 ≤ sleepTotal out.2 ≤ backoffBound baseDelay retries)%Z ∧
  approvals out.1.2 = approvals c ∧ toolRuns out.1.2 = toolRuns c ∧
  backoffBound 700 2 = 5197%Z.
Proof.
  intros Hj Hbase out.
  destruct (DriverFacts.fetchWithRetry_spec W mdl withTools contents retries
              baseDelay c) as (n & Hn & _ & Hs & Ha & Ht & Hout).
  fold out in Hs, Ha, Ht, Hout.
  pose proof (sleepTotal_backoff mdl withTools contents baseDelay n 0
                (sleeps c) Hj) as Hsleep.
  pose proof (sleepTotal_backoff_nonneg mdl withTools contents baseDelay n 0
                (sleeps c) Hj Hbase) as Hpos.
  assert (2 ^ Z.of_nat n ≤ 2 ^ Z.of_nat (S retries))%Z as Hpow
    by (apply Z.pow_le_mono_r; lia).
  assert (1 ≤ 2 ^ Z.of_nat n)%Z as Hone
    by (pose proof (Z.pow_pos_nonneg 2 (Z.of_nat n)); lia).
  assert (sleepTotal out.2
          = sleepTotal (backoffEvents W mdl withTools contents baseDelay 0
                          (sleeps c) n)) as Htotal.
  { destruct Hout as [(_ & _ & -> & _)|(_ & _ & _ & -> & _)]; [|done].
    rewrite sleepTotal_app. simpl. lia. }
  rewrite Htotal. unfold backoffBound.
  split_and!; try done; try lia.
  simpl in Hsleep. nia.
Qed.

Lemma retryLoop_all_transient mdl withTools contents baseDelay left :
  ∀ attempt lastErr c,
    (∀ i, i < left → transientFailure (net W (fetches c + i)) = true) →
    let out := retryLoop W mdl withTools contents baseDelay left attempt
                 lastErr c in
    ((lastErr = true ∨ ∃ i, i < left ∧ net W (fetches c + i) = NetworkError) →
     out.1.1 = NetworkError ∧ fetches out.1.2 = fetches c + left) ∧
    (lastErr = false →
     (∀ i, i < left → net W (fetches c + i) ≠ NetworkError) →
     out.1.1 = net W (fetches c + left) ∧
     fetches out.1.2 = fetches c + left + 1).
Proof.
  induction left as [|left IH]; intros attempt lastErr c Hall out; subst out.
  - simpl. destruct lastErr; simpl; rewrite Nat.add_0_r.
    + split; [done|]. intros [=].
    + split; [|intros _ _; split; [done|lia]].
      intros [[=]|(i & ? & _)]. lia.
  - cbn [retryLoop]. unfold bind, fetch, sleepJittered.
    pose proof (Hall 0 ltac:(lia)) as H0. rewrite Nat.add_0_r in H0.
    pose (c2 := Counters (S (fetches c)) (S (sleeps c)) (approvals c) (toolRuns c)).
    assert (∀ i, i < left → transientFailure (net W (fetches c2 + i)) = true)
      as Hrest.
    { intros i Hi. specialize (Hall (S i) ltac:(lia)).
      by replace (fetches c2 + i) with (fetches c + S i) by (simpl; lia). }
    destruct (net W (fetches c)) as [resp|] eqn:Hnet.
    + simpl in H0. apply andb_true_iff in H0 as [Hok Hretry].
      apply negb_true_iff in Hok. rewrite Hok, Hretry.
      cbn [fst snd fetches sleeps approvals toolRuns]. fold c2.
      destruct (IH (S attempt) lastErr c2 Hrest) as [Hsome Hnone].
      destruct (retryLoop W mdl withTools contents baseDelay left (S attempt)
                  lastErr c2) as [[r c3] e3]. cbn [fst snd] in *.
      split.
      * intros Hbroken. destruct Hsome as [-> ->]; [|split; [done|simpl; lia]].
        destruct Hbroken as [?|(i & Hi & Hne)]; [by left|right].
        destruct i as [|i]; [rewrite Nat.add_0_r in Hne; congruence|].
        exists i. split; [lia|].
        by replace (fetches c2 + i) with (fetches c + S i) by (simpl; lia).
      * intros -> Hclean. destruct Hnone as [-> ->]; [done| |].
        -- intros i Hi. specialize (Hclean (S i) ltac:(lia)).
           by replace (fetches c2 + i) with (fetches c + S i) by (simpl; lia).
        -- simpl. split; [f_equal|]; lia.
    + cbn [fst snd fetches sleeps approvals toolRuns]. fold c2.
      destruct (IH (S attempt) true c2 Hrest) as [Hsome _].
      destruct (retryLoop W mdl withTools contents baseDelay left (S attempt)
                  true c2) as [[r c3] e3]. cbn [fst snd] in *.
      destruct Hsome as [-> ->]; [by left|].
      split; [intros _; split; [done|simpl; lia]|].
      intros _ Hclean. specialize (Hclean 0 ltac:(lia)).
      rewrite Nat.add_0_r in Hclean. done.
Qed.

(** X5: a network error is remembered until [fetchWithRetry] ends.  When
    none of the [retries + 1] attempts of the loop gets an answer that ends
    it, the call is rejected as soon as one of them was a network error,
    whatever the later attempts were answered, and the last request is not
    made; only when every attempt got a response (500, 503 or 504) is one
    more request made, whose result is returned as it is. *)
Theorem fetchWithRetry_network_error_sticks mdl withTools contents retries
    baseDelay c :
  (∀ i, i ≤ retries → transientFailure (net W (fetches c + i)) = true) →
  let out := fetchWithRetry W mdl withTools contents retries baseDelay c in
  ((∃ i, i ≤ retries ∧ net W (fetches c + i) = NetworkError) →
   out.1.1 = NetworkError ∧ fetches out.1.2 = fetches c + retries + 1) ∧
  ((∀ i, i ≤ retries → net W (fetches c + i) ≠ NetworkError) →
   out.1.1 = net W (fetches c + retries + 1) ∧
   fetches out.1.2 = fetches c + retries + 2).
Proof.
  intros Hall out. subst out. unfold fetchWithRetry.
  destruct (retryLoop_all_transient mdl withTools contents baseDelay
              (S retries) 0 false c) as [Hsome Hnone].
  { intros i Hi. apply Hall. lia. }
  split.
  - intros (i & Hi & Hne). destruct Hsome as [-> ->]; [|split; [done|lia]].
    right. exists i. split; [lia|done].
  - intros Hclean. destruct Hnone as [-> ->]; [done| |].
    + intros i Hi. apply Hclean. lia.
    + split; [f_equal|]; lia.
Qed.

End Waiting.

Lemma fetchWithRetry_bounded_witness :
  jitterInRange busyWorld ∧
  fetches (fetchWithRetry busyWorld "m" true [] 2 700 noCounts).1.2 ≤ 4.
Proof.
  assert (jitterInRange busyWorld) as Hj by (intros i; simpl; lia).
  split; [exact Hj|].
  exact (proj2 (proj1 (fetchWithRetry_bounded busyWorld "m" true [] 2 700
                         noCounts Hj ltac:(lia)))).
Defined.

Lemma fetchWithRetry_network_error_sticks_witness :
  (∀ i, i ≤ 2 → transientFailure (net flakyWorld (fetches noCounts + i)) = true) ∧
  (fetchWithRetry flakyWorld "m" true [] 2 700 noCounts).1.1 = NetworkError ∧
  fetches (fetchWithRetry flakyWorld "m" true [] 2 700 noCounts).1.2 = 3.
Proof.
  assert (∀ i, i ≤ 2 →
               transientFailure (net flakyWorld (fetches noCounts + i)) = true)
    as Hall.
  { intros [|[|[|i]]] Hi; [done..|lia]. }
  split; [exact Hall|].
  apply (proj1 (fetchWithRetry_network_error_sticks flakyWorld "m" true [] 2
                  700 noCounts Hall)).
  exists 0. split; [lia|reflexivity].
Defined.

(** *** The requests of a session *)

Lemma uniq_length l : length (uniq l) ≤ length l.
Proof.
  induction l as [|x l IH]; simpl; [done|].
  pose proof (length_filter (λ y, y ≠ x) (uniq l)). lia.
Qed.

Section Budget.

Context (W : world) (P : platform) (S0 : settings).

Lemma fallbackList_length : length (fallbackList S0) ≤ 3.
Proof. unfold fallbackList. apply (uniq_length [_; _; _]). Qed.

Lemma compressIfNeeded_estimate contents maxChars c :
  estimateContentChars (compressIfNeeded W S0 contents maxChars c).1.1 ≤ maxChars.
Proof.
  unfold compressIfNeeded.
  destruct (Nat.leb_spec (estimateContentChars contents) maxChars); [done|].
  by apply DriverFacts.compressLoop_spec.
Qed.

Lemma summarizerEvent_notToolFetch contents e :
  summarizerEvent S0 contents e → notToolFetch e.
Proof. by intros [[k ->]|[ms ->]]. Qed.

Lemma netEvent_notToolFetch models contents e :
  netEvent models false contents e → notToolFetch e.
Proof. by intros [(mdl & _ & ->)|[ms ->]]. Qed.

Lemma roundEvent_notToolFetch round e : roundEvent round e → notToolFetch e.
Proof. by destruct e. Qed.

Lemma compressIfNeeded_notToolFetch contents maxChars :
  emitsOnly notToolFetch (compressIfNeeded W S0 contents maxChars).
Proof.
  intros c. eapply Forall_impl; [apply compressIfNeeded_account|].
  apply summarizerEvent_notToolFetch.
Qed.

Lemma callFinal_notToolFetch contents models :
  emitsOnly notToolFetch (callFinal W contents models).
Proof.
  intros c. eapply Forall_impl; [apply DriverFacts.callFinal_spec|].
  apply netEvent_notToolFetch.
Qed.

Lemma callFinal_costs contents models :
  costs (3 * length models) (2 * length models) 0 (callFinal W contents models).
Proof.
  induction models as [|mdl rest IH]; [apply costs_ret|].
  cbn [callFinal]. eapply costs_weaken;
    [| | |apply (costs_bind 3 2 0 (3 * length rest) (2 * length rest) 0);
          [apply (fetchWithRetry_costs _ _ _ _ 1)|]]; [simpl; lia..|].
  intros [resp|]; [destruct (ok resp); [destruct (jsonBody resp)|]|];
    try done; (eapply costs_weaken; [| | |apply costs_ret]; lia).
Qed.

Lemma callFinal_runsNoTool contents models :
  runsNoTool (callFinal W contents models).
Proof.
  induction models as [|mdl rest IH]; [apply runsNoTool_ret|].
  cbn [callFinal]. apply runsNoTool_bind; [apply fetchWithRetry_runsNoTool|].
  intros [resp|]; [destruct (ok resp); [destruct (jsonBody resp)|]|];
    first [done|apply runsNoTool_ret].
Qed.

Lemma callModel_costs contents models :
  costs (4 * length models) (3 * length models) 0 (callModel W contents models).
Proof.
  induction models as [|mdl rest IH]; [apply costs_ret|].
  cbn [callModel]. eapply costs_weaken;
    [| | |apply (costs_bind 4 3 0 (4 * length rest) (3 * length rest) 0);
          [apply (fetchWithRetry_costs _ _ _ _ 2)|]]; [simpl; lia..|].
  intros [resp|]; [destruct (ok resp); [|destruct (_ =? _)%Z]|];
    first [apply (costs_bind 0 0 0); [apply costs_emit|done]
          |eapply costs_weaken; [| | |apply costs_ret]; lia].
Qed.

Lemma callModel_runsNoTool contents models :
  runsNoTool (callModel W contents models).
Proof.
  induction models as [|mdl rest IH]; [apply runsNoTool_ret|].
  cbn [callModel]. apply runsNoTool_bind; [apply fetchWithRetry_runsNoTool|].
  intros [resp|]; [destruct (ok resp); [|destruct (_ =? _)%Z]|];
    first [apply runsNoTool_ret
          |apply runsNoTool_bind; [apply runsNoTool_emit|done]].
Qed.

(** The model call asks the backends of its list for an answer to its
    contents, and tells the side panel when it changes backend. *)
Lemma callModel_requests contents models :
  emitsOnly (λ e, netEvent models true contents e ∨ ∃ text, e = EStream text)
    (callModel W contents models).
Proof.
  induction models as [|mdl rest IH]; [apply DriverFacts.emitsOnly_ret|].
  assert (∀ e, netEvent rest true contents e ∨ (∃ text, e = EStream text) →
               netEvent (mdl :: rest) true contents e ∨ ∃ text, e = EStream text)
    as Hrest.
  { intros e [He|He]; [left|by right].
    eapply DriverFacts.netEvent_weaken; [|done]. set_solver. }
  cbn [callModel]. apply DriverFacts.emitsOnly_bind.
  - eapply DriverFacts.emitsOnly_mono; [|apply DriverFacts.fetchWithRetry_net].
    intros e He. left. eapply DriverFacts.netEvent_weaken; [|done]. set_solver.
  - intros [resp|]; [destruct (ok resp); [|destruct (_ =? _)%Z]|];
      first [apply DriverFacts.emitsOnly_ret
            |apply DriverFacts.emitsOnly_bind;
             [apply DriverFacts.emitsOnly_emit; right; by eexists
             |intros _; eapply DriverFacts.emitsOnly_mono; [exact Hrest|exact IH]]].
Qed.

Lemma executeRound_notToolFetch round candidate calls contents tab counter sig :
  emitsOnly notToolFetch
    (executeRound W S0 round candidate calls contents tab counter sig).
Proof.
  intros c. eapply Forall_impl; [apply DriverFacts.executeRound_events|].
  apply roundEvent_notToolFetch.
Qed.

Lemma afterModel_notToolFetch round json usedModel contents ls :
  emitsOnly notToolFetch (afterModel W P S0 round json usedModel contents ls).
Proof.
  unfold afterModel. destruct (detectRepeat _ _ _) as [counter sig].
  apply DriverFacts.emitsOnly_bind.
  - destruct (_ <=? _); [|apply DriverFacts.emitsOnly_ret].
    apply DriverFacts.emitsOnly_bind; [by apply DriverFacts.emitsOnly_emit|].
    intros _. apply DriverFacts.emitsOnly_bind;
      [apply callFinal_notToolFetch|intros; apply DriverFacts.emitsOnly_ret].
  - intros [contents' [[finalJson finalModel]|]];
      [apply DriverFacts.emitsOnly_ret|].
    destruct (getFunctionCallsFromCandidate _ _);
      [apply DriverFacts.emitsOnly_ret|apply executeRound_notToolFetch].
Qed.

Lemma notToolFetch_budgeted e : notToolFetch e → budgetedRequest S0 e.
Proof. intros He mdl cs ->. done. Qed.

Lemma roundBody_budgeted round ls :
  emitsOnly (budgetedRequest S0) (roundBody W P S0 round ls).
Proof.
  intros c. unfold roundBody, bind.
  pose proof (compressIfNeeded_notToolFetch (contents ls) 10000 c) as Hc.
  pose proof (compressIfNeeded_estimate (contents ls) 10000 c) as Hfit.
  destruct (compressIfNeeded W S0 (contents ls) 10000 c) as [[cs c1] e1].
  cbn [fst snd] in *.
  pose proof (callModel_requests cs (fallbackList S0) c1) as Hm.
  destruct (callModel W cs (fallbackList S0) c1) as [[reply c2] e2].
  cbn [fst snd] in *.
  assert (Forall (budgetedRequest S0) (e1 ++ e2)) as Hfront.
  { apply Forall_app. split.
    - eapply Forall_impl; [exact Hc|]. apply notToolFetch_budgeted.
    - eapply Forall_impl; [exact Hm|].
      intros e [[(m & Hin & ->)|[ms ->]]|[text ->]] mdl cs' [=]; by subst. }
  destruct reply as [json usedModel| | |st text|]; unfold ret; cbn [fst snd];
    rewrite ?app_nil_r; try done.
  pose proof (afterModel_notToolFetch round json usedModel cs ls c2) as Ha.
  destruct (afterModel W P S0 round json usedModel cs ls c2) as [[r c3] e3].
  cbn [fst snd] in *. rewrite (assoc_L (++)). apply Forall_app. split; [done|].
  eapply Forall_impl; [exact Ha|]. apply notToolFetch_budgeted.
Qed.

Lemma rounds_budgeted left : ∀ round ls,
  emitsOnly (budgetedRequest S0) (rounds W P S0 left round ls).
Proof.
  induction left as [|left IH]; intros round ls;
    [apply DriverFacts.emitsOnly_ret|].
  cbn [rounds]. apply DriverFacts.emitsOnly_bind; [apply roundBody_budgeted|].
  intros [res|ls']; [apply DriverFacts.emitsOnly_ret|apply IH].
Qed.

(** X6: every request of a session that carries the tool declarations
    goes to a backend of the fallback list and is within the budget of
    10000 characters, as [estimateContentChars] counts them: the contents
    are compressed before each model call, and the requests made after the
    contents have grown (the forced final answers, the summaries) carry no
    tools. *)
Theorem tool_requests_within_budget messages configRounds tabId c :
  Forall (budgetedRequest S0)
    (generateWithToolsLoop W P S0 messages configRounds tabId c).2.
Proof.
  revert c. unfold generateWithToolsLoop.
  apply DriverFacts.emitsOnly_bind; [apply rounds_budgeted|].
  intros [res|ls]; [apply DriverFacts.emitsOnly_ret|].
  unfold afterRounds. apply DriverFacts.emitsOnly_bind.
  { apply DriverFacts.emitsOnly_emit. by intros mdl cs. }
  intros _. apply DriverFacts.emitsOnly_bind.
  - eapply DriverFacts.emitsOnly_mono; [|apply callFinal_notToolFetch].
    apply notToolFetch_budgeted.
  - intros [[finalJson finalModel]|]; apply DriverFacts.emitsOnly_ret.
Qed.

End Budget.

(** *** Sessions that nobody approves *)

Section Gate.

Context (W : world) (P : platform) (S0 : settings).
Context (Hauto : autoApprove S0 = false).
Context (Hnever : ∀ n, approval W n ≠ Approved).

Lemma executeRound_unapproved round candidate calls contents tab counter sig c :
  executeRound W S0 round candidate calls contents tab counter sig c
  = (inl (Failure UserDeclined),
     Counters (fetches c) (sleeps c) (S (approvals c)) (toolRuns c),
     [EApprovalRequest calls]).
Proof.
  unfold executeRound, bind, requestToolApproval. rewrite Hauto.
  cbn [fst snd]. specialize (Hnever (approvals c)).
  by destruct (approval W (approvals c)).
Qed.

Lemma talk_untooled events :
  Forall talkEvent events → Forall (λ e, toolRound e = None) events.
Proof. intros H. eapply Forall_impl; [exact H|]. apply DriverFacts.talk_no_round. Qed.

Lemma afterModel_unapproved round json usedModel contents ls c :
  let out := afterModel W P S0 round json usedModel contents ls c in
  ∃ res, out.1.1 = inl res ∧ endsUnapproved c (Some res) out.1.2 out.2.
Proof.
  intros out. subst out.
  set (calls := getFunctionCallsFromCandidate P (head json)).
  destruct (Nat.lt_ge_cases (detectRepeat P calls ls).1 (repeatThreshold calls))
    as [Hbelow|Hforced].
  - rewrite DriverFacts.afterModel_below by done. fold calls.
    destruct calls as [|cl rest].
    + eexists. split; [done|]. cbn [fst snd]. split_and!; try done; lia.
    + rewrite executeRound_unapproved. eexists. split; [done|].
      cbn [fst snd]. split_and!; try done; try (simpl; lia).
      by repeat constructor.
  - rewrite DriverFacts.afterModel_forced by done. fold calls. cbn zeta.
    set (contents' := contents ++ _).
    pose proof (callFinal_costs W contents' (fallbackList S0) c) as Hc.
    pose proof (callFinal_runsNoTool W contents' (fallbackList S0) c) as Ht.
    pose proof (DriverFacts.callFinal_talk W contents' (fallbackList S0) c) as He.
    apply talk_untooled in He.
    destruct (callFinal W contents' (fallbackList S0) c) as [[final c1] e1].
    cbn [fst snd] in *.
    assert (approvals c1 = approvals c) as Ha by lia.
    destruct final as [[finalJson finalModel]|].
    + eexists. split; [done|]. cbn [fst snd].
      split_and!; try done; try lia. by constructor.
    + destruct calls as [|cl rest].
      * eexists. split; [done|]. cbn [fst snd].
        split_and!; try done; try lia. by constructor.
      * rewrite executeRound_unapproved. eexists. split; [done|].
        cbn [fst snd]. split_and!; try done; try (simpl; lia).
        constructor; [done|]. apply Forall_app. split; [done|].
        by repeat constructor.
Qed.

Lemma roundBody_unapproved round ls c :
  let out := roundBody W P S0 round ls c in
  ∃ res, out.1.1 = inl res ∧ endsUnapproved c (Some res) out.1.2 out.2.
Proof.
  intros out. subst out. unfold roundBody, bind.
  pose proof (compressIfNeeded_account W S0 (contents ls) 10000 c)
    as (_ & _ & Ha1 & Ht1 & _).
  pose proof (DriverFacts.compressIfNeeded_talk W S0 (contents ls) 10000 c) as He1.
  apply talk_untooled in He1.
  destruct (compressIfNeeded W S0 (contents ls) 10000 c) as [[cs c1] e1].
  cbn [fst snd] in *.
  pose proof (callModel_costs W cs (fallbackList S0) c1) as Hc2.
  pose proof (callModel_runsNoTool W cs (fallbackList S0) c1) as Ht2.
  pose proof (DriverFacts.callModel_talk W cs (fallbackList S0) c1) as He2.
  apply talk_untooled in He2.
  destruct (callModel W cs (fallbackList S0) c1) as [[reply c2] e2].
  cbn [fst snd] in *.
  assert (approvals c2 = approvals c) as Ha2 by lia.
  assert (toolRuns c2 = toolRuns c) as Ht by congruence.
  destruct reply as [json usedModel| | |st text|]; unfold ret; cbn [fst snd];
    try (eexists; split; [done|]; rewrite app_nil_r;
         split_and!; try lia; by rewrite Forall_app).
  destruct (afterModel_unapproved round json usedModel cs ls c2)
    as (res & Hres & Htools & Hev & Happ & Hdecl).
  destruct (afterModel W P S0 round json usedModel cs ls c2) as [[r c3] e3].
  cbn [fst snd] in *. subst r. exists res. split; [done|].
  split_and!; try lia.
  - rewrite !Forall_app. done.
  - intros Hone. apply Hdecl. lia.
Qed.

(** X7: without auto-approve, in a session whose approval requests are
    never approved (declined or left unanswered), no tool runs at all; at
    most one approval request is sent, and a session that sent one ends
    with the "declined" failure. *)
Theorem unapproved_session_runs_no_tool messages configRounds tabId c :
  let out := generateWithToolsLoop W P S0 messages configRounds tabId c in
  toolRuns out.1.2 = toolRuns c ∧
  Forall (λ e, toolRound e = None) out.2 ∧
  approvals c ≤ approvals out.1.2 ≤ S (approvals c) ∧
  (approvals out.1.2 = S (approvals c) → out.1.1 = Failure UserDeclined).
Proof.
  intros out. subst out. unfold generateWithToolsLoop, bind.
  destruct (Z.to_nat (maxRoundsOf S0 configRounds)) as [|left].
  - cbn [rounds]. unfold ret, afterRounds, bind, emit.
    cbn [fst snd contents app].
    set (cs := buildContentsFromMessages messages).
    pose proof (callFinal_costs W cs (fallbackList S0) c) as Hc.
    pose proof (callFinal_runsNoTool W cs (fallbackList S0) c) as Ht.
    pose proof (DriverFacts.callFinal_talk W cs (fallbackList S0) c) as He.
    apply talk_untooled in He.
    destruct (callFinal W cs (fallbackList S0) c) as [[final c1] e1].
    cbn [fst snd] in *.
    destruct final as [[finalJson finalModel]|]; unfold ret; cbn [fst snd];
      rewrite app_nil_r; (split_and!; [done|by constructor|lia..]).
  - cbn [rounds]. unfold bind.
    destruct (roundBody_unapproved 0
                (LoopState (buildContentsFromMessages messages) tabId None 0) c)
      as (res & Hres & Htools & Hev & Happ & Hdecl).
    destruct (roundBody W P S0 0 _ c) as [[r c1] e1]. cbn [fst snd] in *.
    subst r. unfold ret. cbn [fst snd]. rewrite !app_nil_r.
    split_and!; try done; try lia.
    intros Hone. specialize (Hdecl Hone). by injection Hdecl as ->.
Qed.

End Gate.

Lemma unapproved_session_runs_no_tool_witness :
  autoApprove (Settings "" false 3) = false ∧
  (∀ n, approval unattendedWorld n ≠ Approved) ∧
  toolRuns (generateWithToolsLoop unattendedWorld samplePlatform
              (Settings "" false 3) [Message false (lit "hi")] None 1
              noCounts).1.2 = 0.
Proof.
  assert (∀ n, approval unattendedWorld n ≠ Approved) as Hnever by done.
  split; [reflexivity|]. split; [exact Hnever|].
  exact (proj1 (unapproved_session_runs_no_tool unattendedWorld samplePlatform
                  (Settings "" false 3) eq_refl Hnever
                  [Message false (lit "hi")] None 1 noCounts)).
Defined.

(** *** Tool runs *)

Lemma tabAfter_cons tab o outcomes :
  tabAfter tab (o :: outcomes) = tabAfter (default tab (movedToTab o)) outcomes.
Proof.
  unfold tabAfter.
  change (omap movedToTab (o :: outcomes))
    with (match movedToTab o with
          | Some t => t :: omap movedToTab outcomes
          | None => omap movedToTab outcomes
          end).
  destruct (movedToTab o) as [t|]; [|done].
  rewrite last_cons. by destruct (last (omap movedToTab outcomes)).
Qed.

Section Tools.

Context (W : world).

Lemma executeCalls_account round calls : ∀ tab c,
  let out := executeCalls W round calls tab c in
  let outcomes := outcomesFrom W (toolRuns c) (length calls) in
  out.1.1.1 = zip (map name calls) (map result outcomes) ∧
  out.1.1.2 = tabAfter tab outcomes ∧
  omap toolRunOf out.2
  = imap (λ i cl, (name cl, args cl, tabAfter tab (take i outcomes))) calls ∧
  toolRuns out.1.2 = toolRuns c + length calls ∧
  fetches out.1.2 = fetches c ∧ sleeps out.1.2 = sleeps c ∧
  approvals out.1.2 = approvals c.
Proof.
  induction calls as [|cl rest IH]; intros tab c; cbn zeta.
  { simpl. split_and!; try done; lia. }
  cbn [executeCalls]. unfold bind, emit, executeTool. cbn [fst snd].
  set (o := toolRun W (toolRuns c)).
  set (c1 := Counters _ _ _ _).
  specialize (IH (default tab (movedToTab o)) c1). cbn zeta in IH.
  destruct (executeCalls W round rest (default tab (movedToTab o)) c1)
    as [[[results tabEnd] c2] e2].
  cbn [fst snd] in *. destruct IH as (-> & -> & He & Ht & Hf & Hs & Ha).
  unfold ret. cbn [fst snd length]. unfold outcomesFrom in *.
  cbn [seq map]. fold o. rewrite app_nil_r.
  split_and!; try done.
  - by rewrite tabAfter_cons.
  - cbn [app].
    change (omap toolRunOf
              (EToolStatus (name cl) :: ETool round (name cl) (args cl) tab :: e2))
      with ((name cl, args cl, tab) :: omap toolRunOf e2).
    rewrite imap_cons. f_equal.
    rewrite He. apply imap_ext. intros i x _. simpl.
    by rewrite tabAfter_cons.
  - simpl in Ht. lia.
Qed.


End Tools.

(** *** Function responses *)

Lemma truncTree_bounded lim t : bounded lim (truncTree lim t).
Proof. apply TruncateFacts.truncTree_is_bounded. Qed.

(** X9: the function responses of a round are one part per tool result,
    in order and under the name of the tool; each response is the result
    cut to 2000 characters per string, 30 items per array and 30 keys per
    object, with the markers on top of that, and a result within these
    limits is passed on as it is. *)
Theorem function_responses_bounded results :
  Forall2 (λ nr p,
             ∃ response,
               p = PFunctionResponse nr.1 response ∧
               bounded responseLimits response ∧
               (within responseLimits nr.2 = true → response = nr.2))
    results (makeFunctionResponseParts results).
Proof.
  unfold makeFunctionResponseParts.
  induction results as [|[n r] results IH]; constructor; [|done].
  exists (truncTree responseLimits r). split_and!; [done| |].
  - apply truncTree_bounded.
  - apply TruncateFacts.truncTree_within.
Qed.

(** *** The requests of a whole session *)

Section Bound.

Context (W : world) (P : platform) (S0 : settings).

Lemma executeRound_costs round candidate calls contents tab counter sig :
  costs 0 0 1 (executeRound W S0 round candidate calls contents tab counter sig).
Proof.
  unfold executeRound. apply (costs_bind 0 0 1 0 0 0).
  - unfold requestToolApproval. destruct (autoApprove S0).
    + eapply costs_weaken; [| | |apply costs_ret]; lia.
    + intros c. simpl. lia.
  - intros approved. destruct (negb approved); [apply costs_ret|].
    apply (costs_bind 0 0 0 0 0 0); [|intros [results tab']; apply costs_ret].
    intros c. destruct (executeCalls_account W round calls tab c)
      as (_ & _ & _ & _ & Hf & Hs & Ha). lia.
Qed.

Lemma afterModel_costs round json usedModel contents ls :
  costs 9 6 1 (afterModel W P S0 round json usedModel contents ls).
Proof.
  unfold afterModel. destruct (detectRepeat _ _ _) as [counter sig].
  apply (costs_bind 9 6 0 0 0 1).
  - destruct (_ <=? _);
      [|eapply costs_weaken; [| | |apply costs_ret]; lia].
    apply (costs_bind 0 0 0 9 6 0); [apply costs_emit|]. intros _.
    apply (costs_bind 9 6 0 0 0 0); [|intros; apply costs_ret].
    pose proof (fallbackList_length S0).
    eapply costs_weaken; [| | |apply callFinal_costs]; lia.
  - intros [contents' [[finalJson finalModel]|]];
      [eapply costs_weaken; [| | |apply costs_ret]; lia|].
    destruct (getFunctionCallsFromCandidate _ _);
      [eapply costs_weaken; [| | |apply costs_ret]; lia
      |apply executeRound_costs].
Qed.

Lemma roundBody_costs round ls : costs 33 24 1 (roundBody W P S0 round ls).
Proof.
  unfold roundBody. apply (costs_bind 12 9 0 21 15 1).
  { intros c. destruct (compressIfNeeded_account W S0 (contents ls) 10000 c)
      as (Hf & Hs & Ha & _). lia. }
  intros cs. apply (costs_bind 12 9 0 9 6 1).
  { pose proof (fallbackList_length S0).
    eapply costs_weaken; [| | |apply callModel_costs]; lia. }
  intros [json usedModel| | |st text|];
    [apply afterModel_costs
    |eapply costs_weaken; [| | |apply costs_ret]; lia..].
Qed.

Lemma rounds_costs left : ∀ round ls,
  costs (33 * left) (24 * left) left (rounds W P S0 left round ls).
Proof.
  induction left as [|left IH]; intros round ls.
  { eapply costs_weaken; [| | |apply costs_ret]; lia. }
  cbn [rounds]. eapply costs_weaken;
    [| | |apply (costs_bind 33 24 1 (33 * left) (24 * left) left);
          [apply roundBody_costs|]]; [lia..|].
  intros [res|ls']; [|apply IH].
  eapply costs_weaken; [| | |apply costs_ret]; lia.
Qed.

(** X10: a session of at most [n] rounds makes at most [33 * n + 9]
    requests to the backends, sleeps at most [24 * n + 6] times and sends
    at most [n] approval requests: per round at most 12 requests for the
    compression, 12 for the model call and 9 for a forced final answer, and
    at most 9 for the final answer after the last round. *)
Theorem session_request_bound messages configRounds tabId c :
  let n := Z.to_nat (maxRoundsOf S0 configRounds) in
  let out := generateWithToolsLoop W P S0 messages configRounds tabId c in
  fetches c ≤ fetches out.1.2 ≤ fetches c + 33 * n + 9 ∧
  sleeps c ≤ sleeps out.1.2 ≤ sleeps c + 24 * n + 6 ∧
  approvals c ≤ approvals out.1.2 ≤ approvals c + n.
Proof.
  intros n out. subst out.
  assert (costs (33 * n + 9) (24 * n + 6) (n + 0)
            (generateWithToolsLoop W P S0 messages configRounds tabId)) as H.
  { unfold generateWithToolsLoop. fold n.
    apply costs_bind; [apply rounds_costs|].
    intros [res|ls]; [eapply costs_weaken; [| | |apply costs_ret]; lia|].
    unfold afterRounds. apply (costs_bind 0 0 0 9 6 0); [apply costs_emit|].
    intros _. apply (costs_bind 9 6 0 0 0 0).
    - pose proof (fallbackList_length S0).
      eapply costs_weaken; [| | |apply callFinal_costs]; lia.
    - intros [[finalJson finalModel]|]; apply costs_ret. }
  specialize (H c). lia.
Qed.

End Bound.

(** *** A model that repeats its plan *)

Section Plan.

Context (W : world) (P : platform) (S0 : settings) (r : response)
        (cand : content).
Context (Halways : answersAlways W r) (Hok : ok r = true)
        (Hcand : head (candidates r) = Some cand)
        (Hauto : autoApprove S0 = true).

Let calls := getFunctionCallsFromCandidate P (Some cand).

Context (Hcalls : calls ≠ []).

Lemma body_answered : jsonBody r = Json (candidates r).
Proof.
  revert Hcand. clear. unfold candidates. by destruct (jsonBody r).
Qed.

Lemma fetchWithRetry_replied mdl withTools contents retries baseDelay c :
  fetchWithRetry W mdl withTools contents retries baseDelay c
  = (Responded r,
     Counters (S (fetches c)) (sleeps c) (approvals c) (toolRuns c),
     [EFetch mdl withTools contents]).
Proof.
  unfold fetchWithRetry. cbn [retryLoop]. unfold bind, fetch.
  rewrite Halways, Hok. done.
Qed.

Lemma callModel_replied contents c :
  callModel W contents (fallbackList S0) c
  = (Got (candidates r) (preferred S0),
     Counters (S (fetches c)) (sleeps c) (approvals c) (toolRuns c),
     [EFetch (preferred S0) true contents]).
Proof.
  destruct (DriverFacts.fallbackList_head S0) as [rest ->].
  cbn [callModel]. unfold bind.
  rewrite fetchWithRetry_replied, Hok, body_answered. done.
Qed.

Lemma callFinal_replied contents c :
  callFinal W contents (fallbackList S0) c
  = (Some (candidates r, preferred S0),
     Counters (S (fetches c)) (sleeps c) (approvals c) (toolRuns c),
     [EFetch (preferred S0) false contents]).
Proof.
  destruct (DriverFacts.fallbackList_head S0) as [rest ->].
  cbn [callFinal]. unfold bind.
  rewrite fetchWithRetry_replied, Hok, body_answered. done.
Qed.

Lemma executeRound_approved round candidate cls contents tab counter sig c :
  let out := executeRound W S0 round candidate cls contents tab counter sig c in
  let ran := executeCalls W round cls tab c in
  out.1.1 = inr (LoopState
                   (contents ++ [candidateContent candidate;
                                 Content User (makeFunctionResponseParts ran.1.1.1)])
                   ran.1.1.2 sig counter) ∧
  out.1.2 = ran.1.2.
Proof.
  cbn zeta. unfold executeRound, bind, requestToolApproval. rewrite Hauto.
  unfold ret. cbn [fst snd negb].
  destruct (executeCalls W round cls tab c) as [[[results tab'] c3] e3]. done.
Qed.

(** A round of the loop when the repeat counter of the round is [k]:
    below the threshold the calls run, once each, and the loop goes on with
    the counter remembered; at the threshold the final answer is asked for
    and given. *)
Lemma roundBody_plan round ls c k :
  (detectRepeat P calls ls).1 = k →
  let out := roundBody W P S0 round ls c in
  (k < repeatThreshold calls →
   ∃ ls', out.1.1 = inr ls' ∧ (detectRepeat P calls ls').1 = S k ∧
          toolRuns out.1.2 = toolRuns c + length calls) ∧
  (repeatThreshold calls ≤ k →
   out.1.1 = inl (Answer (extractTextFromCandidate (Some cand)) (preferred S0)) ∧
   toolRuns out.1.2 = toolRuns c).
Proof.
  intros Hk out. subst out. unfold roundBody, bind.
  pose proof (compressIfNeeded_account W S0 (contents ls) 10000 c)
    as (_ & _ & _ & Ht1 & _).
  destruct (compressIfNeeded W S0 (contents ls) 10000 c) as [[cs c1] e1].
  cbn [fst snd] in *. rewrite callModel_replied. cbn [fst snd].
  set (c2 := Counters _ _ _ _).
  assert (toolRuns c2 = toolRuns c) as Ht2 by done.
  split.
  - intros Hbelow.
    rewrite DriverFacts.afterModel_below
      by (rewrite Hcand; fold calls; rewrite Hk; exact Hbelow).
    rewrite Hcand. fold calls.
    destruct calls as [|cl rest] eqn:Hc; [done|]. rewrite <- Hc in *.
    destruct (executeRound_approved round (Some cand) calls cs (currentTabId ls)
                (detectRepeat P calls ls).1 (detectRepeat P calls ls).2 c2)
      as [Hres Hcount].
    pose proof (executeCalls_account W round calls (currentTabId ls) c2)
      as (_ & _ & _ & Ht3 & _).
    destruct (executeRound W S0 round (Some cand) calls cs (currentTabId ls)
                (detectRepeat P calls ls).1 (detectRepeat P calls ls).2 c2)
      as [[res c3] e3].
    cbn [fst snd] in *. subst res c3. eexists. split; [done|].
    split; [|lia].
    rewrite DriverFacts.detectRepeat_signature, Hk.
    unfold detectRepeat. cbn [lastCallSignature repeatCount].
    rewrite (bool_decide_eq_false_2 (calls = [])) by done.
    by rewrite bool_decide_eq_true_2.
  - intros Hforced.
    rewrite DriverFacts.afterModel_forced
      by (rewrite Hcand; fold calls; rewrite Hk; exact Hforced).
    cbn zeta. rewrite callFinal_replied, Hcand. done.
Qed.

Lemma rounds_plan left : ∀ round ls c k,
  (detectRepeat P calls ls).1 = k → k ≤ repeatThreshold calls →
  let out := rounds W P S0 left round ls c in
  (left + k ≤ repeatThreshold calls →
   (∃ ls', out.1.1 = inr ls') ∧
   toolRuns out.1.2 = toolRuns c + left * length calls) ∧
  (repeatThreshold calls < left + k →
   out.1.1 = inl (Answer (extractTextFromCandidate (Some cand)) (preferred S0)) ∧
   toolRuns out.1.2
   = toolRuns c + (repeatThreshold calls - k) * length calls).
Proof.
  induction left as [|left IH]; intros round ls c k Hk Hle; cbn zeta.
  { simpl. split; [|lia]. intros _. split; [by eexists|lia]. }
  cbn [rounds]. unfold bind.
  destruct (roundBody_plan round ls c k Hk) as [Hbelow Hforced].
  destruct (roundBody W P S0 round ls c) as [[res c1] e1]. cbn [fst snd] in *.
  destruct (decide (k < repeatThreshold calls)) as [Hlt|Hge].
  - destruct (Hbelow Hlt) as (ls' & -> & Hk' & Ht).
    destruct (IH (S round) ls' c1 (S k) Hk' ltac:(lia)) as [Hon Hstop].
    destruct (rounds W P S0 left (S round) ls' c1) as [[res2 c2] e2].
    cbn [fst snd] in *. split.
    + intros Hroom. destruct (Hon ltac:(lia)) as [? Ht2]. split; [done|].
      rewrite Ht2, Ht. lia.
    + intros Hover. destruct (Hstop ltac:(lia)) as [? Ht2]. split; [done|].
      rewrite Ht2, Ht.
      replace (repeatThreshold calls - k)
        with (S (repeatThreshold calls - S k)) by lia. lia.
  - destruct (Hforced ltac:(lia)) as [-> Ht]. unfold ret. cbn [fst snd].
    split; [lia|]. intros _. split; [done|].
    replace (repeatThreshold calls - k) with 0 by lia. lia.
Qed.


End Plan.

End AccountingFacts.

Module StreamFacts.

Import Driver Extract Stream.

Lemma splitLines_cons u s :
  splitLines (u :: s) =
  match splitLines s with
  | line :: lines =>
      if (u =? 10)%N then [] :: line :: lines else (u :: line) :: lines
  | [] => [[u]]
  end.
Proof. done. Qed.

Lemma splitLines_nonempty s : splitLines s ≠ [].
Proof.
  destruct s as [|u s]; [done|]. rewrite splitLines_cons.
  destruct (splitLines s); [done|]. by destruct (u =? 10)%N.
Qed.

(** The last line of a text is where the text that follows goes on. *)
Lemma splitLines_app x : ∀ lines buf y,
  splitLines x = lines ++ [buf] →
  splitLines (x ++ y) = lines ++ splitLines (buf ++ y).
Proof.
  induction x as [|u x IH]; intros lines buf y Hx.
  - destruct lines as [|l [|? ?]]; [|done..]. by injection Hx as <-.
  - rewrite splitLines_cons in Hx. rewrite <- app_comm_cons, splitLines_cons.
    destruct (splitLines x) as [|line rest] eqn:Ex;
      [by apply splitLines_nonempty in Ex|].
    destruct (exists_last (l := line :: rest)) as (front & b & Hsplit); [done|].
    rewrite Hsplit in *. rewrite (IH front b y eq_refl).
    destruct (u =? 10)%N eqn:Hu.
    + rewrite app_comm_cons in Hx. apply app_inj_tail in Hx as [<- <-].
      pose proof (splitLines_nonempty (b ++ y)).
      by destruct front, (splitLines (b ++ y)).
    + destruct front as [|f front]; simpl in *.
      * injection Hsplit as -> ->.
        destruct lines as [|l [|? ?]]; [|done..]. injection Hx as <-.
        rewrite app_nil_l, <- app_comm_cons, splitLines_cons, Hu. done.
      * injection Hsplit as -> ->. rewrite app_comm_cons in Hx.
        apply app_inj_tail in Hx as [<- <-]. done.
Qed.

Lemma splitLines_no_feed s : 10%N ∉ s → splitLines s = [s].
Proof.
  induction s as [|u s IH]; [done|]. intros Hno.
  apply not_elem_of_cons in Hno as [Hu Hs].
  rewrite splitLines_cons, IH by done.
  by destruct (N.eqb_spec u 10).
Qed.

Lemma splitLines_lines s : Forall (λ line, 10%N ∉ line) (splitLines s).
Proof.
  induction s as [|u s IH].
  { constructor; [apply not_elem_of_nil|constructor]. }
  rewrite splitLines_cons. destruct (splitLines s) as [|line rest] eqn:E.
  - by apply splitLines_nonempty in E.
  - apply Forall_cons in IH as [Hline Hrest].
    destruct (N.eqb_spec u 10) as [->|Hu].
    + constructor; [apply not_elem_of_nil|by constructor].
    + constructor; [|done]. by apply not_elem_of_cons.
Qed.

Lemma pop_snoc {A} (lines : list A) (x : A) : pop (lines ++ [x]) = (lines, Some x).
Proof.
  unfold pop. rewrite last_snoc, length_app. simpl.
  replace (pred (length lines + 1)) with (length lines) by lia.
  by rewrite take_app_length.
Qed.

Section Reader.

Context (parse : jsstring → option (list content)).

Lemma readChunks_lines chunks : ∀ buf,
  10%N ∉ buf →
  readChunks parse buf chunks
  = concat (map (onLine parse) (completeLines (buf ++ concat chunks))).
Proof.
  induction chunks as [|chunk rest IH]; intros buf Hbuf.
  - simpl. rewrite app_nil_r. unfold completeLines.
    rewrite (splitLines_no_feed buf Hbuf). done.
  - cbn [readChunks concat]. unfold feed.
    destruct (exists_last (l := splitLines (buf ++ chunk)))
      as (lines & buf' & Hsplit); [apply splitLines_nonempty|].
    rewrite Hsplit, pop_snoc. simpl default.
    assert (10%N ∉ buf') as Hbuf'.
    { pose proof (splitLines_lines (buf ++ chunk)) as Hall.
      rewrite Hsplit, Forall_app, Forall_singleton in Hall. tauto. }
    rewrite (IH buf' Hbuf'). unfold completeLines.
    rewrite (assoc_L (++)), (splitLines_app _ _ _ _ Hsplit).
    destruct (exists_last (l := splitLines (buf' ++ concat rest)))
      as (lines' & buf'' & Hsplit'); [apply splitLines_nonempty|].
    rewrite Hsplit', (assoc_L (++)), !pop_snoc. simpl.
    by rewrite map_app, concat_app.
Qed.

Lemma readChunks_by_line chunks :
  readChunks parse [] chunks
  = concat (map (onLine parse) (completeLines (concat chunks))) ∧
  (∀ tail, 10%N ∉ tail →
           readChunks parse [] (chunks ++ [tail]) = readChunks parse [] chunks).
Proof.
  assert (∀ cs, readChunks parse [] cs
                = concat (map (onLine parse) (completeLines (concat cs))))
    as Hlines.
  { intros cs. rewrite (readChunks_lines cs []); [done|apply not_elem_of_nil]. }
  split; [done|].
  intros tail Htail. rewrite !Hlines, concat_app. simpl.
  rewrite app_nil_r. unfold completeLines.
  destruct (exists_last (l := splitLines (concat chunks)))
    as (lines & buf & Hsplit); [apply splitLines_nonempty|].
  rewrite (splitLines_app _ _ _ _ Hsplit), Hsplit.
  rewrite (splitLines_no_feed (buf ++ tail)), !pop_snoc; [done|].
  pose proof (splitLines_lines (concat chunks)) as Hall.
  rewrite Hsplit, Forall_app, Forall_singleton in Hall.
  rewrite elem_of_app. tauto.
Qed.

(** X11: with a key and an ok response, what the streaming client yields
    depends on the text streamed and not on how the chunks cut it: the
    items are those of the lines that a line feed ends, in order.  A last
    line that no line feed ends is never read: what arrives after the last
    line feed yields nothing. *)
Theorem generateContentStream_by_line apiKey resp :
  apiKey ≠ [] → (200 ≤ s_status resp ≤ 299)%Z →
  generateContentStream parse apiKey resp
  = concat (map (onLine parse) (completeLines (concat (s_chunks resp)))) ∧
  (∀ text chunks',
     concat chunks' = concat (s_chunks resp) →
     generateContentStream parse apiKey (Streamed (s_status resp) text chunks')
     = generateContentStream parse apiKey resp) ∧
  (∀ tail,
     10%N ∉ tail →
     generateContentStream parse apiKey
       (Streamed (s_status resp) (s_text resp) (s_chunks resp ++ [tail]))
     = generateContentStream parse apiKey resp).
Proof.
  intros Hkey Hok.
  assert (∀ text chunks,
            generateContentStream parse apiKey
              (Streamed (s_status resp) text chunks)
            = readChunks parse [] chunks) as Hread.
  { intros text chunks. unfold generateContentStream. simpl.
    rewrite bool_decide_eq_false_2 by done.
    destruct (Z.leb_spec 200 (s_status resp)); [|lia].
    by destruct (Z.leb_spec (s_status resp) 299); [|lia]. }
  destruct resp as [st text chunks]. simpl in *.
  split_and!.
  - rewrite Hread. apply readChunks_by_line.
  - intros text' chunks' Hsame. rewrite !Hread.
    by rewrite !(proj1 (readChunks_by_line _)), Hsame.
  - intros tail Htail. rewrite !Hread. by apply readChunks_by_line.
Qed.

End Reader.

Lemma generateContentStream_by_line_witness :
  lit "key" ≠ [] ∧ (200 ≤ s_status sampleStream ≤ 299)%Z ∧
  generateContentStream sampleEvents (lit "key") sampleStream
  = concat (map (onLine sampleEvents)
              (completeLines (concat (s_chunks sampleStream)))).
Proof.
  assert (lit "key" ≠ []) as Hkey by done.
  assert (200 ≤ s_status sampleStream ≤ 299)%Z as Hok by (simpl; lia).
  split; [exact Hkey|]. split; [exact Hok|].
  exact (proj1 (generateContentStream_by_line sampleEvents (lit "key")
                  sampleStream Hkey Hok)).
Defined.

(** The sample stream yields the first "hi" and nothing else. *)
Example sample_stream_items :
  generateContentStream sampleEvents (lit "key") sampleStream
  = [IText (lit "hi")].
Proof. vm_compute. done. Qed.

End StreamFacts.

Module FramesFacts.

Import Driver Extract Frames.

(** *** Runs of characters *)

Section Runs.

Context (c : N → bool).

Lemma maxRun_ge_cur s : ∀ cur, cur ≤ maxRun c cur s.
Proof.
  induction s as [|u s IH]; intros cur; simpl; [done|].
  destruct (c u); [|lia]. specialize (IH (S cur)). lia.
Qed.

Lemma maxRun_mono_cur s : ∀ cur cur', cur ≤ cur' → maxRun c cur s ≤ maxRun c cur' s.
Proof.
  induction s as [|u s IH]; intros cur cur' Hle; simpl; [done|].
  destruct (c u); [apply IH|]; lia.
Qed.

Lemma maxRun_all span : ∀ cur s,
  Forall (λ u, c u = true) span →
  maxRun c cur (span ++ s) = maxRun c (cur + length span) s.
Proof.
  induction span as [|u span IH]; intros cur s Hall; simpl.
  { by rewrite Nat.add_0_r. }
  apply Forall_cons in Hall as [-> Hall]. rewrite IH by done. f_equal. lia.
Qed.

Lemma maxRun_suffix a : ∀ cur s, maxRun c 0 s ≤ maxRun c cur (a ++ s).
Proof.
  induction a as [|u a IH]; intros cur s; simpl.
  { apply maxRun_mono_cur. lia. }
  destruct (c u); [apply IH|]. specialize (IH 0 s). lia.
Qed.

Lemma maxRun_prefix a : ∀ cur s, maxRun c cur a ≤ maxRun c cur (a ++ s).
Proof.
  induction a as [|u a IH]; intros cur s; simpl; [apply maxRun_ge_cur|].
  destruct (c u); [apply IH|]. specialize (IH 0 s). lia.
Qed.

Lemma longestRun_infix a s b : longestRun c s ≤ longestRun c (a ++ s ++ b).
Proof.
  unfold longestRun. etrans; [apply (maxRun_prefix s 0 b)|].
  apply maxRun_suffix.
Qed.

Context (repl : jsstring).

Lemma collapseRuns_runs s : ∀ span,
  Forall (λ u, c u = true) repl → length repl ≤ 2 →
  Forall (λ u, c u = true) span →
  longestRun c (collapseRuns c repl span s) ≤ 2.
Proof.
  unfold longestRun. induction s as [|u s IH]; intros span Hrepl Hlen Hspan.
  - simpl. unfold flush. destruct (Nat.leb_spec 3 (length span)).
    + rewrite <- (app_nil_r repl), maxRun_all by done. simpl. lia.
    + rewrite <- (app_nil_r span), maxRun_all by done. simpl. lia.
  - simpl. destruct (c u) eqn:Hu.
    + apply IH; [done..|]. apply Forall_app. split; [done|]. by constructor.
    + assert (Forall (λ u, c u = true) (flush repl span) ∧
              length (flush repl span) ≤ 2) as [Hall Hshort].
      { unfold flush. destruct (Nat.leb_spec 3 (length span)); split;
          first [done|lia]. }
      rewrite maxRun_all by done. simpl. rewrite Hu.
      specialize (IH [] Hrepl Hlen ltac:(constructor)). lia.
Qed.

Lemma collapseRuns_fixed s : ∀ span,
  Forall (λ u, c u = true) span →
  longestRun c (span ++ s) ≤ 2 →
  collapseRuns c repl span s = span ++ s.
Proof.
  unfold longestRun. induction s as [|u s IH]; intros span Hspan Hshort.
  - simpl. rewrite maxRun_all in Hshort by done. simpl in Hshort.
    rewrite app_nil_r. unfold flush.
    by destruct (Nat.leb_spec 3 (length span)); [lia|].
  - simpl. rewrite maxRun_all in Hshort by done. simpl in Hshort.
    destruct (c u) eqn:Hu.
    + rewrite IH, <- (assoc_L (++)); [done| |].
      * apply Forall_app. split; [done|]. by constructor.
      * rewrite maxRun_all; [|apply Forall_app; split; [done|by constructor]].
        rewrite length_app. simpl.
        by replace (length span + 1) with (S (length span)) by lia.
    + rewrite (IH []); [|constructor|simpl; lia]. unfold flush.
      by destruct (Nat.leb_spec 3 (length span)); [lia|].
Qed.

Lemma collapseRuns_length s : ∀ span,
  length repl ≤ 3 →
  length (collapseRuns c repl span s) ≤ length span + length s.
Proof.
  induction s as [|u s IH]; intros span Hrepl; simpl.
  - unfold flush. destruct (Nat.leb_spec 3 (length span)); lia.
  - destruct (c u).
    + specialize (IH (span ++ [u]) Hrepl). rewrite length_app in IH.
      simpl in IH. lia.
    + specialize (IH [] Hrepl). rewrite length_app. simpl in *.
      unfold flush. destruct (Nat.leb_spec 3 (length span)); lia.
Qed.

Lemma collapseRuns_others s : ∀ span,
  Forall (λ u, c u = true) repl → Forall (λ u, c u = true) span →
  filter (λ u, c u = false) (collapseRuns c repl span s)
  = filter (λ u, c u = false) s.
Proof.
  assert (∀ l, Forall (λ u, c u = true) l → filter (λ u, c u = false) l = [])
    as Hnone.
  { induction l as [|u l IH]; [done|]. intros [Hu Hl]%Forall_cons.
    rewrite filter_cons_False by congruence. by apply IH. }
  unfold jsstring.
  induction s as [|u s IH]; intros span Hrepl Hspan; cbn [collapseRuns].
  - rewrite Hnone; [done|]. unfold flush. by destruct (_ <=? _).
  - destruct (c u) eqn:Hu.
    + rewrite filter_cons_False by congruence. apply IH; [done|].
      apply Forall_app. split; [done|]. by constructor.
    + rewrite filter_app, Hnone, !filter_cons_True, IH by
        first [done|constructor|unfold flush; by destruct (_ <=? _)].
      done.
Qed.

End Runs.

Lemma maxRun_weaken (c c' : N → bool) s : ∀ cur,
  (∀ u, c u = true → c' u = true) → maxRun c cur s ≤ maxRun c' cur s.
Proof.
  induction s as [|u s IH]; intros cur Himp; simpl; [done|].
  destruct (c u) eqn:Hu.
  - rewrite (Himp u Hu). by apply IH.
  - specialize (IH 0 Himp). destruct (c' u); [|lia].
    pose proof (maxRun_ge_cur c' s (S cur)).
    pose proof (maxRun_mono_cur c' s 0 (S cur) ltac:(lia)). lia.
Qed.

(** *** Trimming *)

Lemma trimStart_suffix s : trimStart s `suffix_of` s.
Proof.
  induction s as [|u s IH]; simpl; [done|].
  destruct (isSpace u); [by apply suffix_cons_r|done].
Qed.

Lemma trimStart_head s u : head (trimStart s) = Some u → isSpace u = false.
Proof.
  induction s as [|v s IH]; simpl; [done|].
  destruct (isSpace v) eqn:Hv; [done|]. simpl. by intros [= <-].
Qed.

Lemma trimStart_fixed s :
  (∀ u, head s = Some u → isSpace u = false) → trimStart s = s.
Proof. destruct s as [|u s]; simpl; [done|]. intros H. by rewrite (H u). Qed.

Lemma trim_infix s : ∃ a b, s = a ++ trim s ++ b.
Proof.
  unfold trim. destruct (trimStart_suffix s) as [a Ha].
  destruct (trimStart_suffix (reverse (trimStart s))) as [b Hb].
  exists a, (reverse b). rewrite Ha at 1. f_equal.
  rewrite <- reverse_app, <- Hb. by rewrite reverse_involutive.
Qed.

Lemma trim_trimmed s : trimmed (trim s).
Proof.
  unfold trim. split; intros u.
  - rewrite head_reverse. intros Hlast.
    destruct (trimStart_suffix (reverse (trimStart s))) as [b Hb].
    apply (trimStart_head s).
    rewrite <- last_reverse, Hb, last_app, Hlast. done.
  - rewrite last_reverse. apply trimStart_head.
Qed.

Lemma trim_fixed s : trimmed s → trim s = s.
Proof.
  intros [Hhead Hlast]. unfold trim.
  rewrite (trimStart_fixed s Hhead), trimStart_fixed, reverse_involutive; [done|].
  intros u. rewrite head_reverse. apply Hlast.
Qed.

Lemma trim_length s : length (trim s) ≤ length s.
Proof.
  destruct (trim_infix s) as (a & b & Hs). rewrite Hs at 2.
  rewrite !length_app. lia.
Qed.

Lemma longestRun_trim c s : longestRun c (trim s) ≤ longestRun c s.
Proof.
  destruct (trim_infix s) as (a & b & Hs). rewrite Hs at 2.
  apply longestRun_infix.
Qed.

Lemma trimStart_others (s : list N) :
  filter (λ u, isSpace u = false) (trimStart s)
  = filter (λ u, isSpace u = false) s.
Proof.
  induction s as [|u s IH]; simpl; [done|].
  destruct (isSpace u) eqn:Hu; [|done].
  by rewrite filter_cons_False by congruence.
Qed.

Lemma trim_others (s : list N) :
  filter (λ u, isSpace u = false) (trim s) = filter (λ u, isSpace u = false) s.
Proof.
  unfold trim, jsstring.
  by rewrite filter_reverse, trimStart_others, filter_reverse,
    reverse_involutive, trimStart_others.
Qed.

Lemma filter_filter_sub (c c' : N → bool) (l : list N) :
  (∀ u, c' u = false → c u = false) →
  filter (λ u, c' u = false) (filter (λ u, c u = false) l)
  = filter (λ u, c' u = false) l.
Proof.
  intros Hsub. induction l as [|u l IH]; [done|].
  destruct (c' u) eqn:Hu'.
  - rewrite (filter_cons_False (λ u, c' u = false)) by congruence.
    destruct (c u) eqn:Hu.
    + by rewrite filter_cons_False by congruence.
    + rewrite filter_cons_True by done.
      by rewrite filter_cons_False by congruence.
  - rewrite !filter_cons_True by auto. by rewrite IH.
Qed.

Lemma lineFeed_space u : isLineFeed u = true → isSpace u = true.
Proof. unfold isLineFeed. by intros ->%N.eqb_eq. Qed.

Lemma tidy_facts text :
  longestRun isLineFeed (tidy text) ≤ 2 ∧
  trimmed (tidy text) ∧
  length (tidy text) ≤ length text ∧
  filter (λ u, isSpace u = false) (tidy text)
  = filter (λ u, isSpace u = false) text ∧
  (∀ t, longestRun isLineFeed t ≤ 2 → trimmed t → tidy t = t) ∧
  tidy (tidy text) = tidy text.
Proof.
  assert (Forall (λ u, isLineFeed u = true) [10; 10]%N) as Hrepl
    by (by repeat constructor).
  assert (longestRun isLineFeed (tidy text) ≤ 2) as Hruns.
  { unfold tidy. etrans; [apply longestRun_trim|].
    apply collapseRuns_runs; [done|simpl; lia|constructor]. }
  assert (∀ t, longestRun isLineFeed t ≤ 2 → trimmed t → tidy t = t) as Hfixed.
  { intros t Ht Htrim. unfold tidy, normalizeBreaks.
    rewrite collapseRuns_fixed by (done || constructor). by apply trim_fixed. }
  split_and!; [done|apply trim_trimmed| | |done|].
  - unfold tidy. etrans; [apply trim_length|].
    apply (collapseRuns_length isLineFeed [10; 10]%N text []). simpl. lia.
  - assert (∀ u, isSpace u = false → isLineFeed u = false) as Hsub.
    { intros u Hu. destruct (isLineFeed u) eqn:Hl; [|done].
      apply lineFeed_space in Hl. congruence. }
    unfold tidy. rewrite trim_others.
    rewrite <- (filter_filter_sub isLineFeed isSpace (normalizeBreaks text))
      by done.
    unfold normalizeBreaks.
    rewrite collapseRuns_others; [|done|constructor].
    by apply filter_filter_sub.
  - apply Hfixed; [done|apply trim_trimmed].
Qed.

(** X12: the text an extraction returns has no three line feeds in a row
    and neither starts nor ends with white space.  Tidying a text removes
    line feeds from runs of three or more and white space at the ends and
    nothing else: every other character stays, in order, and the text gets
    no longer; a text that is tidy already is left as it is. *)
Theorem tidy_normal text :
  longestRun isLineFeed (tidy text) ≤ 2 ∧
  trimmed (tidy text) ∧
  length (tidy text) ≤ length text ∧
  filter (λ u, isSpace u = false) (tidy text)
  = filter (λ u, isSpace u = false) text ∧
  (∀ t, longestRun isLineFeed t ≤ 2 → trimmed t → tidy t = t) ∧
  tidy (tidy text) = tidy text.
Proof. apply tidy_facts. Qed.

(** X13: the method [clean] of [getAllContent] returns a text without
    three white-space characters in a row, and so without three line
    feeds, that neither starts nor ends with white space; it is no longer
    than the body text, and cleaning a cleaned text changes nothing. *)
Theorem cleanText_normal body :
  longestRun isSpace (cleanText body) ≤ 2 ∧
  longestRun isLineFeed (cleanText body) ≤ 2 ∧
  trimmed (cleanText body) ∧
  length (cleanText body) ≤ length body ∧
  cleanText (cleanText body) = cleanText body.
Proof.
  assert (longestRun isSpace (cleanText body) ≤ 2) as Hspaces.
  { unfold cleanText. etrans; [apply longestRun_trim|].
    apply collapseRuns_runs; [by repeat constructor|simpl; lia|constructor]. }
  assert (longestRun isLineFeed (cleanText body) ≤ 2) as Hbreaks.
  { etrans; [|exact Hspaces]. apply maxRun_weaken, lineFeed_space. }
  split_and!; [done|done|apply trim_trimmed| |].
  - unfold cleanText. etrans; [apply trim_length|].
    etrans; [apply (collapseRuns_length isSpace [32%N] _ []); simpl; lia|].
    apply (collapseRuns_length isLineFeed [10; 10]%N body []). simpl. lia.
  - unfold cleanText at 1. unfold normalizeBreaks, normalizeSpaces.
    rewrite (collapseRuns_fixed isLineFeed) by (done || constructor).
    rewrite (collapseRuns_fixed isSpace) by (done || constructor).
    apply trim_fixed, trim_trimmed.
Qed.


(** *** The texts of the frames *)

Lemma foldl_longer texts : ∀ best,
  (foldl longer best texts = best ∨ foldl longer best texts ∈ texts) ∧
  length best ≤ length (foldl longer best texts) ∧
  ∀ t, t ∈ texts → length t ≤ length (foldl longer best texts).
Proof.
  induction texts as [|t texts IH]; intros best; simpl.
  { split_and!; [by left|done|]. by intros t ?%elem_of_nil. }
  destruct (IH (longer best t)) as (Hin & Hle & Hall).
  assert (length best ≤ length (longer best t) ∧
          length t ≤ length (longer best t) ∧
          (longer best t = best ∨ longer best t = t)) as (? & ? & Hor).
  { unfold longer. destruct (Nat.ltb_spec (length best) (length t));
      split_and!; first [lia|by left|by right]. }
  split_and!.
  - destruct Hin as [->|Hin]; [|right; by right].
    destruct Hor as [->| ->]; [by left|right; by left].
  - lia.
  - intros x [->|Hx]%elem_of_cons; [lia|by apply Hall].
Qed.

Lemma join_length_ge sep (texts : list jsstring) t :
  t ∈ texts → length t ≤ length (join sep texts).
Proof.
  destruct texts as [|x rest]; [by intros ?%elem_of_nil|].
  simpl. rewrite length_app. intros [->|Hin]%elem_of_cons; [lia|].
  induction rest as [|y rest IH]; [by apply elem_of_nil in Hin|].
  simpl. rewrite !length_app.
  apply elem_of_cons in Hin as [->|Hin]; [lia|]. specialize (IH Hin). lia.
Qed.

Lemma combineFrames_facts frameTexts :
  let allTexts := filter (λ t, 50 < length t) frameTexts in
  let out := combineFrames frameTexts in
  (allTexts = [] → out = []) ∧
  (∀ t, allTexts = [t] → out = t) ∧
  (∀ t, t ∈ frameTexts → 50 < length t → length t ≤ length out) ∧
  (out ≠ [] → 50 < length out) ∧
  (out = [] ∨ out ∈ allTexts ∨
   (1 < length allTexts ∧ out = join frameSeparator allTexts ∧
    ∀ t, t ∈ allTexts → 6 * length t < 5 * length out)).
Proof.
  intros allTexts out. subst out. unfold combineFrames. fold allTexts.
  destruct (foldl_longer allTexts []) as (Hin & _ & Hall).
  set (best := foldl longer [] allTexts) in *.
  assert (∀ t, t ∈ allTexts → 50 < length t) as Hbig.
  { intros t Ht. by apply list_elem_of_filter in Ht as [? _]. }
  assert (∀ t, t ∈ frameTexts → 50 < length t → t ∈ allTexts) as Hkept.
  { intros t ??. by apply list_elem_of_filter. }
  destruct (Nat.ltb_spec 1 (length allTexts)) as [Hmany|Hfew].
  - assert (best ∈ allTexts) as Hbest.
    { destruct Hin as [Hnil|]; [|done].
      destruct allTexts as [|t rest]; [simpl in Hmany; lia|].
      specialize (Hall t ltac:(by left)). specialize (Hbig t ltac:(by left)).
      rewrite Hnil in Hall. simpl in Hall. lia. }
    destruct (Nat.ltb_spec (6 * length best)
                (5 * length (join frameSeparator allTexts))) as [Hjoin|Hkeep].
    + split_and!.
      * intros Hnil. rewrite Hnil in Hmany. simpl in Hmany. lia.
      * intros t Ht. rewrite Ht in Hmany. simpl in Hmany. lia.
      * intros t Ht Hlen. specialize (Hall t (Hkept t Ht Hlen)). lia.
      * intros _. specialize (Hbig best Hbest). lia.
      * right. right. split_and!; [done..|].
        intros t Ht. specialize (Hall t Ht). lia.
    + split_and!.
      * intros Hnil. rewrite Hnil in Hmany. simpl in Hmany. lia.
      * intros t Ht. rewrite Ht in Hmany. simpl in Hmany. lia.
      * intros t Ht Hlen. by apply Hall, Hkept.
      * intros _. by apply Hbig.
      * right. by left.
  - split_and!.
    + intros Hnil. subst best. by rewrite Hnil.
    + intros t Ht. subst best. rewrite Ht. simpl. unfold longer.
      specialize (Hbig t ltac:(rewrite Ht; by left)).
      by destruct (Nat.ltb_spec (length (@nil N)) (length t)); [|simpl in *; lia].
    + intros t Ht Hlen. by apply Hall, Hkept.
    + intros Hne. destruct Hin as [?|Hbest]; [done|by apply Hbig].
    + destruct Hin as [?|Hbest]; [by left|right; by left].
Qed.

(** X14: [extractTextAllFrames] combines the texts of the frames, each
    tidied, into nothing, when no frame has more than 50 characters, or
    into a text of more than 50 characters that is no shorter than the text
    of any such frame: the first longest of them, or, if they are several
    and it is more than a fifth longer than the longest, all of them joined
    by the separator, in the order of the frames.  One such frame alone
    gives its text. *)
Theorem extractTextAllFrames_longest selector frames :
  let frameTexts := map (frameText selector) frames in
  let allTexts := filter (λ t, 50 < length t) frameTexts in
  let out := extractTextAllFrames selector frames in
  (allTexts = [] → out = []) ∧
  (∀ t, allTexts = [t] → out = t) ∧
  (∀ t, t ∈ frameTexts → 50 < length t → length t ≤ length out) ∧
  (out ≠ [] → 50 < length out) ∧
  (out = [] ∨ out ∈ allTexts ∨
   (1 < length allTexts ∧ out = join frameSeparator allTexts ∧
    ∀ t, t ∈ allTexts → 6 * length t < 5 * length out)) ∧
  Forall (λ t, trimmed t ∧ longestRun isLineFeed t ≤ 2) frameTexts.
Proof.
  intros frameTexts allTexts out.
  destruct (combineFrames_facts frameTexts) as (H1 & H2 & H3 & H4 & H5).
  split_and!; [done..|].
  subst frameTexts. apply Forall_fmap, Forall_forall. intros pg _. simpl.
  unfold frameText. split; apply tidy_facts.
Qed.

(** The article of 400 characters is returned alone: joined with the
    banner of 60 it would be 467 characters, less than a fifth more. *)
Example sample_frames_combined :
  combineFrames sampleFrames = replicate 400 97%N.
Proof. vm_compute. done. Qed.

(** *** The fallbacks of the background *)

Lemma firstAlternative_spec pr bound selectors :
  let out := firstAlternative pr bound selectors in
  (∀ t, out.1 = Some t → bound < length t ∧
                         ∃ p, p ∈ out.2 ∧ probeText pr p = t) ∧
  (out.1 = None →
   Forall (λ p, length (probeText pr p) ≤ bound) out.2 ∧
   out.2 = map Alternative selectors) ∧
  Scrolled ∉ out.2.
Proof.
  induction selectors as [|sel rest IH]; simpl.
  { split_and!; [done|by split|apply not_elem_of_nil]. }
  destruct (Nat.ltb_spec bound (length (alternative pr sel))) as [Hlong|Hshort].
  - simpl. split_and!.
    + intros t [= <-]. split; [done|]. exists (Alternative sel).
      split; [by left|done].
    + done.
    + by intros [=]%list_elem_of_singleton.
  - destruct (firstAlternative pr bound rest) as [found tried].
    simpl in *. destruct IH as (Hsome & Hnone & Hno). split_and!.
    + intros t Ht. destruct (Hsome t Ht) as (? & p & ? & ?).
      split; [done|]. exists p. split; [by right|done].
    + intros Hn. destruct (Hnone Hn) as [Hall ->].
      split; [by constructor|done].
    + by intros [[=]|?]%elem_of_cons.
Qed.

Lemma extractTextFallback_facts currentText scroll pr :
  let out := extractTextFallback currentText scroll pr in
  (∀ t, out.1 = Some t →
        length currentText < length t ∧ ∃ p, p ∈ out.2 ∧ probeText pr p = t) ∧
  (out.1 = None →
   Forall (λ p, length (probeText pr p) ≤ length currentText) out.2) ∧
  (300 ≤ length currentText → out = (None, [])) ∧
  (Scrolled ∈ out.2 ↔
   length currentText < 300 ∧
   length (allFrames pr) ≤ length currentText ∧ scroll = false).
Proof.
  intros out. subst out. unfold extractTextFallback.
  destruct (Nat.ltb_spec (length currentText) 300) as [Hthin|Hfull];
    [|split_and!; [done|done|done|];
      split; [by intros ?%elem_of_nil|lia]].
  destruct (Nat.ltb_spec (length currentText) (length (allFrames pr)))
    as [Hframes|Hnot].
  { simpl. split_and!.
    - intros t [= <-]. split; [done|]. exists AllFrames. split; [by left|done].
    - done.
    - lia.
    - split; [|lia]. by intros [=]%list_elem_of_singleton. }
  replace (length currentText `max` length (allFrames pr))
    with (length currentText) by lia.
  assert ((length (allFrames pr) <? 500) = true) as ->
    by (apply Nat.ltb_lt; lia).
  rewrite andb_true_r.
  pose proof (firstAlternative_spec pr (length currentText)
                alternativeSelectors) as (Hsome & Hnone & Hno).
  destruct (firstAlternative pr (length currentText) alternativeSelectors)
    as [found' tried'].
  simpl in Hsome, Hnone, Hno.
  destruct scroll; simpl.
  - destruct (length (allFrames pr) <? 200); simpl; split_and!; try done;
      try lia.
    + intros t Ht. destruct (Hsome t Ht) as (? & p & ? & ?).
      split; [done|]. exists p. split; [by right|done].
    + intros Hn. destruct (Hnone Hn) as [Hall _]. by constructor.
    + split; [|by intros (_ & _ & [=])].
      by intros [[=]|?]%elem_of_cons.
    + intros _. by repeat constructor.
    + split; [|by intros (_ & _ & [=])].
      by intros [=]%list_elem_of_singleton.
  - destruct (Nat.ltb_spec (length currentText) (length (scrolled pr)))
      as [Hscroll|Hnoscroll]; simpl.
    + split_and!; try done; try lia.
      * intros t [= <-]. split; [done|]. exists Scrolled.
        split; [right; by left|done].
      * split; [done|]. intros _. right. by left.
    + destruct (length (allFrames pr) <? 200); simpl; split_and!; try done;
        try lia.
      * intros t Ht. destruct (Hsome t Ht) as (? & p & ? & ?).
        split; [done|]. exists p. split; [right; by right|done].
      * intros Hn. destruct (Hnone Hn) as [Hall _]. by repeat constructor.
      * split; [done|]. intros _. right. by left.
      * intros _. by repeat constructor.
      * split; [done|]. intros _. right. by left.
Qed.

(** X15: when the content script finds fewer than 300 characters, the
    background replaces its result only by a text that is strictly longer
    than what it found, taken from one of the extractions it tried; when it
    keeps the result, none of those it tried had found more.  With 300
    characters or more nothing is tried.  The content script is asked again
    with scrolling exactly when it found fewer than 300 characters, the
    extraction over all frames found no more and scrolling had not been
    asked for: the test of the all-frames text against 500 characters never
    decides. *)
Theorem extractText_fallback_longer currentText scroll pr :
  let out := extractTextFallback currentText scroll pr in
  (∀ t, out.1 = Some t →
        length currentText < length t ∧ ∃ p, p ∈ out.2 ∧ probeText pr p = t) ∧
  (out.1 = None →
   Forall (λ p, length (probeText pr p) ≤ length currentText) out.2) ∧
  (300 ≤ length currentText → out = (None, [])) ∧
  (Scrolled ∈ out.2 ↔
   length currentText < 300 ∧
   length (allFrames pr) ≤ length currentText ∧ scroll = false).
Proof. apply extractTextFallback_facts. Qed.

(** On the thin page every fallback is tried, in order, and the result of
    the content script is kept. *)
Example thin_page_keeps_result :
  extractTextFallback (replicate 120 97%N) false thinProbes
  = (None, [AllFrames; Scrolled; Alternative BodyElements;
            Alternative ContentOrText; Alternative Blocks]).
Proof. vm_compute. done. Qed.
End FramesFacts.

Module SearchFacts.

Import Search.

Lemma uniqueResults_spec results : ∀ seenHrefs count,
  let out := uniqueResults seenHrefs count results in
  NoDup (map r_href out) ∧
  (∀ r, r ∈ out → r_href r ∉ seenHrefs) ∧
  out `sublist_of` results ∧
  (count < 10 → count + length out ≤ 10) ∧
  (count + length out < 10 →
   ∀ r, r ∈ results → r_href r ∈ seenHrefs ∨ r_href r ∈ map r_href out).
Proof.
  induction results as [|r rest IH]; intros seenHrefs count; cbn zeta.
  { simpl. split_and!; try done; [constructor|by intros ? ?%elem_of_nil|lia|].
    by intros _ ? ?%elem_of_nil. }
  cbn [uniqueResults]. destruct (decide (r_href r ∈ seenHrefs)) as [Hseen|Hnew].
  - destruct (IH seenHrefs count) as (Hnd & Hout & Hsub & Hlen & Hall).
    split_and!; try done.
    + by apply sublist_cons.
    + intros Hroom x [->|Hx]%elem_of_cons; [by left|by apply Hall].
  - destruct (Nat.leb_spec 10 (S count)) as [Hfull|Hroom].
    + simpl. split_and!.
      * repeat constructor. apply not_elem_of_nil.
      * by intros x ->%list_elem_of_singleton.
      * apply sublist_skip, sublist_nil_l.
      * lia.
      * lia.
    + destruct (IH ({[r_href r]} ∪ seenHrefs) (S count))
        as (Hnd & Hout & Hsub & Hlen & Hall).
      split_and!.
      * simpl. constructor; [|done]. intros (x & Heq & Hx)%list_elem_of_fmap.
        apply Hout in Hx. set_solver.
      * intros x [->|Hx]%elem_of_cons; [done|]. apply Hout in Hx. set_solver.
      * by apply sublist_skip.
      * simpl. lia.
      * simpl. intros Hsmall x [->|Hx]%elem_of_cons; [right; by left|].
        destruct (Hall ltac:(lia) x Hx) as [Hin|Hin]; [|right; by right].
        apply elem_of_union in Hin as [->%elem_of_singleton|?];
          [right; by left|by left].
Qed.

Lemma scrollLoop_extends later left : ∀ attempt results,
  results `prefix_of` scrollLoop later left attempt results ∧
  (5 ≤ length results → scrollLoop later left attempt results = results).
Proof.
  induction left as [|left IH]; intros attempt results; simpl; [done|].
  destruct (Nat.ltb_spec (length results) 5); [|done].
  assert (results `prefix_of` addNew results (found (later attempt))) as Hadd
    by (by eexists).
  split; [|lia]. destruct (grew (later attempt)); [|done].
  etrans; [exact Hadd|]. apply IH.
Qed.

(** X16: [getSearchResults] returns at most ten results with pairwise
    different links, in the order in which the page showed them and each
    the first with its link; what the first look at the page found is
    never displaced by what a scroll adds, and five results or more at the
    first look mean no scroll.  Fewer than ten results are all the links
    there were. *)
Theorem getSearchResults_unique first later :
  let gathered := scrollLoop later 3 0 first in
  let out := getSearchResults first later in
  NoDup (map r_href out) ∧ length out ≤ 10 ∧
  out `sublist_of` gathered ∧ first `prefix_of` gathered ∧
  (5 ≤ length first → gathered = first) ∧
  (length out < 10 → ∀ r, r ∈ gathered → r_href r ∈ map r_href out) ∧
  (∀ r, head first = Some r → head out = Some r).
Proof.
  intros gathered out. subst out. unfold getSearchResults. fold gathered.
  destruct (uniqueResults_spec gathered ∅ 0) as (Hnd & _ & Hsub & Hlen & Hall).
  destruct (scrollLoop_extends later 3 0 first) as [Hpre Hsame].
  split_and!; try done.
  - simpl in Hlen. lia.
  - intros Hroom r Hr. destruct (Hall ltac:(simpl; lia) r Hr); [set_solver|done].
  - intros r Hr. apply head_Some in Hr as [rest ->].
    destruct Hpre as [more Hmore]. fold gathered in Hmore. rewrite Hmore.
    simpl. by destruct (decide (r_href r ∈ (∅ : gset string))); [set_solver|].
Qed.

(** On the sample page the repeated link is dropped and the scroll adds
    the one link that is new. *)
Example sample_results :
  map r_title (getSearchResults sampleFirst sampleLater) = ["A"; "B"; "C"].
Proof. vm_compute. done. Qed.

(** *** Matching a host *)

Lemma prefix_refl_app d b : String.prefix d (d +:+ b) = true.
Proof.
  induction d as [|a d IH]; [by destruct b|]. simpl.
  by destruct (ascii_dec a a).
Qed.

Lemma includes_prefix s d : String.prefix d s = true → Redirect.includes s d = true.
Proof. intros H. destruct s; simpl in *; by rewrite H. Qed.

Lemma includes_tail a s d :
  Redirect.includes s d = true → Redirect.includes (String a s) d = true.
Proof. intros H. simpl. rewrite H. apply orb_true_r. Qed.

Lemma includes_app a d b : Redirect.includes (a +:+ d +:+ b) d = true.
Proof.
  induction a as [|x a IH].
  - apply (includes_prefix (d +:+ b) d), prefix_refl_app.
  - apply includes_tail, IH.
Qed.

Lemma prefix_split d : ∀ s, String.prefix d s = true → ∃ b, s = d +:+ b.
Proof.
  induction d as [|x d IH]; intros s H; [by exists s|].
  destruct s as [|y s]; [done|]. simpl in H.
  destruct (ascii_dec x y) as [->|]; [|done].
  destruct (IH s H) as [b ->]. by exists b.
Qed.

Lemma includes_split s d :
  Redirect.includes s d = true → ∃ a b, s = a +:+ d +:+ b.
Proof.
  induction s as [|x s IH].
  - change (Redirect.includes "" d) with (String.prefix d "" || false).
    rewrite orb_false_r. intros H. apply prefix_split in H as [b Hb].
    by exists "", b.
  - change (Redirect.includes (String x s) d)
      with (String.prefix d (String x s) || Redirect.includes s d).
    intros [H|H]%orb_true_iff.
    + apply prefix_split in H as [b Hb]. by exists "", b.
    + destruct (IH H) as (a & b & ->). by exists (String x a), b.
Qed.

Lemma endsWith_split s suffix :
  endsWith s suffix = true → ∃ a, s = a +:+ suffix.
Proof.
  induction s as [|x s IH].
  - change (endsWith "" suffix) with (String.eqb "" suffix || false).
    rewrite orb_false_r. intros <-%String.eqb_eq. by exists "".
  - change (endsWith (String x s) suffix)
      with (String.eqb (String x s) suffix || endsWith s suffix).
    intros [<-%String.eqb_eq|H]%orb_true_iff; [by exists ""|].
    destruct (IH H) as [a ->]. by exists (String x a).
Qed.

Lemma string_app_assoc (a b c : string) : (a +:+ b) +:+ c = a +:+ b +:+ c.
Proof.
  induction a as [|x a IH]; [reflexivity|].
  change (String x ((a +:+ b) +:+ c) = String x (a +:+ b +:+ c)). by f_equal.
Qed.

Lemma string_app_nil_r (a : string) : a +:+ "" = a.
Proof.
  induction a as [|x a IH]; [reflexivity|].
  change (String x (a +:+ "") = String x a). by f_equal.
Qed.

Lemma includes_app_end a d : Redirect.includes (a +:+ d) d = true.
Proof.
  pose proof (includes_app a d "") as H. by rewrite string_app_nil_r in H.
Qed.

(** X17: a link matches the domain asked for exactly when its host name
    contains the normalised domain somewhere: the tests for equality and
    for a sub-domain add nothing to the test for a substring.  So
    [cnn.com] is matched by every host that has it inside, whatever comes
    before or after, and a domain that normalises to the empty string
    matches every link. *)
Theorem hostMatches_substring h normDomain :
  hostMatches h normDomain = Redirect.includes h normDomain ∧
  (hostMatches h normDomain = true ↔ ∃ a b, h = a +:+ normDomain +:+ b) ∧
  hostMatches h "" = true.
Proof.
  assert (∀ d, hostMatches h d = Redirect.includes h d) as Hsame.
  { intros d. unfold hostMatches.
    destruct (Redirect.includes h d) eqn:Hinc; [apply orb_true_r|].
    rewrite orb_false_r.
    destruct (String.eqb_spec h d) as [->|_].
    - pose proof (includes_app_end "" d) as Hself.
      change ("" +:+ d) with d in Hself. congruence.
    - simpl. destruct (endsWith h ("." +:+ d)) eqn:Hends; [|done].
      apply endsWith_split in Hends as [a ->].
      by rewrite <- (string_app_assoc a "." d), includes_app_end in Hinc. }
  split_and!; [done| |].
  - rewrite Hsame. split; [apply includes_split|].
    intros (a & b & ->). apply includes_app.
  - rewrite Hsame. apply includes_prefix. by destruct h.
Qed.

Example lookalike_host_matches :
  hostMatches "cnn.com.evil.example" "cnn.com" = true ∧
  hostMatches "notcnn.com" "cnn.com" = true.
Proof. by vm_compute. Qed.


(** *** The link that is clicked *)

Lemma insertByScore_perm x sorted : insertByScore x sorted ≡ₚ x :: sorted.
Proof.
  induction sorted as [|y rest IH]; simpl; [done|].
  destruct (score x <? score y)%Z; [|done].
  rewrite IH. apply Permutation_swap.
Qed.

Lemma sortByScore_perm links : sortByScore links ≡ₚ links.
Proof.
  induction links as [|x rest IH]; simpl; [done|].
  by rewrite insertByScore_perm, IH.
Qed.

Lemma insertByScore_falling x sorted :
  falling sorted → falling (insertByScore x sorted).
Proof.
  induction sorted as [|y rest IH]; simpl; [done|]. intros [Hy Hrest].
  destruct (Z.ltb_spec (score x) (score y)) as [Hlt|Hge]; simpl.
  - split; [|by apply IH]. rewrite insertByScore_perm.
    constructor; [lia|done].
  - split_and!; [|done|done]. constructor; [done|].
    eapply Forall_impl; [exact Hy|]. simpl. intros z Hz. lia.
Qed.

Lemma sortByScore_falling links : falling (sortByScore links).
Proof.
  induction links as [|x rest IH]; simpl; [done|].
  by apply insertByScore_falling.
Qed.

Lemma insertByScore_stable s x sorted :
  filter (λ l, score l = s) (insertByScore x sorted)
  = filter (λ l, score l = s) (x :: sorted).
Proof.
  induction sorted as [|y rest IH]; simpl; [done|].
  destruct (Z.ltb_spec (score x) (score y)) as [Hlt|Hge]; [|done].
  rewrite (filter_cons _ y), IH, !filter_cons.
  destruct (decide (score y = s)), (decide (score x = s)); try done. lia.
Qed.

Lemma sortByScore_stable s links :
  filter (λ l, score l = s) (sortByScore links)
  = filter (λ l, score l = s) links.
Proof.
  induction links as [|x rest IH]; simpl; [done|].
  by rewrite insertByScore_stable, !filter_cons, IH.
Qed.

Lemma target_cons x rest :
  target (x :: rest)
  = match target rest with
    | Some y => if (score x <? score y)%Z then Some y else Some x
    | None => Some x
    end.
Proof.
  unfold target. simpl. destruct (sortByScore rest) as [|y sorted]; simpl; [done|].
  by destruct (score x <? score y)%Z.
Qed.


(** The bonus of the first five candidates decides between two headlines
    alike in everything else, and a footer link is taken only when it is
    alone. *)
Example headline_beats_footer :
  target [footerLink; seventhHeadline; secondHeadline] = Some secondHeadline ∧
  score footerLink = (-50)%Z ∧ score secondHeadline = 210%Z ∧
  score seventhHeadline = 170%Z ∧ target [footerLink] = Some footerLink.
Proof. by vm_compute. Qed.
End SearchFacts.

Module PanelFacts.

Import Driver Panel.

Lemma receive_updates msgs : ∀ p,
  Forall (λ m, m ≠ StreamDone) msgs →
  foldl receive p msgs
  = PanelState (chatHistory p) (streamingAccumulator p ++ spoken msgs)
      (pendingUserText p).
Proof.
  induction msgs as [|m msgs IH]; intros p Hall.
  { unfold spoken. simpl. rewrite app_nil_r. by destruct p. }
  apply Forall_cons in Hall as [Hm Hall]. simpl. rewrite IH by done.
  destruct m; try done; unfold spoken; simpl.
  by rewrite (assoc_L (++)).
Qed.

Lemma toPanel_not_done events :
  Forall (λ m, m ≠ StreamDone) (omap toPanel events).
Proof.
  induction events as [|e events IH]; [constructor|].
  destruct e; simpl; try done; by constructor.
Qed.

Lemma spoken_notices events :
  spoken (omap toPanel events) = concat (omap noticeOf events).
Proof.
  unfold spoken. induction events as [|e events IH]; [done|].
  destruct e; simpl in *; try done. f_equal. exact IH.
Qed.

Lemma spoken_app a b : spoken (a ++ b) = spoken a ++ spoken b.
Proof. unfold spoken. by rewrite omap_app, concat_app. Qed.


Lemma send_facts input context p :
  (Extract.trim input = [] → send input context p = (p, None)) ∧
  chatHistory (send input context p).1 = chatHistory p ∧
  ∀ messages,
    (send input context p).2 = Some messages →
    ∃ ctx window,
      messages = ctx ++ window ++ [Message false (Extract.trim input)] ∧
      Extract.trim input ≠ [] ∧
      window `suffix_of` chatHistory p ∧
      length window = length (chatHistory p) `min` 8 ∧
      length ctx ≤ 1 ∧ (context = None → ctx = []).
Proof.
  unfold send. destruct (decide (Extract.trim input = [])) as [Hblank|Htext].
  - rewrite bool_decide_eq_true_2 by done. by split_and!.
  - rewrite bool_decide_eq_false_2 by done. simpl. split_and!; [done|done|].
    intros messages [= <-].
    exists (match context with
            | Some json => [contextMessage json]
            | None => []
            end), (lastEight (chatHistory p)).
    split_and!; try done.
    + apply suffix_drop.
    + unfold lastEight. rewrite length_drop. lia.
    + destruct context; simpl; lia.
    + by intros ->.
Qed.

Lemma receive_extends p msg :
  chatHistory p `prefix_of` chatHistory (receive p msg).
Proof.
  destruct msg; simpl; try done.
  destruct (pendingUserText p) as [[|u text]|], (streamingAccumulator p);
    simpl; rewrite <- ?(assoc_L (++)); first [done|by eexists].
Qed.

(** X19: the history of the side panel only grows: whatever is sent and
    whatever arrives, in any order, what was recorded stays recorded, in
    place.  A question goes out with the user text trimmed, after at most
    the last eight entries of the history and, before those, at most one
    message with the page context; an input of white space only sends
    nothing and changes nothing. *)
Theorem history_append_only happenings p :
  chatHistory p `prefix_of` chatHistory (foldl step p happenings) ∧
  (∀ input context,
     Extract.trim input = [] → send input context p = (p, None)) ∧
  (∀ h messages,
     asked p h = Some messages →
     ∃ ctx window text,
       messages = ctx ++ window ++ [Message false text] ∧
       text ≠ [] ∧ Frames.trimmed text ∧
       window `suffix_of` chatHistory p ∧ length window ≤ 8 ∧
       length ctx ≤ 1).
Proof.
  split_and!.
  - revert p. induction happenings as [|h rest IH]; intros p; [done|].
    simpl. etrans; [|apply IH].
    destruct h as [input context|msg]; simpl.
    + by rewrite (proj1 (proj2 (send_facts input context p))).
    + apply receive_extends.
  - intros input context. apply send_facts.
  - intros [input context|msg] messages Hasked; [|done]. simpl in Hasked.
    destruct (send_facts input context p) as (_ & _ & Hsent).
    destruct (Hsent messages Hasked) as (ctx & window & -> & ? & ? & Hlen & ? & _).
    exists ctx, window, (Extract.trim input).
    split_and!; try done; [apply FramesFacts.trim_trimmed|lia].
Qed.

(** After the fourth 500 of the preferred backend the answer "done" comes
    from the first alternate; the side panel records the notice and the
    answer as one assistant entry. *)
Example notice_recorded_with_answer :
  chatHistory
    (foldl receive (send (lit " hi ") None freshPanel).1
       (askGemini recoveringWorld samplePlatform initialState
          (default [] (send (lit " hi ") None freshPanel).2) None (Some 1)
          noCounts))
  = [Message false (lit "hi");
     Message true
       (lit "Model gemini-2.5-flash-lite returned 500 INTERNAL; retrying with a fallback model...done")].
Proof. vm_compute. done. Qed.

(** The same four 500s, and then a 200 whose body is not JSON: the
    session throws, nothing ends the stream, and the turn is not
    recorded. *)
Example garbled_answer_not_recorded :
  foldl receive (send (lit " hi ") None freshPanel).1
    (askGemini garbledWorld samplePlatform initialState
       (default [] (send (lit " hi ") None freshPanel).2) None (Some 1)
       noCounts)
  = PanelState []
      (lit "Model gemini-2.5-flash-lite returned 500 INTERNAL; retrying with a fallback model...")
      (Some (lit "hi")).
Proof. vm_compute. done. Qed.


End PanelFacts.

Module ToolsFacts.

Import Tools.

Lemma caseOf_label cases name reads :
  caseOf cases name = Some reads → name ∈ cases.*1.
Proof.
  induction cases as [|[label r] rest IH]; simpl; [done|].
  destruct (String.eqb_spec name label) as [->|_]; [by left|].
  intros H. right. by apply IH.
Qed.

(** X20: every tool that is declared to the model reaches a handler that
    knows it: the background for the seven names it keeps, the content
    script for the other nineteen; no call of a declared tool is answered
    "Unknown tool", and no handler exists for a name that is not declared.
    Every handler but one reads only arguments its declaration has:
    [insertText] is declared with [text], and its handler reads [selector]
    and [value]. *)
Theorem declared_tools_handled :
  (∀ d, d ∈ declarations →
        ∃ reads, handlerReads (d_name d) = Some reads ∧
                 (d_name d ≠ "insertText" → reads ⊆ d_properties d) ∧
                 d_required d ⊆ d_properties d) ∧
  (∀ name reads, handlerReads name = Some reads → name ∈ declaredNames) ∧
  NoDup declaredNames ∧
  BACKGROUND_TOOLS ⊆ declaredNames ∧
  Driver.workflowTools ⊆ declaredNames ∧
  Declaration "insertText" ["text"] ["text"] ∈ declarations ∧
  handlerReads "insertText" = Some ["selector"; "value"].
Proof.
  split_and!.
  - assert (Forall (λ d, ∃ reads,
                       handlerReads (d_name d) = Some reads ∧
                       (d_name d ≠ "insertText" → reads ⊆ d_properties d) ∧
                       d_required d ⊆ d_properties d) declarations) as Hall.
    { unfold declarations. repeat constructor;
        (eexists; split_and!; [reflexivity| |];
         [try (intros _; apply (bool_decide_unpack _); by vm_compute);
          try (by intros [])
         |apply (bool_decide_unpack _); by vm_compute]). }
    intros d Hd. by apply (proj1 (Forall_forall _ _) Hall).
  - intros name reads. unfold handlerReads.
    assert (backgroundCases.*1 ⊆ declaredNames) as Hb
      by (apply (bool_decide_unpack _); by vm_compute).
    assert (contentCases.*1 ⊆ declaredNames) as Hc
      by (apply (bool_decide_unpack _); by vm_compute).
    destruct (bool_decide (name ∈ BACKGROUND_TOOLS));
      intros H%caseOf_label; [by apply Hb|by apply Hc].
  - apply (bool_decide_unpack _). by vm_compute.
  - apply (bool_decide_unpack _). by vm_compute.
  - apply (bool_decide_unpack _). by vm_compute.
  - apply list_elem_of_In. simpl. tauto.
  - reflexivity.
Qed.

End ToolsFacts.

Module PermissionFacts.

Import Permission.

(** X21: the site permission check never refuses: it resolves with true
    for every origin, whatever the permissions were.  Afterwards the origin
    asked about is allowed and nothing else has changed (no origin loses
    its permission); the notification is shown and the permissions are
    stored exactly when the origin was not allowed before, so asking again
    does nothing.  A tab whose URL does not parse is asked about under the
    origin [*]. *)
Theorem ensureSitePermission_grants permissions origin :
  let out := ensureSitePermission permissions origin in
  out.1.1 = true ∧
  out.1.2 !! origin = Some true ∧
  (∀ other, other ≠ origin → out.1.2 !! other = permissions !! other) ∧
  (∀ other, permissions !! other = Some true → out.1.2 !! other = Some true) ∧
  (out.2 = [] ↔ permissions !! origin = Some true) ∧
  ensureSitePermission out.1.2 origin = (true, out.1.2, []) ∧
  (∀ parse url, parse url = None → getOrigin parse url = "*").
Proof.
  intros out. subst out. unfold ensureSitePermission.
  destruct (permissions !! origin) as [[|]|] eqn:Hp; simpl;
    rewrite ?Hp, ?lookup_insert_eq; (split_and!; try done).
  all: try (intros other Hne; by rewrite lookup_insert_ne).
  all: try (intros other Hother; destruct (decide (other = origin)) as [->|];
            [by rewrite lookup_insert_eq|by rewrite lookup_insert_ne]).
  all: try (intros parse url Hnone; unfold getOrigin; by rewrite Hnone).
Qed.

End PermissionFacts.

Module ScrollFacts.

Import Driver Extract Frames Scroll.

Section Loop.

Context (target : jsstring → bool) (selector scroll : bool)
        (passAt : nat → pass).

Lemma iteration_again n st st' :
  iteration target selector scroll passAt n st = (st', true) →
  scroll = true ∧ scrollCount st' = S (scrollCount st) ∧
  scrollCount st' < MAX_SCROLLS.
Proof.
  unfold iteration.
  destruct (isNew (allText st) (currentTextAt selector passAt n)).
  - destruct scroll; simpl.
    + destruct (_ && _); [done|].
      destruct (Nat.ltb_spec (S (scrollCount st)) MAX_SCROLLS); [|done].
      intros [= <- _]. simpl. done.
    + by rewrite ?andb_false_r.
  - destruct scroll; simpl; [|by rewrite ?andb_false_r].
    destruct (_ && _); [done|].
    destruct (S (stableScrollCount st) <? MAX_STABLE_SCROLLS) eqn:Hs; simpl.
    + destruct (Nat.ltb_spec (S (scrollCount st)) MAX_SCROLLS); [|done].
      intros [= <- _]. simpl. done.
    + by rewrite ?andb_false_r.
Qed.

Lemma passesFrom_mono fuel : ∀ fuel' n st r,
  fuel ≤ fuel' →
  passesFrom target selector scroll passAt fuel n st = Some r →
  passesFrom target selector scroll passAt fuel' n st = Some r.
Proof.
  induction fuel as [|fuel IH]; intros fuel' n st r Hle; [done|].
  destruct fuel' as [|fuel']; [lia|]. simpl.
  destruct (iteration target selector scroll passAt n st) as [st' [|]];
    [|done].
  apply IH. lia.
Qed.

Lemma passesFrom_ends fuel : ∀ n st,
  MAX_SCROLLS - scrollCount st ≤ fuel → 1 ≤ fuel →
  ∃ st' k,
    passesFrom target selector scroll passAt fuel n st = Some (st', k) ∧
    n < k ≤ n + 1 `max` (MAX_SCROLLS - scrollCount st).
Proof.
  unfold MAX_SCROLLS.
  induction fuel as [|fuel IH]; intros n st Hfuel Hone; [lia|].
  simpl.
  destruct (iteration target selector scroll passAt n st) as [st' again] eqn:Hit.
  destruct again.
  - apply iteration_again in Hit as (_ & Hcount & Hmax).
    unfold MAX_SCROLLS in Hmax.
    destruct (IH (S n) st') as (st'' & k & Hpasses & Hk); [lia..|].
    exists st'', k. split; [done|]. lia.
  - exists st', (S n). split; [done|]. lia.
Qed.

(** X22: [extractText] ends after at least one and at most 15 passes of
    its strategy ladder, however the page behaves, and exactly one without
    [scroll]; then it returns the text of that pass, tidied.  What it
    returns has no three line feeds in a row and no white space at its
    ends. *)
Theorem extractText_passes :
  ∃ text n,
    extractText target selector scroll passAt = Some (text, n) ∧
    1 ≤ n ≤ 15 ∧
    (scroll = false →
     n = 1 ∧ text = tidy (currentTextAt selector passAt 0)) ∧
    (∀ fuel, 15 ≤ fuel →
             passesFrom target selector scroll passAt fuel 0 start
             = passesFrom target selector scroll passAt 15 0 start) ∧
    longestRun isLineFeed text ≤ 2 ∧ trimmed text.
Proof.
  destruct (passesFrom_ends MAX_SCROLLS 0 start) as (st & n & Hpasses & Hn);
    [unfold MAX_SCROLLS; simpl; lia..|].
  unfold extractText. rewrite Hpasses.
  eexists _, n. split; [done|]. unfold MAX_SCROLLS in *. simpl in Hn.
  split_and!; [lia..| | | |].
  - intros ->. unfold MAX_SCROLLS in Hpasses. simpl in Hpasses.
    unfold iteration in Hpasses. simpl in Hpasses.
    unfold isNew in Hpasses. simpl in Hpasses. rewrite andb_true_r in Hpasses.
    destruct (decide (currentTextAt selector passAt 0 = [])) as [Hnil|Hne].
    + rewrite bool_decide_eq_true_2 in Hpasses by done. simpl in Hpasses.
      injection Hpasses as <- <-. by rewrite Hnil.
    + rewrite bool_decide_eq_false_2 in Hpasses by done. simpl in Hpasses.
      injection Hpasses as <- <-. simpl. split; [done|].
      rewrite filter_cons_True by done. simpl. by rewrite app_nil_r.
  - intros fuel Hfuel. unfold MAX_SCROLLS in Hpasses. rewrite Hpasses.
    by apply (passesFrom_mono 15).
  - apply FramesFacts.tidy_facts.
  - apply FramesFacts.tidy_facts.
Qed.

End Loop.

(** On a page that never stops growing and always shows something new,
    the loop makes its 15 passes. *)
Example endless_page_passes :
  snd <$> extractText (λ _, false) true true endlessPage = Some 15.
Proof. vm_compute. done. Qed.

End ScrollFacts.
